(** * Dynacomp: a shallow embedding of the geometry tagger, the load-path
    driver and the PV-loop averaging utility.

    The development follows the Python modules of the repository:

    - [Geometry], [Binary64], [GraphSearch] : [create_geometry.py]
                     (fiber-angle defaults, geometric face keys, facet
                     tagging; the face key on doubles; the depth-first
                     search);
    - [HeartModel], [Continuation], [BoundaryConditions], [Segments],
      [TimeLoop] :   [heart_model.py] (the [HeartModelDynaComp] driver:
                     [compute_volume], [dVda], [save], the continuation
                     routine it calls, the boundary conditions and the
                     records per segment);
    - [PVData], [PVPipeline] : [pv_data.py] ([average_array], the cycles,
                     the slicing and the script);
    - [OrganizeData] : [organize_data.py] ([get_PV_fname]).

    Conventions.  Python floats are idealised as exact rationals ([Q]),
    except in [Binary64], where the rounding of a double decides.  The
    nonlinear solver, the continuation routine and the finite-element
    projections are collaborators of the driver: they are the fields of a
    record the driver is parameterised by.  A Python exception is an
    explicit error result, and the mutable driver object is an explicit
    state threaded through the calls.

    Part I holds the embedding, module by module; Part II the properties. *)

From Stdlib Require Import ZArith QArith Qround Qabs Lia Lqa List Permutation Sorting.Sorted Floats.
From stdpp Require Import base decidable option list sorting numbers strings gmap.

Local Open Scope Z_scope.

(** * Part I: the embedding *)

(** ** Numeric helpers shared by the modules *)

Module PyNum.

(** [np.round]: round to the nearest integer, ties to the even neighbour. *)
Definition np_round (q : Q) : Z :=
  let f := Qfloor q in
  match Qcompare (q - inject_Z f) (1 # 2) with
  | Lt => f
  | Gt => f + 1
  | Eq => if Z.even f then f else f + 1
  end.

Definition int64_min : Z := - 2 ^ 63.
Definition int64_max : Z := 2 ^ 63 - 1.

Definition in_int64 (z : Z) : bool := (int64_min <=? z) && (z <=? int64_max).

(** [ndarray.astype(int)] on a 64-bit platform: values that fit are kept,
    anything else becomes the "integer indefinite" value [-2^63]. *)
Definition astype_int (z : Z) : Z := if in_int64 z then z else int64_min.

(** Python's [/] on numbers: division by zero raises [ZeroDivisionError]. *)
Definition py_div (x y : Q) : option Q :=
  if Qeq_bool y 0 then None else Some (x / y)%Q.

End PyNum.

(** ** create_geometry.py *)

Module Geometry.
Import PyNum.

(** *** Fiber angles *)

(** [get_default_fiber_angles]: the four default angles, in degrees. *)
Definition get_default_fiber_angles : gmap string Q :=
  <["beta_epi_lv" := 15%Q]>
    (<["beta_endo_lv" := (-15)%Q]>
       (<["alpha_epi_lv" := (-60)%Q]>
          (<["alpha_endo_lv" := 60%Q]> ∅))).

(** Truth value of the optional dictionary argument: [None] and the empty
    dictionary are falsy, every other dictionary is truthy. *)
Definition truthy (fiber_angles : option (gmap string Q)) : bool :=
  match fiber_angles with
  | None => false
  | Some d => negb (Nat.eqb (size d) 0)
  end.

(** [d.get(key, fallback)] *)
Definition dict_get (d : gmap string Q) (key : string) (fallback : Q) : Q :=
  default fallback (d !! key).

(** [get_fiber_angles]: a comprehension over the default keys when the
    argument is truthy, the default dictionary otherwise. *)
Definition get_fiber_angles (fiber_angles : option (gmap string Q)) : gmap string Q :=
  let default_fiber_angles := get_default_fiber_angles in
  match fiber_angles with
  | Some d =>
      if truthy (Some d)
      then map_imap (fun key dv => Some (dict_get d key dv)) default_fiber_angles
      else default_fiber_angles
  | None => default_fiber_angles
  end.

(** The dictionary the caller passed, [None] read as no entries at all. *)
Definition entries_of (fiber_angles : option (gmap string Q)) : gmap string Q :=
  default ∅ fiber_angles.

Definition fiber_angle_keys : gset string :=
  {[ "alpha_endo_lv"; "alpha_epi_lv"; "beta_endo_lv"; "beta_epi_lv" ]}.

(** *** Geometric face keys *)

(** A row of an [N x 3] array. *)
Definition vec3 (A : Type) : Type := (A * A * A)%type.

(** A mesh vertex: its three coordinates. *)
Abbreviation point := (vec3 Q).

(** The key of a face: the flattened tuple of sorted integer coordinates. *)
Definition face_key : Type := list Z.

Definition default_tol : Q := 1 # 1000000.

(** The three columns of an [N x 3] array. *)
Inductive axis : Type := ax0 | ax1 | ax2.

Definition component {A} (k : axis) (p : vec3 A) : A :=
  match k with
  | ax0 => fst (fst p)
  | ax1 => snd (fst p)
  | ax2 => snd p
  end.


Definition column {A} (k : axis) (a : list (vec3 A)) : list A := map (component k) a.

(** The array whose columns are the three given lists. *)
Definition of_cols {A} (xs ys zs : list A) : list (vec3 A) := zip (zip xs ys) zs.

(** One entry of [np.round(coords / tol).astype(int)], on exact rationals.
    A double that lies within a rounding error of a rounding boundary can
    land on the other side in the code; what is proved with this
    definition does not depend on where a coordinate lands, and [Binary64]
    below is the same entry on doubles. *)
Definition quantize (tol : Q) (c : Q) : Z := astype_int (np_round (c / tol)).

Definition quantize_row (tol : Q) (p : point) : vec3 Z :=
  (quantize tol (component ax0 p), quantize tol (component ax1 p),
   quantize tol (component ax2 p)).

(** [np.sort(a, axis=0)]: every column is sorted on its own. *)
Definition np_sort_axis0 (a : list (vec3 Z)) : list (vec3 Z) :=
  of_cols (merge_sort Z.le (column ax0 a))
          (merge_sort Z.le (column ax1 a))
          (merge_sort Z.le (column ax2 a)).

(** [tuple(a.flatten())]: row-major order. *)
Fixpoint flatten (a : list (vec3 Z)) : face_key :=
  match a with
  | [] => []
  | p :: rest => component ax0 p :: component ax1 p :: component ax2 p :: flatten rest
  end.

(** [triangle_key(coords, tol)] *)
Definition triangle_key (coords : list point) (tol : Q) : face_key :=
  let rounded_coords := map (quantize_row tol) coords in
  let sorted_coords := np_sort_axis0 rounded_coords in
  flatten sorted_coords.


(** *** Key sets of the face groups *)

(** [a[idx]] with an index array: [IndexError] on an index out of range. *)
Definition np_take {A} (a : list A) (idx : list nat) : option (list A) :=
  mapM (fun i => a !! i) idx.

(** The loop of [build_face_keys], started from the keys collected so far. *)
Fixpoint build_face_keys_from (keys : gset face_key) (face_indices : list (list nat))
    (vertex_coordinates : list point) (tol : Q) : option (gset face_key) :=
  match face_indices with
  | [] => Some keys
  | indices :: rest =>
      coords ← np_take vertex_coordinates indices;
      build_face_keys_from (keys ∪ {[ triangle_key coords tol ]}) rest
        vertex_coordinates tol
  end.

(** [build_face_keys(face_indices, vertex_coordinates, tol)] *)
Definition build_face_keys (face_indices : list (list nat))
    (vertex_coordinates : list point) (tol : Q) : option (gset face_key) :=
  build_face_keys_from ∅ face_indices vertex_coordinates tol.

(** A cell block of the input mesh: its cell type and connectivity. *)
Record CellBlock : Type := mkCellBlock {
  cell_type : string;
  data : list (list nat)
}.

(** The mesh as read from the input file.  [cell_sets_dict] maps a group
    name and a cell type to indices into the cells of that type (the blocks
    of that type, concatenated in file order). *)
Record MeshioMesh : Type := mkMeshioMesh {
  points : list point;
  cells : list CellBlock;
  cell_sets_dict : gmap string (gmap string (list nat))
}.

(** [msh.cell_sets_dict[name]['triangle']]: [KeyError] when absent. *)
Definition named_triangles (msh : MeshioMesh) (name : string) : option (list nat) :=
  group ← cell_sets_dict msh !! name; group !! "triangle".

(** [next(i for i, item in enumerate(cells) if item.type == ty)] *)
Definition first_block_of_type (ty : string) (blocks : list CellBlock) : option nat :=
  fst <$> list_find (fun b => cell_type b = ty) blocks.

(** The three key sets used for the marker lookup, as [create_geometry]
    builds them: from the first three cell blocks, in this order. *)
Definition face_key_sets (msh : MeshioMesh)
  : option (gset face_key * gset face_key * gset face_key) :=
  epi_face_indices ← data <$> cells msh !! 0%nat;
  endo_face_indices ← data <$> cells msh !! 1%nat;
  base_face_indices ← data <$> cells msh !! 2%nat;
  let vertex_coordinates := points msh in
  epi_keys ← build_face_keys epi_face_indices vertex_coordinates default_tol;
  endo_keys ← build_face_keys endo_face_indices vertex_coordinates default_tol;
  base_keys ← build_face_keys base_face_indices vertex_coordinates default_tol;
  Some (epi_keys, endo_keys, base_keys).

(** The surface elements of a named group, read through the group table:
    the triangles of the input mesh (all triangle blocks, in file order)
    at the indices the table lists for the group. *)
Definition cells_of_type (ty : string) (blocks : list CellBlock) : list (list nat) :=
  concat (map data (filter (fun b => cell_type b = ty) blocks)).

Definition named_group_faces (msh : MeshioMesh) (name : string) : option (list (list nat)) :=
  indices ← named_triangles msh name;
  np_take (cells_of_type "triangle" (cells msh)) indices.

(** The key set of a named group: one key per surface element of the group. *)
Definition named_group_keys (msh : MeshioMesh) (name : string) : option (gset face_key) :=
  faces ← named_group_faces msh name;
  build_face_keys faces (points msh) default_tol.

(** *** Facet annotation *)

(** A facet of the volumetric mesh: whether it lies on the boundary and the
    indices of its vertices. *)
Record Facet : Type := mkFacet {
  exterior : bool;
  entities0 : list nat
}.

Record DolfinMesh : Type := mkDolfinMesh {
  coordinates : list point;
  facets : list Facet
}.

Definition BASE : nat := 5.
Definition ENDO : nat := 6.
Definition EPI : nat := 7.

(** The [if]/[elif] chain of the loop body: the marker of the first key set
    that holds [key] is written at [index]; with no match nothing is written. *)
Definition mark_facet (epi_keys endo_keys base_keys : gset face_key)
    (key : face_key) (index : nat) (ffun : list nat) : list nat :=
  if decide (key ∈ epi_keys) then <[index := EPI]> ffun
  else if decide (key ∈ endo_keys) then <[index := ENDO]> ffun
  else if decide (key ∈ base_keys) then <[index := BASE]> ffun
  else ffun.

(** The loop over [dolfin.facets(mesh)]; [index] is the index of the first
    facet of [fcs], [ffun] the marker array so far. *)
Fixpoint annotate (mesh_coordinates : list point)
    (epi_keys endo_keys base_keys : gset face_key)
    (fcs : list Facet) (index : nat) (ffun : list nat) : option (list nat) :=
  match fcs with
  | [] => Some ffun
  | fc :: rest =>
      if exterior fc then
        coord ← np_take mesh_coordinates (entities0 fc);
        let key := triangle_key coord default_tol in
        annotate mesh_coordinates epi_keys endo_keys base_keys rest (S index)
          (mark_facet epi_keys endo_keys base_keys key index ffun)
      else
        annotate mesh_coordinates epi_keys endo_keys base_keys rest (S index) ffun
  end.

(** Every facet refers to vertices of the mesh (the mesh library maintains
    this for the meshes it builds). *)
Definition facet_indices_valid (mesh : DolfinMesh) : bool :=
  forallb (fun fc => forallb (fun v => Nat.ltb v (length (coordinates mesh))) (entities0 fc))
          (facets mesh).

(** [ffun = MeshFunction("size_t", mesh, 2); ffun.set_all(0)] *)
Definition new_ffun (mesh : DolfinMesh) : list nat := replicate (length (facets mesh)) 0%nat.

Section CreateGeometry.

(** Writing the tetrahedra to XDMF and reading them back as a volumetric
    mesh with initialised facets. *)
Variable read_mesh : list point -> list (list nat) -> DolfinMesh.

(** The marker function computed by [create_geometry]. *)
Definition create_geometry_ffun (msh : MeshioMesh) : option (list nat) :=
  Epi_triangles ← named_triangles msh "Epi";
  Endo_triangles ← named_triangles msh "Endo";
  Base_triangles ← named_triangles msh "Base";
  tetra_index ← first_block_of_type "tetra" (cells msh);
  tetra_cells ← data <$> cells msh !! tetra_index;
  triangle_index ← first_block_of_type "triangle" (cells msh);
  triangle_cells ← data <$> cells msh !! triangle_index;
  let mesh := read_mesh (points msh) tetra_cells in
  let ffun := new_ffun mesh in
  '(epi_keys, endo_keys, base_keys) ← face_key_sets msh;
  annotate (coordinates mesh) epi_keys endo_keys base_keys (facets mesh) 0 ffun.

End CreateGeometry.

End Geometry.

(** ** create_geometry.py: the geometric key on binary64 coordinates *)

(** The coordinates of a mesh are arrays of doubles, and whether a
    coordinate lands on one grid value or the next is decided by the
    rounding of the division [coords / tol].  This module is
    [triangle_key] on doubles, with the operations of IEEE 754 binary64. *)
Module Binary64.

Abbreviation point := (Geometry.vec3 float).

(** The default [tol=1e-6]: the double the literal denotes. *)
Definition default_tol : float := 0x1.0c6f7a0b5ed8dp-20%float.

Definition two52 : float := 0x1p52%float.

(** [np.round] on one double: the nearest integer, ties to the even
    neighbour.  Below [2^52] in magnitude, adding and subtracting [2^52]
    rounds to an integer in the rounding mode of the addition; from [2^52]
    on every double is an integer, and infinities and NaN are returned as
    they are. *)
Definition np_round (x : float) : float :=
  if PrimFloat.ltb (PrimFloat.abs x) two52
  then if PrimFloat.ltb x 0%float
       then PrimFloat.add (PrimFloat.sub x two52) two52
       else PrimFloat.sub (PrimFloat.add x two52) two52
  else x.

(** [ndarray.astype(int)] on one double, on a 64-bit platform: the value
    truncated toward zero when it fits, and the "integer indefinite" value
    [-2^63] for anything else (NaN and the infinities included). *)
Definition astype_int (x : float) : Z :=
  match Prim2SF x with
  | S754_zero _ => 0
  | S754_finite negative m e =>
      let magnitude :=
        if 0 <=? e then Z.shiftl (Z.pos m) e else Z.shiftr (Z.pos m) (- e) in
      PyNum.astype_int (if negative then - magnitude else magnitude)
  | S754_infinity _ | S754_nan => PyNum.int64_min
  end.

(** One entry of [np.round(coords / tol).astype(int)]. *)
Definition quantize (tol : float) (c : float) : Z :=
  astype_int (np_round (PrimFloat.div c tol)).

Definition quantize_row (tol : float) (p : point) : Geometry.vec3 Z :=
  (quantize tol (Geometry.component Geometry.ax0 p),
   quantize tol (Geometry.component Geometry.ax1 p),
   quantize tol (Geometry.component Geometry.ax2 p)).

(** [triangle_key(coords, tol)] *)
Definition triangle_key (coords : list point) (tol : float) : Geometry.face_key :=
  let rounded_coords := map (quantize_row tol) coords in
  let sorted_coords := Geometry.np_sort_axis0 rounded_coords in
  Geometry.flatten sorted_coords.

(** The rational number a finite double stands for. *)
Definition exact (x : float) : Q :=
  match Prim2SF x with
  | S754_finite negative m e =>
      let magnitude :=
        if 0 <=? e then inject_Z (Z.pos m * 2 ^ e) else Z.pos m # (2 ^ Z.to_pos (- e)) in
      if negative then (- magnitude)%Q else magnitude
  | _ => 0%Q
  end.

(** The doubles that the literals [0.4e-6], [0.6e-6], [2.5e-6], [3.5e-6]
    and [4.5e-6] denote. *)
Definition c_0_4 : float := 0x1.ad7f29abcaf48p-22%float.
Definition c_0_6 : float := 0x1.421f5f40d8376p-21%float.
Definition c_2_5 : float := 0x1.4f8b588e368f1p-19%float.
Definition c_3_5 : float := 0x1.d5c31593e5fb7p-19%float.
Definition c_4_5 : float := 0x1.2dfd694ccab3fp-18%float.


(** Two different triangles whose coordinates agree column by column. *)
Definition face_diag : list point := [ (0, 0, 0); (1, 1, 0); (0, 0, 1) ]%float.
Definition face_split : list point := [ (0, 1, 0); (1, 0, 0); (0, 0, 1) ]%float.

End Binary64.

(** ** create_geometry.py: the depth-first search *)

Module GraphSearch.

(** A graph is a dictionary from a node to the list of its neighbours; the
    set of visited nodes is the object the caller passes in, which [dfs]
    extends in place. *)
Definition Graph := gmap nat (list nat).

(** How a call ends: it returns, with the visited set it leaves; or
    [graph[node]] raises a [KeyError], with the visited set as it is at
    that point.  The third outcome belongs to the model only: the recursion
    is cut after [fuel] nested calls.  (Python's own recursion limit is not
    modelled.) *)
Inductive outcome :=
  | Returned (visited : gset nat)
  | KeyError (visited : gset nat)
  | OutOfFuel.

(** One round of [for neighbour in graph[node]], given the search that the
    nested call performs. *)
Definition visit (search : nat -> gset nat -> outcome)
    (so_far : outcome) (neighbour : nat) : outcome :=
  match so_far with
  | Returned visited =>
      if decide (neighbour ∈ visited) then Returned visited
      else search neighbour visited
  | raised => raised
  end.

Fixpoint dfs (fuel : nat) (graph : Graph) (node : nat) (visited : gset nat)
  : outcome :=
  match fuel with
  | O => OutOfFuel
  | S fuel =>
      let visited := {[node]} ∪ visited in
      match graph !! node with
      | None => KeyError visited
      | Some neighbours =>
          fold_left (visit (dfs fuel graph)) neighbours (Returned visited)
      end
  end.

(** [reach graph visited a b]: [b] can be reached from [a] along edges of
    the graph through nodes that are not in [visited] ([a] itself may
    be). *)
Inductive reach (graph : Graph) (visited : gset nat) : nat -> nat -> Prop :=
  | reach_here a : reach graph visited a a
  | reach_step a neighbours n b :
      graph !! a = Some neighbours -> n ∈ neighbours -> n ∉ visited ->
      reach graph visited n b -> reach graph visited a b.

Section Specification.

Variable graph : Graph.

(** Node [x] has been expanded: it is a key, and all its neighbours are in
    [visited]. *)
Definition expanded (visited : gset nat) (x : nat) : Prop :=
  exists neighbours,
    graph !! x = Some neighbours /\ forall y, y ∈ neighbours -> y ∈ visited.

(** What a call that returns has done, and what a call that raises has
    met. *)
Definition searched (before : gset nat) (node : nat) (after : gset nat) : Prop :=
  {[node]} ∪ before ⊆ after /\
  (forall x, x ∈ after -> x ∉ before -> reach graph before node x) /\
  (forall x, x ∈ after -> x = node \/ x ∉ before -> expanded after x).

Definition meets_missing_key (before : gset nat) (node : nat) : Prop :=
  exists b, reach graph before node b /\ graph !! b = None.

(** The nodes that can still be expanded. *)
Definition unvisited (visited : gset nat) : nat :=
  size (dom graph ∖ visited).

End Specification.

(** Two components, and one with an edge to a node that is no key. *)
Definition two_components : Graph :=
  list_to_map [(0, [1; 2]); (1, [0]); (2, [3; 0]); (3, []); (4, [5]); (5, [4])]%nat.

Definition dangling : Graph :=
  list_to_map [(0, [1]); (1, [2; 7]); (2, [0])]%nat.

End GraphSearch.

(** ** heart_model.py *)

Module HeartModel.
Import PyNum.

(** The exceptions the driver can raise. *)
Inductive exn : Type :=
| SolverDidNotConverge
| ZeroDivisionError
| BdbQuit.

(** What a call into the mechanics library leaves behind: the new value when
    it converged, or the value it left when it raised. *)
Inductive outcome (A : Type) : Type :=
| Converged (a : A)
| Diverged (a : A).

Arguments Converged {A} a.
Arguments Diverged {A} a.

(** The two load controls of the mechanics problem. *)
Inductive control : Type := Activation | Pressure.

(** [get_default_fiber_angles] (static method) *)
Definition get_default_fiber_angles : gmap string Q :=
  <["beta_epi_lv" := 15%Q]>
    (<["beta_endo_lv" := (-15)%Q]>
       (<["alpha_epi_lv" := (-60)%Q]>
          (<["alpha_endo_lv" := 60%Q]> ∅))).

(** [HeartModelDynaComp.get_fiber_angles] *)
Definition get_fiber_angles (fiber_angles : option (gmap string Q)) : gmap string Q :=
  let default_fiber_angles := get_default_fiber_angles in
  match fiber_angles with
  | Some d =>
      if negb (Nat.eqb (size d) 0)
      then map_imap (fun key dv => Some (default dv (d !! key))) default_fiber_angles
      else default_fiber_angles
  | None => default_fiber_angles
  end.

Section Driver.

(** The finite-element objects are opaque to the driver: the state of the
    mechanics problem (displacement and pressure multiplier), functions on
    the mesh, and second-order tensors. *)
Context {State Field Tensor : Type}.

(** The load imposed on the mechanics problem and the state solving it:
    [self.activation], [self.lv_pressure], [self.problem.state]. *)
Record LoadState : Type := mkLoad {
  activation : Q;
  lv_pressure : Q;
  state : State
}.

(** The attributes of a [HeartModelDynaComp] object. *)
Record Driver : Type := mkDriver {
  load : LoadState;
  F0 : Tensor;
  E_ff : list (list (list Q));
  myocardial_work : list (list (list Q));
  t : nat
}.

(** One record of a checkpoint file: the function written, under a name and
    a time stamp. *)
Record Checkpoint : Type := mkCheckpoint {
  name : string;
  time : Q;
  function : Field
}.

(** The driver together with the checkpoint files, keyed by directory and
    file name. *)
Record World : Type := mkWorld {
  self : Driver;
  files : gmap (string * string) (list Checkpoint)
}.

(** The collaborators: the mechanics library and the finite-element
    backend. *)
Record Backend : Type := mkBackend {
  (** [problem.solve()] under the given activation and pressure, started
      from the given state *)
  solve : Q -> Q -> State -> outcome State;
  (** [pulse.iterate.iterate(problem, control, target)] *)
  iterate : control -> Q -> LoadState -> outcome LoadState;
  (** [geometry.cavity_volume(u=state.sub(0))] *)
  cavity_volume : State -> Q;
  (** the displacement part of [state.split(deepcopy=True)] *)
  split_u : State -> Field;
  (** [pulse.kinematics.DeformationGradient(u)] *)
  deformation_gradient : Field -> Tensor;
  (** the projection of the Green-Lagrange strain of [F(u) * inv(F0)] *)
  project_green_strain : Tensor -> Field -> Field;
  (** the piecewise-constant function holding the activation *)
  activation_function : Q -> Field;
  (** [dolfin.Identity(dim)] and the state of a fresh problem *)
  identity : Tensor;
  initial_state : State;
  (** whether the debugger entered by [breakpoint()] hands control back
      (it is continued, or disabled); otherwise it is quit and raises *)
  debugger_continues : bool
}.

(** The same collaborators with another continuation routine. *)
Definition replace_iterate (it : control -> Q -> LoadState -> outcome LoadState)
    (b : Backend) : Backend :=
  mkBackend (solve b) it (cavity_volume b) (split_u b) (deformation_gradient b)
            (project_green_strain b) (activation_function b) (identity b)
            (initial_state b) (debugger_continues b).

(** The value of a control in a load state. *)
Definition control_value (c : control) (l : LoadState) : Q :=
  match c with
  | Activation => activation l
  | Pressure => lv_pressure l
  end.

(** What the driver relies on from the continuation routine: when it
    converges the control has reached its target, and whether it converges
    or not the other control is left alone. *)
Definition iterate_reaches_target (b : Backend) : Prop :=
  forall c target l l',
    (iterate b c target l = Converged l' -> control_value c l' = target) /\
    (iterate b c target l = Converged l' \/ iterate b c target l = Diverged l' ->
     match c with
     | Activation => lv_pressure l' = lv_pressure l
     | Pressure => activation l' = activation l
     end).

Variable pulse : Backend.

(** *** Methods as state transformers that may raise *)

Definition M (A : Type) : Type := World -> World * (exn + A).

Definition ret {A} (a : A) : M A := fun w => (w, inr a).

Definition raise {A} (e : exn) : M A := fun w => (w, inl e).

Definition bind {A B} (m : M A) (k : A -> M B) : M B :=
  fun w =>
    match m w with
    | (w', inl e) => (w', inl e)
    | (w', inr a) => k a w'
    end.

Definition gets {A} (f : World -> A) : M A := fun w => (w, inr (f w)).

Definition modify (f : World -> World) : M unit := fun w => (f w, inr tt).

Notation "x <- m ;; k" := (bind m (fun x => k))
  (at level 100, m at next level, right associativity).
Notation "m ;; k" := (bind m (fun _ => k))
  (at level 100, right associativity).

Definition with_load (f : LoadState -> LoadState) (w : World) : World :=
  let d := self w in
  mkWorld (mkDriver (f (load d)) (F0 d) (E_ff d) (myocardial_work d) (t d)) (files w).

Definition the_load (w : World) : LoadState := load (self w).

(** [self.lv_pressure.assign(v)], [self.activation.assign(v)],
    [self.problem.state.assign(s)] *)
Definition assign_lv_pressure (v : Q) : M unit :=
  modify (with_load (fun l => mkLoad (activation l) v (state l))).

Definition assign_activation (v : Q) : M unit :=
  modify (with_load (fun l => mkLoad v (lv_pressure l) (state l))).

Definition assign_state (s : State) : M unit :=
  modify (with_load (fun l => mkLoad (activation l) (lv_pressure l) s)).

(** [self.problem.solve()]: the state is replaced by what the solver leaves;
    a failed solve raises. *)
Definition problem_solve : M unit :=
  fun w =>
    let l := the_load w in
    match solve pulse (activation l) (lv_pressure l) (state l) with
    | Converged s => (with_load (fun l => mkLoad (activation l) (lv_pressure l) s) w, inr tt)
    | Diverged s =>
        (with_load (fun l => mkLoad (activation l) (lv_pressure l) s) w,
         inl SolverDidNotConverge)
    end.

(** [pulse.iterate.iterate(self.problem, control, target)] *)
Definition pulse_iterate (c : control) (target : Q) : M unit :=
  fun w =>
    match iterate pulse c target (the_load w) with
    | Converged l => (with_load (fun _ => l) w, inr tt)
    | Diverged l => (with_load (fun _ => l) w, inl SolverDidNotConverge)
    end.

(** Python's float division inside a method. *)
Definition divide (x y : Q) : M Q :=
  match py_div x y with
  | Some q => ret q
  | None => raise ZeroDivisionError
  end.

(** [assign_state_variables] *)
Definition assign_state_variables (activation_value pressure_value : Q) : M unit :=
  assign_lv_pressure pressure_value ;;
  assign_activation activation_value.

(** [get_pressure], [get_volume] *)
Definition get_pressure : M Q := gets (fun w => lv_pressure (the_load w)).

Definition get_volume : M Q := gets (fun w => cavity_volume pulse (state (the_load w))).

(** [compute_volume] (the log line has no effect on the driver) *)
Definition compute_volume (activation_value pressure_value : Q) : M Q :=
  pulse_iterate Activation activation_value ;;
  pulse_iterate Pressure pressure_value ;;
  volume_current <- get_volume ;;
  ret volume_current.

Definition default_delta_a_percent : Q := 1 # 100.

(** [dVda] *)
Definition dVda (activation_value pressure_value delta_a_percent : Q) : M Q :=
  state_backup <- gets (fun w => state (the_load w)) ;;
  pressure_backup <- gets (fun w => lv_pressure (the_load w)) ;;
  activation_backup <- gets (fun w => activation (the_load w)) ;;
  assign_state_variables activation_value pressure_value ;;
  problem_solve ;;
  a_i <- gets (fun w => activation (the_load w)) ;;
  v_i <- get_volume ;;
  let a_f := (a_i * (1 + delta_a_percent))%Q in
  assign_activation a_f ;;
  problem_solve ;;
  v_f <- get_volume ;;
  dV_da <- divide (v_f - v_i)%Q (a_i * delta_a_percent)%Q ;;
  assign_state state_backup ;;
  assign_state_variables activation_backup pressure_backup ;;
  ret dV_da.

(** [initial_loading] *)
Definition initial_loading (EDP : Q) : M Q :=
  volume <- compute_volume 0 EDP ;;
  results_u <- gets (fun w => split_u pulse (state (the_load w))) ;;
  modify (fun w =>
            let d := self w in
            mkWorld (mkDriver (load d) (deformation_gradient pulse results_u)
                              (E_ff d) (myocardial_work d) (t d)) (files w)) ;;
  ret volume.

(** [xdmf.write_checkpoint(f, name, time, HDF5, True)] on the file [fname]:
    the record is appended to the file, which is created when missing. *)
Definition write_checkpoint (fname : string * string) (f : Field) (nm : string) (tm : Q)
  : M unit :=
  modify (fun w =>
            mkWorld (self w)
                    (<[fname := default [] (files w !! fname) ++ [mkCheckpoint nm tm f]]>
                       (files w))).

(** [breakpoint()] *)
Definition breakpoint : M unit :=
  if debugger_continues pulse then ret tt else raise BdbQuit.

(** [save] (the projected displacement and the deformed mesh are built and
    dropped) *)
Definition save (time_index : Q) (outdir : string) : M unit :=
  let fname := (outdir, "results.xdmf") in
  results_u <- gets (fun w => split_u pulse (state (the_load w))) ;;
  write_checkpoint fname results_u "u" (time_index + 1)%Q ;;
  breakpoint ;;
  E_proj <- gets (fun w => project_green_strain pulse (F0 (self w)) results_u) ;;
  let fname := (outdir, "results_E.xdmf") in
  write_checkpoint fname E_proj "E" (time_index + 1)%Q ;;
  results_activation <-
    gets (fun w => activation_function pulse (activation (the_load w))) ;;
  let fname := (outdir, "activation.xdmf") in
  write_checkpoint fname results_activation "activation" (time_index + 1)%Q ;;
  modify (fun w =>
            let d := self w in
            mkWorld (mkDriver (load d) (F0 d) (E_ff d) (myocardial_work d) (S (t d)))
                    (files w)).

(** [__init__]: zero load, identity reference, empty records, and a first
    solve. *)
Definition new_driver : M unit :=
  modify (fun w =>
            mkWorld (mkDriver (mkLoad 0 0 (initial_state pulse)) (identity pulse) [] [] 0)
                    (files w)) ;;
  problem_solve.

End Driver.

End HeartModel.

(** ** heart_model.py: the continuation routine behind [compute_volume] *)

Module Continuation.
Import PyNum HeartModel.

Section LoadStepping.

Context {State Field Tensor : Type}.

(** Modelled from the spec: the sub-steps of [pulse.iterate.iterate], the
    continuation routine of the mechanics library, which is not part of
    the repository.  The control is advanced "incrementally" to a target
    "reachable via N equal sub-steps": [n - 1] equal increments from the
    current value, and the target itself as the last sub-step. *)
Definition load_steps (current target : Q) (n : nat) : list Q :=
  map (fun k =>
         current + inject_Z (Z.of_nat k) * ((target - current) / inject_Z (Z.of_nat n)))%Q
      (seq 1 (n - 1))
  ++ [target].

(** Modelled from the spec: the assignment of a sub-step value to the
    control that [pulse.iterate.iterate] was given. *)
Definition set_control (c : control) (v : Q) (l : @LoadState State) : LoadState :=
  match c with
  | Activation => mkLoad v (lv_pressure l) (state l)
  | Pressure => mkLoad (activation l) v (state l)
  end.

(** Modelled from the spec: [pulse.iterate.iterate] over its sub-steps,
    "re-solving the nonlinear boundary-value problem at each sub-step";
    "a failed sub-step is a fatal error for that call, not retried with a
    different step size automatically", so the first failed solve ends the
    continuation and the sub-steps after it are not attempted. *)
Fixpoint step_through (solve : Q -> Q -> State -> outcome State) (c : control)
    (steps : list Q) (l : @LoadState State) : outcome (@LoadState State) :=
  match steps with
  | [] => Converged l
  | v :: rest =>
      let l1 := set_control c v l in
      match solve (activation l1) (lv_pressure l1) (state l1) with
      | Converged s => step_through solve c rest (mkLoad (activation l1) (lv_pressure l1) s)
      | Diverged s => Diverged (mkLoad (activation l1) (lv_pressure l1) s)
      end
  end.

(** Modelled from the spec: [pulse.iterate.iterate(problem, control,
    target)] with [n] sub-steps. *)
Definition iterate_in_steps (n : nat) (solve : Q -> Q -> State -> outcome State)
    (c : control) (target : Q) (l : @LoadState State) : outcome (@LoadState State) :=
  step_through solve c (load_steps (control_value c l) target n) l.

(** The collaborators of the driver, with the continuation routine above
    running on their own solver. *)
Definition with_continuation (n : nat) (b : @Backend State Field Tensor)
  : @Backend State Field Tensor :=
  replace_iterate (iterate_in_steps n (solve b)) b.

(** The solver as the continuation of one control sees it: the control at
    a sub-step value, the other control held at [held]. *)
Definition solve_at (solve : Q -> Q -> State -> outcome State) (c : control)
    (held : Q) (v : Q) (s : State) : outcome State :=
  match c with
  | Activation => solve v held s
  | Pressure => solve held v s
  end.

(** The load with control [c] at [v] and the other control at [held]. *)
Definition load_of (c : control) (v held : Q) (s : State) : @LoadState State :=
  match c with
  | Activation => mkLoad v held s
  | Pressure => mkLoad held v s
  end.

Definition held_value (c : control) (l : @LoadState State) : Q :=
  match c with
  | Activation => lv_pressure l
  | Pressure => activation l
  end.

(** The solver converges at every value of [steps] in turn, each solve
    starting from the state the one before it left. *)
Inductive converges_through (f : Q -> State -> outcome State)
  : list Q -> State -> State -> Prop :=
| through_nil s : converges_through f [] s s
| through_cons v steps s s1 s' :
    f v s = Converged s1 -> converges_through f steps s1 s' ->
    converges_through f (v :: steps) s s'.

(** The solver converges at the values of [steps] before [v] and fails at
    [v], leaving the state [s']. *)
Definition fails_at (f : Q -> State -> outcome State) (steps : list Q)
    (s : State) (v : Q) (s' : State) : Prop :=
  exists before after s1,
    steps = before ++ v :: after /\
    converges_through f before s s1 /\
    f v s1 = Diverged s'.

End LoadStepping.

End Continuation.

(** ** heart_model.py: boundary conditions *)

Module BoundaryConditions.
Import PyNum.

(** [get_default_bc_params] *)
Definition get_default_bc_params : gmap string Q :=
  <["base_spring" := 0%Q]> (<["pericardium_spring" := 0%Q]> ∅).

(** [_get_bc_params]: the value stored in [self.bc_params]. *)
Definition _get_bc_params (bc_params : option (gmap string Q)) : gmap string Q :=
  let default_bc_params := get_default_bc_params in
  match bc_params with
  | Some d =>
      if negb (Nat.eqb (size d) 0)
      then map_imap (fun key dv => Some (default dv (d !! key))) default_bc_params
      else default_bc_params
  | None => default_bc_params
  end.

(** The marker table [create_geometry] attaches to the geometry: a marker
    and a topological dimension per region. *)
Definition geometry_markers : gmap string (list nat) :=
  <["EPI" := [7; 2]%nat]> (<["ENDO" := [6; 2]%nat]> (<["BASE" := [5; 2]%nat]> ∅)).

(** [markers[name][0]]: [KeyError] or [IndexError] when absent. *)
Definition marker_of (markers : gmap string (list nat)) (name : string) : option nat :=
  entry ← markers !! name; entry !! 0%nat.

(** [pulse.RobinBC(value=..., marker=...)] *)
Record RobinBC : Type := mkRobinBC {
  value : Q;
  marker : nat
}.

(** [x > 0.0] *)
Definition positive (x : Q) : bool := negb (Qle_bool x 0).

(** [_robin_bc]: the spring on the epicardium, then the spring on the base,
    each only when its stiffness is positive. *)
Definition _robin_bc (bc_params : gmap string Q) (markers : gmap string (list nat))
  : option (list RobinBC) :=
  pericardium_spring ← bc_params !! "pericardium_spring";
  robin_bc ←
    (if positive pericardium_spring
     then m ← marker_of markers "EPI"; Some [mkRobinBC pericardium_spring m]
     else Some []);
  base_spring ← bc_params !! "base_spring";
  if positive base_spring
  then m ← marker_of markers "BASE"; Some (robin_bc ++ [mkRobinBC base_spring m])
  else Some robin_bc.

End BoundaryConditions.

(** ** heart_model.py: values per anatomical segment *)

Module Segments.
Import PyNum HeartModel.

(** [len(set(cfun.array()))]: the number of distinct cell markers. *)
Definition num_segments (cfun : list nat) : nat :=
  size (list_to_set cfun : gset nat).

(** [np.where(cfun == m)[0]], written with the index of the first entry. *)
Fixpoint np_where_eq (cfun : list nat) (m : nat) (index : nat) : list nat :=
  match cfun with
  | [] => []
  | c :: rest =>
      if Nat.eqb c m then index :: np_where_eq rest m (S index)
      else np_where_eq rest m (S index)
  end.

(** [vector[indices]]: [IndexError] on an index out of range. *)
Definition vector_take (vector : list Q) (indices : list nat) : option (list Q) :=
  mapM (fun i => vector !! i) indices.

(** The loop over [range(num_segments)]: bucket [n] holds the values of the
    cells marked [n + 1]. *)
Definition segment_values (cfun : list nat) (vector : list Q) : option (list (list Q)) :=
  mapM (fun n => vector_take vector (np_where_eq cfun (n + 1) 0))
       (seq 0 (num_segments cfun)).

(** The values of the cells that carry the marker [m], in cell order. *)
Definition cells_marked (m : nat) (cfun : list nat) (vector : list Q) : list Q :=
  map snd (filter (fun p : nat * Q => fst p = m) (zip cfun vector)).

(** The markers the loop looks for: 1 up to the number of distinct markers. *)
Definition bucketed (cfun : list nat) (m : nat) : Prop :=
  (1 <= m <= num_segments cfun)%nat.

(** The exception of this part of the driver. *)
Inductive error : Type := IndexError.

Section Records.

Context {State Field Tensor Expr : Type}.

(** The cell markers of the geometry, the projection of the fiber strain
    relative to [F0] onto cell values, and the myocardial work as an
    expression and as projected cell values. *)
Variable cfun : list nat.
Variable fiber_strain : Tensor -> Field -> list Q.
Variable work_expression : Tensor -> Field -> Expr.
Variable work_values : Expr -> list Q.

(** [_compute_fiber_strain(u)]: one record is appended to [self.E_ff]; the
    projected strain is returned. *)
Definition _compute_fiber_strain (u : Field) (w : @World State Field Tensor)
  : @World State Field Tensor * (error + list Q) :=
  let d := self w in
  let Eff := fiber_strain (F0 d) u in
  match segment_values cfun Eff with
  | None => (w, inl IndexError)
  | Some E_ff_segment =>
      (mkWorld (mkDriver (load d) (F0 d) (E_ff d ++ [E_ff_segment])
                         (myocardial_work d) (t d)) (files w),
       inr Eff)
  end.

(** [_compute_myocardial_work(u)]: one record is appended to
    [self.myocardial_work]; the work expression is returned. *)
Definition _compute_myocardial_work (u : Field) (w : @World State Field Tensor)
  : @World State Field Tensor * (error + Expr) :=
  let d := self w in
  let myocardial_work := work_expression (F0 d) u in
  let myocardial_work_values := work_values myocardial_work in
  match segment_values cfun myocardial_work_values with
  | None => (w, inl IndexError)
  | Some myocardial_work_values_segment =>
      (mkWorld (mkDriver (load d) (F0 d) (E_ff d)
                         (HeartModel.myocardial_work d ++ [myocardial_work_values_segment])
                         (t d))
               (files w),
       inr myocardial_work)
  end.

End Records.

End Segments.

(** ** heart_model.py: a run of the time loop *)

Module TimeLoop.
Import PyNum HeartModel.

(** [for t in time_indices: model.save(t, outdir)]: one call of [save] per
    time index, in order; an exception ends the loop. *)
Definition save_each {State Field Tensor : Type} (pulse : @Backend State Field Tensor)
    (time_indices : list Q) (outdir : string) : @M State Field Tensor unit :=
  fold_right (fun time_index rest => bind (save pulse time_index outdir) (fun _ => rest))
             (ret tt) time_indices.

End TimeLoop.

(** ** pv_data.py *)

Module PVData.
Import PyNum.

(** A natural number as a float. *)
Definition Qnat (n : nat) : Q := inject_Z (Z.of_nat n).

(** [np.linspace(start, stop, num)]: [num] evenly spaced samples, the last
    one set to [stop] itself. *)
Definition linspace (start stop : Q) (num : nat) : list Q :=
  let div := (Qnat num - 1)%Q in
  let delta := (stop - start)%Q in
  let y := map Qnat (seq 0 num) in
  let y :=
    if Qle_bool div 0
    then map (fun v => v * delta + start)%Q y
    else map (fun v => v * (delta / div) + start)%Q y in
  if (1 <? num)%nat then firstn (num - 1) y ++ [stop] else y.

(** [np.searchsorted(xs, v)] on an ascending array: the number of entries
    below [v]. *)
Fixpoint searchsorted (xs : list Q) (v : Q) : nat :=
  match xs with
  | [] => 0
  | x :: rest => if Qle_bool v x then 0 else S (searchsorted rest v)
  end.

(** [ndarray.clip(lo, hi)] on one index. *)
Definition clip (lo hi n : nat) : nat := Nat.min (Nat.max n lo) hi.

(** Evaluation of a linear interpolant: the segment is the one around
    [x_new], or the first or last segment when [x_new] lies outside the
    samples (extrapolation). *)
Definition call_linear (xs ys : list Q) (x_new : Q) : Q :=
  let x_new_indices := clip 1 (length xs - 1) (searchsorted xs x_new) in
  let lo := (x_new_indices - 1)%nat in
  let hi := x_new_indices in
  let x_lo := nth lo xs 0%Q in
  let x_hi := nth hi xs 0%Q in
  let y_lo := nth lo ys 0%Q in
  let y_hi := nth hi ys 0%Q in
  let slope := ((y_hi - y_lo) / (x_hi - x_lo))%Q in
  (slope * (x_new - x_lo) + y_lo)%Q.

(** [interp1d(x, y, kind="linear", fill_value="extrapolate")]: a
    [ValueError] when the arrays differ in length or are empty.  With one
    sample the library builds the interpolant, but it has no segment and
    evaluating it gives NaN, which is no rational number: the model has no
    result there either, and the properties below are about arrays of at
    least two samples or about empty ones. *)
Definition interp1d (x y : list Q) : option (Q -> Q) :=
  if negb (length x =? length y)%nat then None
  else if (length x <? 2)%nat then None
  else Some (call_linear x y).

(** [np.add.reduce(rows, axis=0)]: the rows added up entry by entry. *)
Definition column_sums (rows : list (list Q)) : list Q :=
  match rows with
  | [] => []
  | first :: rest => fold_left (fun acc row => zip_with Qplus acc row) rest first
  end.

(** [np.mean(rows, axis=0)] *)
Definition np_mean_axis0 (rows : list (list Q)) : list Q :=
  map (fun s => s / Qnat (length rows))%Q (column_sums rows).

(** The number of samples of the common axis. *)
Definition num_samples : nat := 100.

(** [average_array(arrays)]; [max] of an empty sequence raises. *)
Definition average_array (arrays : list (list Q)) : option (list Q) :=
  match arrays with
  | [] => None
  | _ :: _ =>
      let max_length := list_max (map (@length Q) arrays) in
      let average_x := linspace 0 (Qnat max_length - 1) num_samples in
      interpolated_arrays ←
        mapM (fun array =>
                let x := linspace 0 (Qnat (length array) - 1) (length array) in
                f ← interp1d x array;
                Some (map f average_x))
             arrays;
      Some (np_mean_axis0 interpolated_arrays)
  end.

End PVData.

(** ** pv_data.py: the cardiac cycles, the slicing and the script *)

Module PVPipeline.
Import PyNum PVData.

(** [l[start:stop]] with non-negative bounds: bounds past the end are
    clamped, and the slice is empty when [stop <= start]. *)
Definition slice {A} (l : list A) (start stop : nat) : list A :=
  take (stop - start) (drop start l).

(** The piece of a trace between the peaks number [i] and [i + 1]. *)
Definition cycle (peaks : list nat) (l : list Q) (i : nat) : list Q :=
  slice l (nth i peaks 0%nat) (nth (S i) peaks 0%nat).

Section DividePVData.

(** [scipy.signal.find_peaks(pres, distance=150)[0]]: the indices of the
    peaks of the pressure trace, a library routine. *)
Variable find_peaks : list Q -> list nat.

(** [divide_pv_data(pres, vols)]; [peaks[i]] is an [IndexError] out of
    range. *)
Definition divide_pv_data (pres vols : list Q)
  : option (list (list Q) * list (list Q)) :=
  let peaks := find_peaks pres in
  let num_cycles := length peaks in
  fold_left
    (fun divided i =>
       '(pres_divided, vols_divided) ← divided;
       lo ← peaks !! i;
       hi ← peaks !! (i + 1)%nat;
       Some (pres_divided ++ [slice pres lo hi],
             vols_divided ++ [slice vols lo hi]))
    (seq 0 (num_cycles - 1))
    (Some ([], [])).

End DividePVData.

(** [np.max(l)] and [np.min(l)]: a [ValueError] on an empty array. *)
Definition np_max (l : list Q) : option Q :=
  match l with
  | [] => None
  | x :: rest => Some (fold_left (fun m y => if Qle_bool y m then m else y) rest x)
  end.

Definition np_min (l : list Q) : option Q :=
  match l with
  | [] => None
  | x :: rest => Some (fold_left (fun m y => if Qle_bool m y then m else y) rest x)
  end.

(** [xs + ys] on two one-dimensional arrays: entry by entry when the lengths
    agree, an array of one entry is stretched over the other one, and any
    other pair of lengths is a [ValueError]. *)
Definition broadcast (f : Q -> Q -> Q) (xs ys : list Q) : option (list Q) :=
  if (length xs =? length ys)%nat then Some (zip_with f xs ys)
  else match xs, ys with
       | [x], _ => Some (map (f x) ys)
       | _, [y] => Some (map (fun x => f x y) xs)
       | _, _ => None
       end.

(** [np.where(a == m)[0][0]]: the first index whose entry equals [m]; an
    [IndexError] when no entry does. *)
Fixpoint first_index_eq (m : Q) (a : list Q) : option nat :=
  match a with
  | [] => None
  | x :: rest => if Qeq_bool x m then Some 0%nat else S <$> first_index_eq m rest
  end.

Section SliceData.

(** [np.sqrt] on one entry. *)
Variable sqrt : Q -> Q.

(** [slice_data(pres, vols, offset)] for a non-negative [offset].

    A scale of zero is the one place where the floating-point behaviour is
    not that of exact arithmetic: the largest entry is zero, so every
    quotient is an infinity of one sign or a NaN, every difference with the
    first quotient is a NaN, and so is every distance; the comparison
    [dist == np.min(dist)] then holds nowhere and [[0][0]] raises (and
    [np.min] raises before it when [dist] is empty). *)
Definition slice_data (pres vols : list Q) (offset : nat)
  : option (list Q * list Q) :=
  pres_scale ← np_max pres;
  vols_scale ← np_max vols;
  if Qeq_bool pres_scale 0 || Qeq_bool vols_scale 0 then None else
  let pres := map (fun p => p / pres_scale)%Q pres in
  let vols := map (fun v => v / vols_scale)%Q vols in
  pres_0 ← pres !! 0%nat;
  vols_0 ← vols !! 0%nat;
  let dpres := map (fun p => p - pres_0)%Q pres in
  let dvols := map (fun v => v - vols_0)%Q vols in
  squares ← broadcast Qplus
               (map (fun d => d ^ 2)%Q (drop offset dpres))
               (map (fun d => d ^ 2)%Q (drop offset dvols));
  let dist := map sqrt squares in
  dist_min ← np_min dist;
  ind ← first_index_eq dist_min dist;
  let ind := (ind + offset)%nat in
  let pres := take ind pres in
  let vols := take ind vols in
  Some (map (fun p => p * pres_scale)%Q pres,
        map (fun v => v * vols_scale)%Q vols).

(** The distance of sample [j] from the first sample, both in the scaled
    pressure-volume plane. *)
Definition dist_to_start (pres vols : list Q) (pres_scale vols_scale : Q)
    (j : nat) : Q :=
  let p := fun i => (nth i pres 0 / pres_scale)%Q in
  let v := fun i => (nth i vols 0 / vols_scale)%Q in
  sqrt ((p j - p 0%nat) ^ 2 + (v j - v 0%nat) ^ 2)%Q.

(** The script (lines 94-102), from the two traces to the saved loop: the
    cycles, their averages, the slicing with [offset=50], and the rotation
    that starts the loop at the largest volume. *)
Definition ind_ED (v_average_sliced : list Q) : option nat :=
  v_max ← np_max v_average_sliced;
  first_index_eq v_max v_average_sliced.

Definition hstack (first second : list Q) : list Q := first ++ second.

Definition rotate_to_ED (p_average_sliced v_average_sliced : list Q)
  : option (list Q * list Q) :=
  ind_ED ← ind_ED v_average_sliced;
  let volumes := hstack (drop ind_ED v_average_sliced) (take ind_ED v_average_sliced) in
  let pressures := hstack (drop ind_ED p_average_sliced) (take ind_ED p_average_sliced) in
  Some (pressures, volumes).

Variable find_peaks : list Q -> list nat.

Definition script (pres vols : list Q) : option (list Q * list Q) :=
  '(pres_divided, vols_divided) ← divide_pv_data find_peaks pres vols;
  pres_average ← average_array pres_divided;
  vols_average ← average_array vols_divided;
  '(p_average_sliced, v_average_sliced) ← slice_data pres_average vols_average 50;
  rotate_to_ED p_average_sliced v_average_sliced.

End SliceData.

End PVPipeline.

(** ** organize_data.py: the name of a PV file *)

Module OrganizeData.

(** A Python string, as the list of its characters. *)
Definition str := list Ascii.ascii.

(** [s.rfind(sub)] for a [sub] of one character: the highest index at
    which it occurs, and [-1] when it does not occur. *)
Fixpoint rfind (sub : Ascii.ascii) (s : str) : Z :=
  match s with
  | [] => -1
  | c :: rest =>
      let found := rfind sub rest in
      if found =? -1
      then if Ascii.eqb c sub then 0 else -1
      else found + 1
  end.

(** A bound of a slice, as Python reads it: a negative bound counts from
    the end, and every bound is clamped to the string. *)
Definition bound (s : str) (i : Z) : nat :=
  let len := Z.of_nat (length s) in
  Z.to_nat (if i <? 0 then Z.max (i + len) 0 else Z.min i len).

(** [s[start:stop]] *)
Definition str_slice (s : str) (start stop : Z) : str :=
  take (bound s stop - bound s start) (drop (bound s start) s).

(** The character ['\\'] of the source, code 92. *)
Definition backslash : Ascii.ascii := Ascii.ascii_of_nat 92.

(** [get_PV_fname(PV_data)] *)
Definition get_PV_fname (PV_data : str) : option str :=
  let last_backslash_index := rfind backslash PV_data in
  if negb (last_backslash_index =? -1)
  then Some (str_slice PV_data (last_backslash_index + 1) (-7))
  else None.

End OrganizeData.

(** ** Concrete inputs used to exercise the definitions *)

Module Examples.
Import PyNum Geometry.

(** The vertices of the unit tetrahedron. *)
Definition tet_points : list point :=
  [ (0, 0, 0); (1, 0, 0); (0, 1, 0); (0, 0, 1) ]%Q.

(** The volumetric mesh of one tetrahedron: four facets, all exterior. *)
Definition tet_mesh : DolfinMesh :=
  mkDolfinMesh tet_points
    [ mkFacet true [1; 2; 3]%nat; mkFacet true [0; 2; 3]%nat;
      mkFacet true [0; 1; 3]%nat; mkFacet true [0; 1; 2]%nat ].

Definition one_group (indices : list nat) : gmap string (list nat) :=
  {[ "triangle" := indices ]}.

(** An input mesh whose cell blocks come in the order Epi, Endo, Base. *)
Definition msh_ordered : MeshioMesh :=
  mkMeshioMesh tet_points
    [ mkCellBlock "triangle" [[0; 1; 3]%nat];
      mkCellBlock "triangle" [[0; 1; 2]%nat];
      mkCellBlock "triangle" [[0; 2; 3]%nat];
      mkCellBlock "tetra" [[0; 1; 2; 3]%nat] ]
    (<["Epi" := one_group [0%nat]]>
       (<["Endo" := one_group [1%nat]]>
          (<["Base" := one_group [2%nat]]> ∅))).

(** The same surface groups, written to the file in the order Endo, Epi,
    Base. *)
Definition msh_swapped : MeshioMesh :=
  mkMeshioMesh tet_points
    [ mkCellBlock "triangle" [[0; 1; 2]%nat];
      mkCellBlock "triangle" [[0; 1; 3]%nat];
      mkCellBlock "triangle" [[0; 2; 3]%nat];
      mkCellBlock "tetra" [[0; 1; 2; 3]%nat] ]
    (<["Endo" := one_group [0%nat]]>
       (<["Epi" := one_group [1%nat]]>
          (<["Base" := one_group [2%nat]]> ∅))).

End Examples.

Module DriverExamples.
Import PyNum HeartModel.

(** A small mechanics problem for exercising the driver: the state is one
    number, the solver converges up to an activation of 10 and otherwise
    raises, leaving the state it started from. *)
Definition toy_solve (a p : Q) (s : Q) : outcome Q :=
  if Qle_bool a 10 then Converged (p - a)%Q else Diverged s.

(** The sub-steps of a continuation from [current] to [target]:
    [n] equal increments. *)
Definition sub_steps (current target : Q) (n : nat) : list Q :=
  map (fun k => current + inject_Z (Z.of_nat k) * ((target - current) / inject_Z (Z.of_nat n)))%Q
      (seq 1 n).

Definition assign_control (c : control) (v : Q) (l : @LoadState Q) : LoadState :=
  match c with
  | Activation => mkLoad v (lv_pressure l) (state l)
  | Pressure => mkLoad (activation l) v (state l)
  end.

(** Continuation over a list of sub-step values: the control is assigned
    and the problem solved at every sub-step; the first failed solve stops
    the continuation. *)
Fixpoint continuation (c : control) (steps : list Q) (l : @LoadState Q)
  : outcome (@LoadState Q) :=
  match steps with
  | [] => Converged l
  | v :: rest =>
      let l1 := assign_control c v l in
      match toy_solve (activation l1) (lv_pressure l1) (state l1) with
      | Converged s => continuation c rest (mkLoad (activation l1) (lv_pressure l1) s)
      | Diverged s => Diverged (mkLoad (activation l1) (lv_pressure l1) s)
      end
  end.

(** Four equal sub-steps, then the target itself. *)
Definition toy_iterate (c : control) (target : Q) (l : @LoadState Q)
  : outcome (@LoadState Q) :=
  continuation c (firstn 3 (sub_steps (control_value c l) target 4) ++ [target]) l.

Definition toy : @Backend Q Q Q :=
  mkBackend toy_solve toy_iterate
            (fun s => 100 + s)%Q
            (fun s => s)
            (fun u => 1 + u)%Q
            (fun F0 u => ((1 + u) / F0))%Q
            (fun a => a)
            1%Q 0%Q true.

(** The same problem run without a terminal: the debugger is quit at once. *)
Definition toy_batch : @Backend Q Q Q :=
  mkBackend toy_solve toy_iterate
            (fun s => 100 + s)%Q
            (fun s => s)
            (fun u => 1 + u)%Q
            (fun F0 u => ((1 + u) / F0))%Q
            (fun a => a)
            1%Q 0%Q false.

(** A problem whose solver never converges. *)
Definition toy_fails : @Backend Q Q Q :=
  mkBackend (fun _ _ s => Diverged s)
            (fun c target l => Diverged (assign_control c target l))
            (fun s => 100 + s)%Q
            (fun s => s)
            (fun u => 1 + u)%Q
            (fun F0 u => ((1 + u) / F0))%Q
            (fun a => a)
            1%Q 0%Q true.

(** A driver right after construction, with no checkpoint file yet. *)
Definition fresh : @World Q Q Q :=
  mkWorld (mkDriver (mkLoad 0%Q 0%Q 0%Q) 1%Q [] [] 0%nat) ∅.

End DriverExamples.

(** ** Concrete stand-ins for the library routines of pv_data.py *)

Module PVExamples.
Import PyNum PVData PVPipeline.

(** The indices of the strict local maxima of a trace: [find_peaks] without
    a distance constraint. *)
Fixpoint local_maxima (i : nat) (before : Q) (l : list Q) : list nat :=
  match l with
  | x :: ((y :: _) as rest) =>
      if Qlt_le_dec before x
      then if Qlt_le_dec y x
           then i :: local_maxima (S i) x rest
           else local_maxima (S i) x rest
      else local_maxima (S i) x rest
  | _ => []
  end.

Definition toy_find_peaks (pres : list Q) : list nat :=
  match pres with
  | [] => []
  | x :: rest => local_maxima 1 x rest
  end.

(** A square root that is exact on the squares of rationals. *)
Definition toy_sqrt (q : Q) : Q :=
  let q := Qred q in
  Z.sqrt (Qnum q) # Pos.sqrt (Qden q).

Definition toy_pres : list Q := [1; 3; 2; 1; 4; 2; 5; 1]%Q.
Definition toy_vols : list Q := [8; 6; 7; 9; 5; 7; 4; 9]%Q.

End PVExamples.

(** * Part II: properties *)

(** ** Rounding and integer conversion *)

Section PyNumTheory.
Import PyNum.

Lemma np_round_bounds (q : Q) :
  (q - (1 # 2) <= inject_Z (np_round q) <= q + (1 # 2))%Q.
Proof.
  unfold np_round.
  pose proof (Qfloor_le q) as Hlo.
  pose proof (Qlt_floor q) as Hhi.
  rewrite inject_Z_plus in Hhi. change (inject_Z 1) with 1%Q in Hhi.
  destruct (Qcompare (q - inject_Z (Qfloor q)) (1 # 2)) eqn:Hc.
  - apply Qeq_alt in Hc.
    destruct (Z.even (Qfloor q));
      rewrite ?inject_Z_plus; change (inject_Z 1) with 1%Q; split; lra.
  - apply Qlt_alt in Hc. split; lra.
  - apply Qgt_alt in Hc.
    rewrite inject_Z_plus; change (inject_Z 1) with 1%Q; split; lra.
Qed.

(** Two reals more than one unit apart never round to the same integer. *)
Lemma np_round_separates (x y : Q) :
  (x + 1 < y)%Q -> np_round x < np_round y.
Proof.
  intros Hxy.
  destruct (np_round_bounds x) as [_ Hx].
  destruct (np_round_bounds y) as [Hy _].
  assert (H : (inject_Z (np_round x) < inject_Z (np_round y))%Q) by lra.
  rewrite <- Zlt_Qlt in H. exact H.
Qed.

Lemma astype_int_in_range (z : Z) : in_int64 z = true -> astype_int z = z.
Proof. unfold astype_int. intros ->. reflexivity. Qed.

End PyNumTheory.

(** ** Properties of create_geometry.py *)

Section GeometryTheory.
Import PyNum Geometry Examples.

Lemma dom_default_fiber_angles : dom get_default_fiber_angles = fiber_angle_keys.
Proof.
  unfold get_default_fiber_angles, fiber_angle_keys.
  rewrite !dom_insert_L, dom_empty_L. set_solver.
Qed.

Lemma dict_get_empty (key : string) (fallback : Q) : dict_get ∅ key fallback = fallback.
Proof. unfold dict_get. rewrite lookup_empty. reflexivity. Qed.

Lemma lookup_get_fiber_angles (fiber_angles : option (gmap string Q)) (key : string) :
  get_fiber_angles fiber_angles !! key =
  (fun dv => dict_get (entries_of fiber_angles) key dv) <$> (get_default_fiber_angles !! key).
Proof.
  assert (Hdef : forall o : option Q, o = (fun dv => dict_get ∅ key dv) <$> o).
  { intros [dv|]; cbn; [rewrite dict_get_empty|]; reflexivity. }
  destruct fiber_angles as [d|]; unfold get_fiber_angles, entries_of; cbn [default from_option id].
  - cbn [truthy]. destruct (Nat.eqb (size d) 0) eqn:Hsz; cbn [negb].
    + apply Nat.eqb_eq, map_size_empty_iff in Hsz. subst d. apply Hdef.
    + rewrite map_lookup_imap.
      destruct (get_default_fiber_angles !! key); reflexivity.
  - apply Hdef.
Qed.

(** Sorting is a function of the multiset of the entries. *)
Lemma merge_sort_perm (l1 l2 : list Z) :
  Permutation l1 l2 -> merge_sort Z.le l1 = merge_sort Z.le l2.
Proof.
  intros Hp.
  apply (Sorted_unique Z.le).
  - apply Sorted_merge_sort; apply _.
  - apply Sorted_merge_sort; apply _.
  - rewrite !merge_sort_Permutation. exact Hp.
Qed.


Lemma np_sort_axis0_perm (a b : list (vec3 Z)) :
  Permutation a b -> np_sort_axis0 a = np_sort_axis0 b.
Proof.
  intros Hp. unfold np_sort_axis0, column.
  rewrite (merge_sort_perm _ _ (Permutation_map (component ax0) Hp)).
  rewrite (merge_sort_perm _ _ (Permutation_map (component ax1) Hp)).
  rewrite (merge_sort_perm _ _ (Permutation_map (component ax2) Hp)).
  reflexivity.
Qed.

Lemma triangle_key_perm (coords coords' : list point) (tol : Q) :
  Permutation coords coords' -> triangle_key coords tol = triangle_key coords' tol.
Proof.
  intros Hp. unfold triangle_key.
  f_equal. apply np_sort_axis0_perm.
  apply Permutation_map. exact Hp.
Qed.









(** *** The key on doubles *)






(** *** The annotation loop *)

Lemma np_take_in_range {A} (a : list A) (idx : list nat) :
  (forall v, v ∈ idx -> (v < length a)%nat) -> is_Some (np_take a idx).
Proof.
  intros Hidx. unfold np_take. apply mapM_is_Some.
  apply Forall_forall. intros v Hv. apply lookup_lt_is_Some, Hidx, Hv.
Qed.

Lemma mark_facet_length epi endo base key index (ffun : list nat) :
  length (mark_facet epi endo base key index ffun) = length ffun.
Proof.
  unfold mark_facet. repeat case_decide; rewrite ?length_insert; reflexivity.
Qed.

Lemma mark_facet_other epi endo base key index (ffun : list nat) (j : nat) :
  j <> index -> mark_facet epi endo base key index ffun !! j = ffun !! j.
Proof.
  intros Hne. unfold mark_facet.
  repeat case_decide; rewrite ?list_lookup_insert_ne by congruence; reflexivity.
Qed.

(** What one facet's entry becomes, by the position of its key in the
    lookup order. *)
Lemma mark_facet_at epi endo base key index (ffun : list nat) (old : nat) :
  ffun !! index = Some old ->
  (key ∈ epi -> mark_facet epi endo base key index ffun !! index = Some EPI) /\
  (key ∉ epi -> key ∈ endo ->
     mark_facet epi endo base key index ffun !! index = Some ENDO) /\
  (key ∉ epi -> key ∉ endo -> key ∈ base ->
     mark_facet epi endo base key index ffun !! index = Some BASE) /\
  (key ∉ epi -> key ∉ endo -> key ∉ base ->
     mark_facet epi endo base key index ffun !! index = Some old).
Proof.
  intros Hold.
  assert (Hlt : (index < length ffun)%nat) by (apply lookup_lt_is_Some; eauto).
  unfold mark_facet.
  repeat split; intros; repeat case_decide; try contradiction;
    rewrite ?list_lookup_insert_eq by exact Hlt; auto.
Qed.

Lemma mark_facet_congr epi endo base key index (f1 f2 : list nat) :
  length f1 = length f2 -> f1 !! index = f2 !! index ->
  mark_facet epi endo base key index f1 !! index
  = mark_facet epi endo base key index f2 !! index.
Proof.
  intros Hlen Hsame. unfold mark_facet.
  repeat case_decide; rewrite ?list_lookup_insert, ?Hlen; auto;
    rewrite Hsame; reflexivity.
Qed.

(** The loop invariant: entries outside the facets still to visit are kept,
    and an entry of a visited facet is what the loop body writes for it. *)
Lemma annotate_inv coords epi endo base (fcs : list Facet) :
  forall (index : nat) (ffun : list nat),
  (forall fc, fc ∈ fcs -> exterior fc = true ->
     forall v, v ∈ entities0 fc -> (v < length coords)%nat) ->
  exists ffun',
    annotate coords epi endo base fcs index ffun = Some ffun' /\
    length ffun' = length ffun /\
    (forall j, (j < index)%nat \/ (index + length fcs <= j)%nat ->
       ffun' !! j = ffun !! j) /\
    (forall j fc, fcs !! j = Some fc ->
       (exterior fc = false -> ffun' !! (index + j)%nat = ffun !! (index + j)%nat) /\
       (exterior fc = true ->
          exists coord, np_take coords (entities0 fc) = Some coord /\
            ffun' !! (index + j)%nat
            = mark_facet epi endo base (triangle_key coord default_tol)
                (index + j) ffun !! (index + j)%nat)).
Proof.
  induction fcs as [|fc rest IH]; intros index ffun Hwf.
  - exists ffun. cbn [annotate]. split; [reflexivity|]. split; [reflexivity|].
    split; [reflexivity|]. intros j fc Hj. discriminate.
  - assert (Hrest : forall fc', fc' ∈ rest -> exterior fc' = true ->
              forall v, v ∈ entities0 fc' -> (v < length coords)%nat).
    { intros fc' Hin. apply Hwf. right. exact Hin. }
    cbn [annotate]. destruct (exterior fc) eqn:Hext.
    + destruct (np_take_in_range coords (entities0 fc)) as [coord Hcoord].
      { apply Hwf; [left | exact Hext]. }
      rewrite Hcoord. cbn [mbind option_bind].
      set (key := triangle_key coord default_tol).
      destruct (IH (S index) (mark_facet epi endo base key index ffun) Hrest)
        as (ffun' & Hrun & Hlen & Hout & Hin).
      exists ffun'. split; [exact Hrun|].
      split; [rewrite Hlen; apply mark_facet_length|].
      split.
      * intros j Hj. cbn [length] in Hj.
        rewrite Hout by lia. apply mark_facet_other. lia.
      * intros [|j] fc' Hfc'; cbn in Hfc'.
        -- injection Hfc' as <-. rewrite Nat.add_0_r. split; [congruence|].
           intros _. exists coord. split; [exact Hcoord|].
           apply Hout. lia.
        -- replace (index + S j)%nat with (S index + j)%nat by lia.
           destruct (Hin j fc' Hfc') as [Hno Hyes]. split.
           ++ intros He. rewrite (Hno He). apply mark_facet_other. lia.
           ++ intros He. destruct (Hyes He) as (coord' & Hc' & Hval).
              exists coord'. split; [exact Hc'|]. rewrite Hval.
              apply mark_facet_congr; [apply mark_facet_length|].
              apply mark_facet_other. lia.
    + destruct (IH (S index) ffun Hrest) as (ffun' & Hrun & Hlen & Hout & Hin).
      exists ffun'. split; [exact Hrun|]. split; [exact Hlen|]. split.
      * intros j Hj. cbn [length] in Hj. apply Hout. lia.
      * intros [|j] fc' Hfc'; cbn in Hfc'.
        -- injection Hfc' as <-. rewrite Nat.add_0_r. split; [|congruence].
           intros _. apply Hout. lia.
        -- replace (index + S j)%nat with (S index + j)%nat by lia.
           apply Hin, Hfc'.
Qed.

Lemma facet_indices_valid_spec (mesh : DolfinMesh) :
  facet_indices_valid mesh = true ->
  forall fc, fc ∈ facets mesh -> exterior fc = true ->
  forall v, v ∈ entities0 fc -> (v < length (coordinates mesh))%nat.
Proof.
  unfold facet_indices_valid. intros Hall fc Hfc _ v Hv.
  rewrite forallb_forall in Hall.
  apply list_elem_of_In in Hfc. specialize (Hall fc Hfc).
  rewrite forallb_forall in Hall.
  apply list_elem_of_In in Hv. apply Nat.ltb_lt, Hall, Hv.
Qed.

Lemma new_ffun_lookup (mesh : DolfinMesh) (i : nat) (fc : Facet) :
  facets mesh !! i = Some fc -> new_ffun mesh !! i = Some 0%nat.
Proof.
  intros Hi. unfold new_ffun. apply lookup_replicate. split; [reflexivity|].
  apply lookup_lt_is_Some. eauto.
Qed.

(** C4: the facets are tagged by the first key set, in the order Epi, Endo,
    Base, that holds the facet's key.  On a mesh whose facets refer to
    existing vertices the annotation loop runs to completion, and for every
    facet: one that is not exterior keeps marker 0; an exterior one gets the
    marker 7, 6 or 5 of the first of the Epi, Endo and Base key sets that
    contains its key, and keeps 0 when none does.  The three markers are
    distinct and nonzero, and a facet carries the marker of a group only if
    the key set of that group contains its key. *)
Theorem annotate_first_match
    (mesh : DolfinMesh) (epi_keys endo_keys base_keys : gset face_key) :
  facet_indices_valid mesh = true ->
  exists ffun,
    annotate (coordinates mesh) epi_keys endo_keys base_keys (facets mesh) 0
      (new_ffun mesh) = Some ffun /\
    length ffun = length (facets mesh) /\
    (EPI <> ENDO /\ ENDO <> BASE /\ EPI <> BASE /\
     EPI <> 0%nat /\ ENDO <> 0%nat /\ BASE <> 0%nat) /\
    forall i fc, facets mesh !! i = Some fc ->
      (exterior fc = false -> ffun !! i = Some 0%nat) /\
      (exterior fc = true ->
         exists coord,
           np_take (coordinates mesh) (entities0 fc) = Some coord /\
           let key := triangle_key coord default_tol in
           (key ∈ epi_keys -> ffun !! i = Some EPI) /\
           (key ∉ epi_keys -> key ∈ endo_keys -> ffun !! i = Some ENDO) /\
           (key ∉ epi_keys -> key ∉ endo_keys -> key ∈ base_keys ->
              ffun !! i = Some BASE) /\
           (key ∉ epi_keys -> key ∉ endo_keys -> key ∉ base_keys ->
              ffun !! i = Some 0%nat) /\
           (ffun !! i = Some EPI -> key ∈ epi_keys) /\
           (ffun !! i = Some ENDO -> key ∈ endo_keys) /\
           (ffun !! i = Some BASE -> key ∈ base_keys)).
Proof.
  intros Hvalid.
  destruct (annotate_inv (coordinates mesh) epi_keys endo_keys base_keys
              (facets mesh) 0 (new_ffun mesh)
              (facet_indices_valid_spec mesh Hvalid))
    as (ffun & Hrun & Hlen & _ & Hin).
  exists ffun. split; [exact Hrun|].
  split; [rewrite Hlen; apply length_replicate|].
  split; [unfold EPI, ENDO, BASE; repeat split; discriminate|].
  intros i fc Hfc.
  destruct (Hin i fc Hfc) as [Hno Hyes]. cbn [Nat.add] in Hno, Hyes.
  pose proof (new_ffun_lookup mesh i fc Hfc) as Hzero.
  split.
  - intros He. rewrite (Hno He). exact Hzero.
  - intros He. destruct (Hyes He) as (coord & Hcoord & Hval).
    exists coord. split; [exact Hcoord|]. cbn zeta.
    destruct (mark_facet_at epi_keys endo_keys base_keys
                (triangle_key coord default_tol) i (new_ffun mesh) 0%nat Hzero)
      as (Hepi & Hendo & Hbase & Hnone).
    rewrite Hval.
    destruct (decide (triangle_key coord default_tol ∈ epi_keys)) as [He1|He1];
    [|destruct (decide (triangle_key coord default_tol ∈ endo_keys)) as [He2|He2];
      [|destruct (decide (triangle_key coord default_tol ∈ base_keys)) as [He3|He3]]].
    + rewrite (Hepi He1). unfold EPI, ENDO, BASE.
      repeat split; intros; try contradiction; try discriminate; auto.
    + rewrite (Hendo He1 He2). unfold EPI, ENDO, BASE.
      repeat split; intros; try contradiction; try discriminate; auto.
    + rewrite (Hbase He1 He2 He3). unfold EPI, ENDO, BASE.
      repeat split; intros; try contradiction; try discriminate; auto.
    + rewrite (Hnone He1 He2 He3). unfold EPI, ENDO, BASE.
      repeat split; intros; try contradiction; try discriminate; auto.
Qed.

(** The loop on the one-tetrahedron mesh, with the key sets of the input
    whose blocks are in the order Epi, Endo, Base. *)
Lemma annotate_first_match_witness :
  exists ffun,
    annotate (coordinates tet_mesh)
      {[ triangle_key [ (0, 0, 0); (1, 0, 0); (0, 0, 1) ]%Q default_tol ]}
      {[ triangle_key [ (0, 0, 0); (1, 0, 0); (0, 1, 0) ]%Q default_tol ]}
      {[ triangle_key [ (0, 0, 0); (0, 1, 0); (0, 0, 1) ]%Q default_tol ]}
      (facets tet_mesh) 0 (new_ffun tet_mesh) = Some ffun /\
    length ffun = 4%nat.
Proof.
  destruct (annotate_first_match tet_mesh
              {[ triangle_key [ (0, 0, 0); (1, 0, 0); (0, 0, 1) ]%Q default_tol ]}
              {[ triangle_key [ (0, 0, 0); (1, 0, 0); (0, 1, 0) ]%Q default_tol ]}
              {[ triangle_key [ (0, 0, 0); (0, 1, 0); (0, 0, 1) ]%Q default_tol ]}
              eq_refl)
    as (ffun & Hrun & Hlen & _).
  exists ffun. split; [exact Hrun | exact Hlen].
Defined.

Example annotate_tet_ordered :
  create_geometry_ffun (fun _ _ => tet_mesh) msh_ordered
  = Some [0; BASE; EPI; ENDO]%nat.
Proof. vm_compute. reflexivity. Qed.

(** [create_geometry] tags with the key sets of [face_key_sets]: whenever it
    returns a marker function, that function is the result of the
    annotation loop on the mesh read back, started from the all-zero
    markers. *)
Lemma create_geometry_ffun_annotates
    (read_mesh : list point -> list (list nat) -> DolfinMesh)
    (msh : MeshioMesh) (ffun : list nat) :
  create_geometry_ffun read_mesh msh = Some ffun ->
  exists tetra_index tetra_block epi_keys endo_keys base_keys,
    first_block_of_type "tetra" (cells msh) = Some tetra_index /\
    cells msh !! tetra_index = Some tetra_block /\
    face_key_sets msh = Some (epi_keys, endo_keys, base_keys) /\
    let mesh := read_mesh (points msh) (data tetra_block) in
    annotate (coordinates mesh) epi_keys endo_keys base_keys (facets mesh) 0
      (new_ffun mesh) = Some ffun.
Proof.
  unfold create_geometry_ffun. intros H.
  destruct (named_triangles msh "Epi"); [|discriminate]. cbn in H.
  destruct (named_triangles msh "Endo"); [|discriminate]. cbn in H.
  destruct (named_triangles msh "Base"); [|discriminate]. cbn in H.
  destruct (first_block_of_type "tetra" (cells msh)) as [ti|]; [|discriminate].
  cbn in H.
  destruct (cells msh !! ti) as [tb|] eqn:Htb; [|discriminate]. cbn in H.
  destruct (first_block_of_type "triangle" (cells msh)) as [tri|]; [|discriminate].
  cbn in H.
  destruct (cells msh !! tri) as [trb|]; [|discriminate]. cbn in H.
  destruct (face_key_sets msh) as [[[e n] b]|]; [|discriminate]. cbn in H.
  exists ti, tb, e, n, b. auto.
Qed.

(** *** Stability of the key *)




(** The rounded quotients of the five coordinates above. *)
Example binary64_quantize_values :
  map (Binary64.quantize Binary64.default_tol)
      [Binary64.c_0_4; Binary64.c_0_6; Binary64.c_2_5; Binary64.c_3_5; Binary64.c_4_5]
  = [0; 1; 3; 4; 4].
Proof. vm_compute. reflexivity. Qed.

(** Every column is sorted on its own, so two different triangles whose
    rounded coordinates agree column by column have one key. *)
Example binary64_key_of_two_triangles :
  ~ Permutation Binary64.face_diag Binary64.face_split /\
  Binary64.triangle_key Binary64.face_split Binary64.default_tol
  = Binary64.triangle_key Binary64.face_diag Binary64.default_tol.
Proof.
  split.
  - intros Hp.
    assert (Hin : (1, 1, 0)%float ∈ Binary64.face_split).
    { rewrite <- Hp. right. left. }
    unfold Binary64.face_split in Hin.
    repeat (apply elem_of_cons in Hin as [Hin|Hin]; [vm_compute in Hin; discriminate Hin|]).
    apply elem_of_nil in Hin. exact Hin.
  - vm_compute. reflexivity.
Qed.

(** *** Which faces the key sets are built from *)

(** When the first three cell blocks are the Epi, Endo and Base groups, in
    this order, the key sets are those of the named groups. *)
Lemma face_key_sets_of_ordered_blocks (msh : MeshioMesh) (b0 b1 b2 : CellBlock)
    (rest : list CellBlock) (epi_keys endo_keys base_keys : gset face_key) :
  cells msh = b0 :: b1 :: b2 :: rest ->
  named_group_faces msh "Epi" = Some (data b0) ->
  named_group_faces msh "Endo" = Some (data b1) ->
  named_group_faces msh "Base" = Some (data b2) ->
  face_key_sets msh = Some (epi_keys, endo_keys, base_keys) ->
  named_group_keys msh "Epi" = Some epi_keys /\
  named_group_keys msh "Endo" = Some endo_keys /\
  named_group_keys msh "Base" = Some base_keys.
Proof.
  intros Hcells He Hn Hb. unfold face_key_sets, named_group_keys.
  rewrite Hcells, He, Hn, Hb. cbn.
  destruct (build_face_keys (data b0) (points msh) default_tol) as [e|]; [|discriminate].
  destruct (build_face_keys (data b1) (points msh) default_tol) as [n|]; [|discriminate].
  destruct (build_face_keys (data b2) (points msh) default_tol) as [b|]; [|discriminate].
  cbn. intros H. injection H as <- <- <-. auto.
Qed.

(** C5 on an input whose blocks are written in the order Endo, Epi, Base:
    the key set used for the Epi lookup is the key set of the Endo group and
    the other way round, so the Endo face is tagged 7 and the Epi face 6,
    while the same groups written in the order Epi, Endo, Base are tagged
    as named. *)
Theorem face_key_sets_follow_block_order :
  exists epi_keys endo_keys base_keys,
    face_key_sets msh_swapped = Some (epi_keys, endo_keys, base_keys) /\
    named_group_keys msh_swapped "Epi" = Some endo_keys /\
    named_group_keys msh_swapped "Endo" = Some epi_keys /\
    named_group_keys msh_swapped "Base" = Some base_keys /\
    epi_keys <> endo_keys /\
    create_geometry_ffun (fun _ _ => tet_mesh) msh_swapped
    = Some [0; BASE; ENDO; EPI]%nat /\
    create_geometry_ffun (fun _ _ => tet_mesh) msh_ordered
    = Some [0; BASE; EPI; ENDO]%nat.
Proof.
  eexists. eexists. eexists.
  split; [vm_compute; reflexivity|].
  split; [vm_compute; reflexivity|].
  split; [vm_compute; reflexivity|].
  split; [vm_compute; reflexivity|].
  split; [|split; vm_compute; reflexivity].
  intros Heq.
  apply (f_equal (fun keys : gset face_key =>
                    bool_decide ([0; 0; 0; 0; 0; 0; 1000000; 1000000; 0] ∈ keys)))
    in Heq.
  vm_compute in Heq. discriminate Heq.
Qed.

(** *** Fiber angles *)

(** C10: for every argument, [None] and the empty dictionary included,
    [get_fiber_angles] returns a dictionary whose keys are exactly the four
    angle names; the value at a key is the caller's value when the caller's
    dictionary has the key and the default (60, -60, -15, 15) otherwise;
    other keys of the caller are dropped; the empty dictionary gives the
    same result as [None]; and the method of the driver class is the same
    function. *)
Theorem get_fiber_angles_merges_defaults (fiber_angles : option (gmap string Q)) :
  dom (get_fiber_angles fiber_angles) = fiber_angle_keys /\
  (get_default_fiber_angles !! "alpha_endo_lv" = Some 60%Q /\
   get_default_fiber_angles !! "alpha_epi_lv" = Some (-60)%Q /\
   get_default_fiber_angles !! "beta_endo_lv" = Some (-15)%Q /\
   get_default_fiber_angles !! "beta_epi_lv" = Some 15%Q) /\
  (forall key dv,
     get_default_fiber_angles !! key = Some dv ->
     (forall v, entries_of fiber_angles !! key = Some v ->
                get_fiber_angles fiber_angles !! key = Some v) /\
     (entries_of fiber_angles !! key = None ->
      get_fiber_angles fiber_angles !! key = Some dv)) /\
  (forall key, key ∉ fiber_angle_keys -> get_fiber_angles fiber_angles !! key = None) /\
  get_fiber_angles (Some ∅) = get_fiber_angles None /\
  get_fiber_angles None = get_default_fiber_angles /\
  HeartModel.get_fiber_angles fiber_angles = get_fiber_angles fiber_angles.
Proof.
  assert (Hdom : dom (get_fiber_angles fiber_angles) = fiber_angle_keys).
  { rewrite <- dom_default_fiber_angles. apply set_eq. intros key.
    rewrite !elem_of_dom, lookup_get_fiber_angles.
    destruct (get_default_fiber_angles !! key); cbn; split; intros [x Hx]; eauto;
      discriminate. }
  split; [exact Hdom|].
  split; [repeat split|].
  split; [|split; [|split; [|split]]].
  - intros key dv Hdv. rewrite lookup_get_fiber_angles, Hdv. cbn. unfold dict_get.
    split.
    + intros v ->. reflexivity.
    + intros ->. reflexivity.
  - intros key Hkey. apply not_elem_of_dom. rewrite Hdom. exact Hkey.
  - reflexivity.
  - reflexivity.
  - destruct fiber_angles as [d|]; reflexivity.
Qed.

Example get_fiber_angles_partial :
  get_fiber_angles (Some {[ "alpha_endo_lv" := 30%Q; "gamma" := 1%Q ]})
  = <["alpha_endo_lv" := 30%Q]> get_default_fiber_angles.
Proof. vm_compute. reflexivity. Qed.

End GeometryTheory.

(** ** Properties of heart_model.py *)

Section HeartTheory.
Import PyNum HeartModel Continuation DriverExamples.

Context {State Field Tensor : Type}.
Implicit Types pulse : @Backend State Field Tensor.

Lemma with_load_same (w : @World State Field Tensor) :
  with_load (fun _ => the_load w) w = w.
Proof. destruct w as [[l f e m n] fs]. reflexivity. Qed.

Lemma with_load_twice (f g : @LoadState State -> LoadState) (w : @World State Field Tensor) :
  with_load g (with_load f w) = with_load (fun l => g (f l)) w.
Proof. destruct w as [[l f0 e m n] fs]. reflexivity. Qed.

Lemma the_load_with_load (f : @LoadState State -> LoadState) (w : @World State Field Tensor) :
  the_load (with_load f w) = f (the_load w).
Proof. destruct w as [[l f0 e m n] fs]. reflexivity. Qed.

(** *** compute_volume *)

(** The run of [compute_volume], case by case on the two continuations. *)
Lemma compute_volume_run pulse (a p : Q) (w : World) :
  compute_volume pulse a p w =
  match iterate pulse Activation a (the_load w) with
  | Diverged l1 => (with_load (fun _ => l1) w, inl SolverDidNotConverge)
  | Converged l1 =>
      match iterate pulse Pressure p l1 with
      | Diverged l2 => (with_load (fun _ => l2) w, inl SolverDidNotConverge)
      | Converged l2 =>
          (with_load (fun _ => l2) w, inr (cavity_volume pulse (state l2)))
      end
  end.
Proof.
  unfold compute_volume, bind, pulse_iterate, get_volume, gets, ret.
  destruct (iterate pulse Activation a (the_load w)) as [l1|l1]; [|reflexivity].
  rewrite the_load_with_load.
  destruct (iterate pulse Pressure p l1) as [l2|l2];
    rewrite with_load_twice, ?the_load_with_load; reflexivity.
Qed.

(** *** dVda *)

(** The run of [dVda], case by case on the two solves and the division. *)
Lemma dVda_run pulse (a p delta : Q) (w : World) :
  dVda pulse a p delta w =
  match solve pulse a p (state (the_load w)) with
  | Diverged s1 => (with_load (fun _ => mkLoad a p s1) w, inl SolverDidNotConverge)
  | Converged s1 =>
      match solve pulse (a * (1 + delta))%Q p s1 with
      | Diverged s2 =>
          (with_load (fun _ => mkLoad (a * (1 + delta))%Q p s2) w,
           inl SolverDidNotConverge)
      | Converged s2 =>
          match py_div (cavity_volume pulse s2 - cavity_volume pulse s1)%Q
                       (a * delta)%Q with
          | None =>
              (with_load (fun _ => mkLoad (a * (1 + delta))%Q p s2) w,
               inl ZeroDivisionError)
          | Some q => (w, inr q)
          end
      end
  end.
Proof.
  destruct w as [[[a0 p0 s0] f e m n] fs].
  unfold dVda, assign_state_variables, get_volume, divide, bind, gets,
    assign_lv_pressure, assign_activation, assign_state, modify, problem_solve,
    ret, raise, the_load, with_load.
  cbn [self load files activation lv_pressure state F0 E_ff myocardial_work t fst snd].
  destruct (solve pulse a p s0) as [s1|s1]; [|reflexivity].
  cbn [self load files activation lv_pressure state F0 E_ff myocardial_work t fst snd].
  destruct (solve pulse (a * (1 + delta))%Q p s1) as [s2|s2]; [|reflexivity].
  cbn [self load files activation lv_pressure state F0 E_ff myocardial_work t fst snd].
  destruct (py_div (cavity_volume pulse s2 - cavity_volume pulse s1) (a * delta));
    reflexivity.
Qed.

(** *** The continuation routine *)

Lemma load_of_load (c : control) (l : @LoadState State) :
  load_of c (control_value c l) (held_value c l) (state l) = l.
Proof. destruct l, c; reflexivity. Qed.

Lemma length_load_steps (current target : Q) (n : nat) :
  length (load_steps current target n) = Nat.max n 1.
Proof.
  unfold load_steps. rewrite length_app, length_map, length_seq. cbn [length]. lia.
Qed.

Lemma last_load_steps (current target : Q) (n : nat) :
  last (load_steps current target n) = Some target.
Proof. unfold load_steps. apply last_snoc. Qed.

Lemma lookup_load_steps (current target : Q) (n k : nat) :
  (S k < n)%nat ->
  load_steps current target n !! k
  = Some (current + inject_Z (Z.of_nat (S k)) * ((target - current) / inject_Z (Z.of_nat n)))%Q.
Proof.
  intros Hk. unfold load_steps.
  rewrite lookup_app_l by (rewrite length_map, length_seq; lia).
  rewrite list_lookup_fmap, lookup_seq_lt by lia. reflexivity.
Qed.

(** Sub-steps at which the solver converges: the continuation converges,
    with the control at the last sub-step. *)
Lemma step_through_converges (solve : Q -> Q -> State -> outcome State) (c : control)
    (held : Q) (steps : list Q) (s s' : State) :
  converges_through (solve_at solve c held) steps s s' ->
  forall v0,
  step_through solve c steps (load_of c v0 held s)
  = Converged (load_of c (default v0 (last steps)) held s').
Proof.
  induction 1 as [s|v steps s s1 s' Hsolve _ IH]; intros v0; [reflexivity|].
  cbn [step_through].
  assert (Hrun : solve (activation (set_control c v (load_of c v0 held s)))
                       (lv_pressure (set_control c v (load_of c v0 held s)))
                       (state (set_control c v (load_of c v0 held s)))
                 = Converged s1).
  { destruct c; exact Hsolve. }
  rewrite Hrun.
  replace (mkLoad (activation (set_control c v (load_of c v0 held s)))
                  (lv_pressure (set_control c v (load_of c v0 held s))) s1)
    with (load_of c v held s1) by (destruct c; reflexivity).
  rewrite IH, last_cons. destruct (last steps); reflexivity.
Qed.

(** A sub-step at which the solver fails: the continuation fails there,
    with the control at that sub-step. *)
Lemma step_through_fails (solve : Q -> Q -> State -> outcome State) (c : control)
    (held : Q) (before after : list Q) (v : Q) (s s1 s' : State) :
  converges_through (solve_at solve c held) before s s1 ->
  solve_at solve c held v s1 = Diverged s' ->
  forall v0,
  step_through solve c (before ++ v :: after) (load_of c v0 held s)
  = Diverged (load_of c v held s').
Proof.
  intros Hbefore Hfail.
  induction Hbefore as [s|u steps s s1 s2 Hsolve _ IH]; intros v0; cbn [app step_through].
  - assert (Hrun : solve (activation (set_control c v (load_of c v0 held s)))
                         (lv_pressure (set_control c v (load_of c v0 held s)))
                         (state (set_control c v (load_of c v0 held s)))
                   = Diverged s').
    { destruct c; exact Hfail. }
    rewrite Hrun. destruct c; reflexivity.
  - assert (Hrun : solve (activation (set_control c u (load_of c v0 held s)))
                         (lv_pressure (set_control c u (load_of c v0 held s)))
                         (state (set_control c u (load_of c v0 held s)))
                   = Converged s1).
    { destruct c; exact Hsolve. }
    rewrite Hrun.
    replace (mkLoad (activation (set_control c u (load_of c v0 held s)))
                    (lv_pressure (set_control c u (load_of c v0 held s))) s1)
      with (load_of c u held s1) by (destruct c; reflexivity).
    apply IH, Hfail.
Qed.

(** Along any list of sub-steps the solver either converges throughout or
    fails at one of them. *)
Lemma converges_or_fails (f : Q -> State -> outcome State) (steps : list Q) :
  forall s,
  (exists s', converges_through f steps s s') \/
  (exists v s', fails_at f steps s v s').
Proof.
  induction steps as [|v steps IH]; intros s.
  - left. exists s. constructor.
  - destruct (f v s) as [s1|s1] eqn:Hsolve.
    + destruct (IH s1) as [(s' & Hconv)|(u & s' & before & after & s2 & -> & Hconv & Hfail)].
      * left. exists s'. econstructor; eassumption.
      * right. exists u, s', (v :: before), after, s2.
        split; [reflexivity|]. split; [econstructor; eassumption|exact Hfail].
    + right. exists v, s1, [], steps, s.
      split; [reflexivity|]. split; [constructor|exact Hsolve].
Qed.

(** The run of the continuation routine, case by case. *)
Lemma iterate_in_steps_converges (solve : Q -> Q -> State -> outcome State) (n : nat)
    (c : control) (target : Q) (l : @LoadState State) (s' : State) :
  converges_through (solve_at solve c (held_value c l))
                    (load_steps (control_value c l) target n) (state l) s' ->
  iterate_in_steps n solve c target l = Converged (load_of c target (held_value c l) s').
Proof.
  intros Hconv. unfold iterate_in_steps.
  rewrite <- (load_of_load c l) at 2.
  rewrite (step_through_converges _ _ _ _ _ _ Hconv), last_load_steps. reflexivity.
Qed.

Lemma iterate_in_steps_fails (solve : Q -> Q -> State -> outcome State) (n : nat)
    (c : control) (target : Q) (l : @LoadState State) (v : Q) (s' : State) :
  fails_at (solve_at solve c (held_value c l))
           (load_steps (control_value c l) target n) (state l) v s' ->
  iterate_in_steps n solve c target l = Diverged (load_of c v (held_value c l) s').
Proof.
  intros (before & after & s1 & Hsplit & Hconv & Hfail). unfold iterate_in_steps.
  rewrite Hsplit. rewrite <- (load_of_load c l) at 1.
  apply (step_through_fails _ _ _ _ _ _ _ _ _ Hconv Hfail).
Qed.

(** The continuation routine honours the contract the driver relies on: it
    ends at its target, and it leaves the other control alone. *)
Lemma continuation_reaches_target pulse (n : nat) :
  iterate_reaches_target (with_continuation n pulse).
Proof.
  intros c target l l'. cbn [iterate with_continuation replace_iterate].
  destruct (converges_or_fails (solve_at (solve pulse) c (held_value c l))
              (load_steps (control_value c l) target n) (state l))
    as [(s' & Hconv)|(v & s' & Hfail)].
  - rewrite (iterate_in_steps_converges _ _ _ _ _ _ Hconv). split.
    + intros [= <-]. destruct c; reflexivity.
    + intros [[= <-]|H]; [destruct c; reflexivity|discriminate].
  - rewrite (iterate_in_steps_fails _ _ _ _ _ _ _ Hfail). split.
    + discriminate.
    + intros [H|[= <-]]; [discriminate|destruct c; reflexivity].
Qed.

(** C3: [compute_volume] with the continuation routine of the library in
    [n] sub-steps.  The activation is advanced first, through its
    sub-steps and with the pressure still at its old value, and only then
    the pressure, through its own sub-steps and with the activation at its
    target; the sub-steps are [n - 1] equal increments and then the target.
    The call returns exactly when the solver converges at every sub-step of
    both continuations, each solve starting from the state the one before
    left: it then ends at the two targets and returns the cavity volume of
    the state of the last solve.  It raises exactly when a sub-step fails:
    the sub-steps after it, and the pressure continuation after a failed
    activation continuation, are not attempted, and no volume is
    returned. *)
Theorem compute_volume_activation_then_pressure pulse (n : nat) (a p : Q)
    (w : @World State Field Tensor) :
  let l := the_load w in
  let activations := load_steps (activation l) a n in
  let pressures := load_steps (lv_pressure l) p n in
  let solve_activation := solve_at (solve pulse) Activation (lv_pressure l) in
  let solve_pressure := solve_at (solve pulse) Pressure a in
  (length activations = Nat.max n 1 /\ last activations = Some a /\
   length pressures = Nat.max n 1 /\ last pressures = Some p /\
   forall k, (S k < n)%nat ->
     activations !! k
     = Some (activation l
             + inject_Z (Z.of_nat (S k)) * ((a - activation l) / inject_Z (Z.of_nat n)))%Q /\
     pressures !! k
     = Some (lv_pressure l
             + inject_Z (Z.of_nat (S k)) * ((p - lv_pressure l) / inject_Z (Z.of_nat n)))%Q) /\
  (forall v w',
     compute_volume (with_continuation n pulse) a p w = (w', inr v) <->
     exists s1 s2,
       converges_through solve_activation activations (state l) s1 /\
       converges_through solve_pressure pressures s1 s2 /\
       w' = with_load (fun _ => mkLoad a p s2) w /\
       v = cavity_volume pulse s2) /\
  (forall e w',
     compute_volume (with_continuation n pulse) a p w = (w', inl e) <->
     e = SolverDidNotConverge /\
     ((exists v s,
         fails_at solve_activation activations (state l) v s /\
         w' = with_load (fun _ => mkLoad v (lv_pressure l) s) w) \/
      (exists s1 v s,
         converges_through solve_activation activations (state l) s1 /\
         fails_at solve_pressure pressures s1 v s /\
         w' = with_load (fun _ => mkLoad a v s) w))).
Proof.
  intros l activations pressures solve_activation solve_pressure.
  split.
  { split; [apply length_load_steps|]. split; [apply last_load_steps|].
    split; [apply length_load_steps|]. split; [apply last_load_steps|].
    intros k Hk. split; apply lookup_load_steps, Hk. }
  assert (Hfirst : forall s1,
            converges_through solve_activation activations (state l) s1 ->
            iterate (with_continuation n pulse) Activation a l
            = Converged (mkLoad a (lv_pressure l) s1)).
  { intros s1 H. apply (iterate_in_steps_converges (solve pulse) n Activation a l s1 H). }
  assert (Hfirst' : forall v s,
            fails_at solve_activation activations (state l) v s ->
            iterate (with_continuation n pulse) Activation a l
            = Diverged (mkLoad v (lv_pressure l) s)).
  { intros v s H. apply (iterate_in_steps_fails (solve pulse) n Activation a l v s H). }
  assert (Hsecond : forall s1 s2,
            converges_through solve_pressure pressures s1 s2 ->
            iterate (with_continuation n pulse) Pressure p (mkLoad a (lv_pressure l) s1)
            = Converged (mkLoad a p s2)).
  { intros s1 s2 H.
    apply (iterate_in_steps_converges (solve pulse) n Pressure p
             (mkLoad a (lv_pressure l) s1) s2 H). }
  assert (Hsecond' : forall s1 v s,
            fails_at solve_pressure pressures s1 v s ->
            iterate (with_continuation n pulse) Pressure p (mkLoad a (lv_pressure l) s1)
            = Diverged (mkLoad a v s)).
  { intros s1 v s H.
    apply (iterate_in_steps_fails (solve pulse) n Pressure p
             (mkLoad a (lv_pressure l) s1) v s H). }
  pose proof (compute_volume_run (with_continuation n pulse) a p w) as Hrun.
  fold l in Hrun.
  change (cavity_volume (with_continuation n pulse)) with (cavity_volume pulse) in Hrun.
  split.
  - intros v w'. split.
    + intros Hret. rewrite Hrun in Hret.
      destruct (converges_or_fails solve_activation activations (state l))
        as [(s1 & H1)|(u & s & H1)].
      * rewrite (Hfirst s1 H1) in Hret.
        destruct (converges_or_fails solve_pressure pressures s1)
          as [(s2 & H2)|(u & s & H2)].
        -- rewrite (Hsecond s1 s2 H2) in Hret. injection Hret as <- <-.
           exists s1, s2. auto.
        -- rewrite (Hsecond' s1 u s H2) in Hret. discriminate.
      * rewrite (Hfirst' u s H1) in Hret. discriminate.
    + intros (s1 & s2 & H1 & H2 & -> & ->).
      rewrite Hrun, (Hfirst s1 H1), (Hsecond s1 s2 H2). reflexivity.
  - intros e w'. split.
    + intros Hraise. rewrite Hrun in Hraise.
      destruct (converges_or_fails solve_activation activations (state l))
        as [(s1 & H1)|(u & s & H1)].
      * rewrite (Hfirst s1 H1) in Hraise.
        destruct (converges_or_fails solve_pressure pressures s1)
          as [(s2 & H2)|(u & s & H2)].
        -- rewrite (Hsecond s1 s2 H2) in Hraise. discriminate.
        -- rewrite (Hsecond' s1 u s H2) in Hraise. injection Hraise as <- <-.
           split; [reflexivity|]. right. exists s1, u, s. auto.
      * rewrite (Hfirst' u s H1) in Hraise. injection Hraise as <- <-.
        split; [reflexivity|]. left. exists u, s. auto.
    + intros [-> [(u & s & H1 & ->)|(s1 & u & s & H1 & H2 & ->)]].
      * rewrite Hrun, (Hfirst' u s H1). reflexivity.
      * rewrite Hrun, (Hfirst s1 H1), (Hsecond' s1 u s H2). reflexivity.
Qed.

(** C1: a call of [dVda] that completes normally leaves the driver as it
    found it: the activation scalar, the pressure scalar and the state of
    the mechanics problem, hence the reported volume, and every other
    attribute, are the values they had before the call. *)
Theorem dVda_restores_state pulse (a p delta : Q) (w w' : World) (dV_da : Q) :
  dVda pulse a p delta w = (w', inr dV_da) ->
  w' = w /\
  activation (the_load w') = activation (the_load w) /\
  lv_pressure (the_load w') = lv_pressure (the_load w) /\
  state (the_load w') = state (the_load w) /\
  get_volume pulse w' = get_volume pulse w.
Proof.
  rewrite dVda_run.
  destruct (solve pulse a p (state (the_load w))) as [s1|s1]; [|discriminate].
  destruct (solve pulse (a * (1 + delta))%Q p s1) as [s2|s2]; [|discriminate].
  destruct (py_div _ _) as [q|]; [|discriminate].
  intros H. injection H as <- _. repeat split.
Qed.

Lemma py_div_nonzero (x y : Q) : ~ (y == 0)%Q -> py_div x y = Some (x / y)%Q.
Proof.
  intros Hy. unfold py_div.
  destruct (Qeq_bool y 0) eqn:E; [|reflexivity].
  apply Qeq_bool_iff in E. contradiction.
Qed.

Lemma py_div_zero (x y : Q) : (y == 0)%Q -> py_div x y = None.
Proof.
  intros Hy. unfold py_div. apply Qeq_bool_iff in Hy. rewrite Hy. reflexivity.
Qed.

(** C6: [dVda] solves directly at the requested activation and pressure,
    then at the activation scaled by [1 + delta_a_percent], and returns the
    forward difference of the two volumes over
    [activation_value * delta_a_percent].  The quotient is Python's: with a
    zero [delta_a_percent] the division raises.  The continuation routine
    plays no part in the result. *)
Theorem dVda_forward_difference pulse (a p delta : Q) (w : World) (s1 s2 : State) :
  ~ (a == 0)%Q ->
  solve pulse a p (state (the_load w)) = Converged s1 ->
  solve pulse (a * (1 + delta))%Q p s1 = Converged s2 ->
  let v_i := cavity_volume pulse s1 in
  let v_f := cavity_volume pulse s2 in
  (~ (delta == 0)%Q ->
   dVda pulse a p delta w = (w, inr ((v_f - v_i) / (a * delta))%Q)) /\
  ((delta == 0)%Q -> snd (dVda pulse a p delta w) = inl ZeroDivisionError) /\
  (forall it, dVda (replace_iterate it pulse) a p delta w = dVda pulse a p delta w).
Proof.
  intros Ha H1 H2 v_i v_f. split; [|split].
  - intros Hd. rewrite dVda_run, H1, H2.
    rewrite py_div_nonzero; [reflexivity|].
    intros Hz. apply Qmult_integral in Hz. tauto.
  - intros Hd. rewrite dVda_run, H1, H2.
    rewrite py_div_zero; [reflexivity|].
    rewrite Hd. ring.
  - intros it. rewrite !dVda_run. reflexivity.
Qed.

(** C2 (amended): an exception raised inside [dVda] propagates at once and
    nothing is restored.  When the first solve fails the load is left at the
    requested activation and pressure; when the second solve or the
    division fails it is left at the scaled activation and the requested
    pressure; the state of the mechanics problem is the one the last solve
    left.  The attributes other than the load are never touched. *)
Theorem dVda_failure_leaves_load pulse (a p delta : Q) (w : World) :
  (forall s1,
     solve pulse a p (state (the_load w)) = Diverged s1 ->
     dVda pulse a p delta w
     = (with_load (fun _ => mkLoad a p s1) w, inl SolverDidNotConverge)) /\
  (forall s1 s2,
     solve pulse a p (state (the_load w)) = Converged s1 ->
     solve pulse (a * (1 + delta))%Q p s1 = Diverged s2 ->
     dVda pulse a p delta w
     = (with_load (fun _ => mkLoad (a * (1 + delta))%Q p s2) w,
        inl SolverDidNotConverge)) /\
  (forall s1 s2,
     solve pulse a p (state (the_load w)) = Converged s1 ->
     solve pulse (a * (1 + delta))%Q p s1 = Converged s2 ->
     (a * delta == 0)%Q ->
     dVda pulse a p delta w
     = (with_load (fun _ => mkLoad (a * (1 + delta))%Q p s2) w,
        inl ZeroDivisionError)) /\
  (forall w' e,
     dVda pulse a p delta w = (w', inl e) ->
     lv_pressure (the_load w') = p /\
     exists l, w' = with_load (fun _ => l) w).
Proof.
  split; [|split; [|split]].
  - intros s1 H1. rewrite dVda_run, H1. reflexivity.
  - intros s1 s2 H1 H2. rewrite dVda_run, H1, H2. reflexivity.
  - intros s1 s2 H1 H2 Hz. rewrite dVda_run, H1, H2, (py_div_zero _ _ Hz). reflexivity.
  - intros w' e. rewrite dVda_run.
    destruct (solve pulse a p (state (the_load w))) as [s1|s1].
    + destruct (solve pulse (a * (1 + delta))%Q p s1) as [s2|s2].
      * destruct (py_div _ _) as [q|]; [discriminate|].
        intros H. injection H as <- _. rewrite the_load_with_load. eauto.
      * intros H. injection H as <- _. rewrite the_load_with_load. eauto.
    + intros H. injection H as <- _. rewrite the_load_with_load. eauto.
Qed.

(** *** save *)

(** C8 (amended): when the debugger entered inside [save] hands control
    back, [save] appends one record to each of the three checkpoint files of
    [outdir]: the displacement under the name u, the projected Green strain
    under E and the activation under activation.  Each record is keyed by
    [time_index + 1]; the records already in a file stay in front of the new
    one, no other file changes, the step counter grows by exactly one and
    the other attributes are kept. *)
Theorem save_appends_records pulse (time_index : Q) (outdir : string) (w : World) :
  debugger_continues pulse = true ->
  exists w',
    save pulse time_index outdir w = (w', inr tt) /\
    let u := split_u pulse (state (the_load w)) in
    let old := fun fname => default [] (files w !! (outdir, fname)) in
    files w' !! (outdir, "results.xdmf")
    = Some (old "results.xdmf" ++ [mkCheckpoint "u" (time_index + 1)%Q u]) /\
    files w' !! (outdir, "results_E.xdmf")
    = Some (old "results_E.xdmf"
            ++ [mkCheckpoint "E" (time_index + 1)%Q
                  (project_green_strain pulse (F0 (self w)) u)]) /\
    files w' !! (outdir, "activation.xdmf")
    = Some (old "activation.xdmf"
            ++ [mkCheckpoint "activation" (time_index + 1)%Q
                  (activation_function pulse (activation (the_load w)))]) /\
    (forall k,
       k <> (outdir, "results.xdmf") -> k <> (outdir, "results_E.xdmf") ->
       k <> (outdir, "activation.xdmf") -> files w' !! k = files w !! k) /\
    t (self w') = S (t (self w)) /\
    load (self w') = load (self w) /\ F0 (self w') = F0 (self w) /\
    E_ff (self w') = E_ff (self w) /\
    myocardial_work (self w') = myocardial_work (self w).
Proof.
  intros Hdbg. destruct w as [[l f e m n] fs].
  eexists. split.
  - unfold save, write_checkpoint, breakpoint, bind, gets, modify, the_load.
    rewrite Hdbg.
    cbn [self load files F0 E_ff myocardial_work t fst snd ret]. reflexivity.
  - cbn [self load files F0 E_ff myocardial_work t fst snd the_load].
    repeat split.
    + rewrite lookup_insert_ne by (intros [=]).
      rewrite lookup_insert_ne by (intros [=]).
      rewrite lookup_insert_eq. reflexivity.
    + rewrite lookup_insert_ne by (intros [=]).
      rewrite lookup_insert_eq.
      rewrite lookup_insert_ne by (intros [=]). reflexivity.
    + rewrite lookup_insert_eq.
      rewrite lookup_insert_ne by (intros [=]).
      rewrite lookup_insert_ne by (intros [=]). reflexivity.
    + intros k H1 H2 H3.
      rewrite !lookup_insert_ne by congruence. reflexivity.
Qed.

End HeartTheory.

(** *** The driver on the example problem *)

Section HeartRuns.
Import PyNum HeartModel Continuation DriverExamples.

Lemma continuation_other (c : control) (steps : list Q) :
  forall l l' : @LoadState Q,
  continuation c steps l = Converged l' \/ continuation c steps l = Diverged l' ->
  match c with
  | Activation => lv_pressure l' = lv_pressure l
  | Pressure => activation l' = activation l
  end.
Proof.
  induction steps as [|v rest IH]; intros l l' H; cbn [continuation] in H.
  - destruct H as [H|H]; [|discriminate]. injection H as <-. destruct c; reflexivity.
  - destruct (toy_solve _ _ _) as [s|s].
    + specialize (IH _ _ H). destruct c; cbn in IH; exact IH.
    + destruct H as [H|H]; [discriminate|]. injection H as <-.
      destruct c; reflexivity.
Qed.

Lemma continuation_last (c : control) (target : Q) (steps : list Q) :
  forall l l' : @LoadState Q,
  continuation c (steps ++ [target]) l = Converged l' -> control_value c l' = target.
Proof.
  induction steps as [|v rest IH]; intros l l'; cbn [app continuation].
  - destruct (toy_solve _ _ _) as [s|s]; [|discriminate].
    intros H. injection H as <-. destruct c; reflexivity.
  - destruct (toy_solve _ _ _) as [s|s]; [|discriminate]. apply IH.
Qed.

(** The example continuation honours the contract the driver relies on. *)
Lemma toy_reaches_target : iterate_reaches_target toy.
Proof.
  intros c target l l'. cbn [iterate toy]. unfold toy_iterate. split.
  - apply continuation_last.
  - apply continuation_other.
Qed.

(** [compute_volume(2, 8)] on the fresh example driver, the continuation
    routine taking four sub-steps: the solver converges at the activations
    1/2, 1, 3/2, 2 and then at the pressures 2, 4, 6, 8. *)
Lemma compute_volume_activation_then_pressure_witness :
  exists s1 s2 : Q,
    converges_through (solve_at toy_solve Activation 0%Q) (load_steps 0 2 4) 0%Q s1 /\
    converges_through (solve_at toy_solve Pressure 2%Q) (load_steps 0 8 4) s1 s2 /\
    fst (compute_volume (with_continuation 4 toy) 2 8 fresh)
    = with_load (fun _ => mkLoad 2 8 s2) fresh /\
    106%Q = cavity_volume toy s2.
Proof.
  refine (proj1 (proj1 (proj2 (compute_volume_activation_then_pressure toy 4 2 8 fresh))
                   106%Q (fst (compute_volume (with_continuation 4 toy) 2 8 fresh))) _).
  vm_compute. reflexivity.
Defined.

Example compute_volume_in_four_sub_steps :
  map Qred (load_steps 0 2 4) = [1 # 2; 1; 3 # 2; 2]%Q /\
  snd (compute_volume (with_continuation 4 toy) 2 8 fresh) = inr 106%Q /\
  snd (compute_volume (with_continuation 4 toy) 20 8 fresh) = inl SolverDidNotConverge /\
  Qred (activation (the_load (fst (compute_volume (with_continuation 4 toy) 20 8 fresh))))
  = 15%Q /\
  lv_pressure (the_load (fst (compute_volume (with_continuation 4 toy) 20 8 fresh))) = 0%Q.
Proof. repeat split; vm_compute; reflexivity. Qed.

(** A continuation that fails at a sub-step: the call raises. *)
Example compute_volume_fails_on_sub_step :
  snd (compute_volume toy 20 8 fresh) = inl SolverDidNotConverge /\
  activation (the_load (fst (compute_volume toy 20 8 fresh))) = (60 # 4)%Q.
Proof. split; vm_compute; reflexivity. Qed.

(** [dVda(2, 8)] on the fresh example driver returns and restores. *)
Lemma dVda_restores_state_witness :
  fst (dVda toy 2 8 default_delta_a_percent fresh) = fresh.
Proof.
  refine (proj1 (dVda_restores_state toy 2 8 default_delta_a_percent fresh
                   (fst (dVda toy 2 8 default_delta_a_percent fresh))
                   (-200 # 200)%Q _)).
  vm_compute. reflexivity.
Defined.

Lemma dVda_forward_difference_witness :
  dVda toy 2 8 default_delta_a_percent fresh
  = (fresh, inr (((100 + (8 - 2 * (1 + (1 # 100)))) - (100 + (8 - 2))) / (2 * (1 # 100)))%Q).
Proof.
  assert (Ha : ~ (2 == 0)%Q) by discriminate.
  destruct (dVda_forward_difference toy 2 8 default_delta_a_percent fresh
              (8 - 2)%Q (8 - 2 * (1 + (1 # 100)))%Q Ha eq_refl eq_refl)
    as [Hret _].
  apply Hret. discriminate.
Defined.

(** The three failure paths of [dVda] on the example driver. *)
Lemma dVda_failure_leaves_load_witness :
  dVda toy 20 8 default_delta_a_percent fresh
  = (with_load (fun _ => mkLoad 20%Q 8%Q 0%Q) fresh, inl SolverDidNotConverge) /\
  dVda toy 10 8 default_delta_a_percent fresh
  = (with_load (fun _ => mkLoad (10 * (1 + (1 # 100)))%Q 8%Q (8 - 10)%Q) fresh,
     inl SolverDidNotConverge) /\
  dVda toy 0 8 default_delta_a_percent fresh
  = (with_load (fun _ => mkLoad (0 * (1 + (1 # 100)))%Q 8%Q
                           (8 - 0 * (1 + (1 # 100)))%Q) fresh,
     inl ZeroDivisionError).
Proof.
  destruct (dVda_failure_leaves_load toy 20 8 default_delta_a_percent fresh)
    as (Hfirst & _).
  destruct (dVda_failure_leaves_load toy 10 8 default_delta_a_percent fresh)
    as (_ & Hsecond & _).
  destruct (dVda_failure_leaves_load toy 0 8 default_delta_a_percent fresh)
    as (_ & _ & Hdiv & _).
  split; [|split].
  - apply Hfirst. reflexivity.
  - apply (Hsecond (8 - 10)%Q); reflexivity.
  - apply (Hdiv (8 - 0)%Q); reflexivity.
Defined.

(** C2 as stated fails: after a solve that does not converge inside [dVda]
    the driver is not back in its original state. *)
Lemma dVda_exception_not_restored :
  exists w',
    dVda toy 20 8 default_delta_a_percent fresh = (w', inl SolverDidNotConverge) /\
    activation (the_load w') = 20%Q /\
    lv_pressure (the_load w') = 8%Q /\
    activation (the_load fresh) = 0%Q /\
    lv_pressure (the_load fresh) = 0%Q /\
    w' <> fresh.
Proof.
  eexists. split; [vm_compute; reflexivity|].
  repeat split. intros H. discriminate H.
Qed.

(** Two calls of [save] in a row: the second record follows the first. *)
Lemma save_appends_records_witness :
  exists w1 w2,
    save toy 0 "results" fresh = (w1, inr tt) /\
    save toy 1 "results" w1 = (w2, inr tt) /\
    files w2 !! ("results", "results.xdmf")
    = Some [mkCheckpoint "u" (0 + 1)%Q 0%Q; mkCheckpoint "u" (1 + 1)%Q 0%Q] /\
    t (self w2) = 2%nat.
Proof.
  destruct (save_appends_records toy 0 "results" fresh eq_refl)
    as (w1 & Hrun1 & Hu1 & _ & _ & _ & Ht1 & Hl1 & _).
  destruct (save_appends_records toy 1 "results" w1 eq_refl)
    as (w2 & Hrun2 & Hu2 & _ & _ & _ & Ht2 & _).
  exists w1, w2. split; [exact Hrun1|]. split; [exact Hrun2|]. split.
  - rewrite Hu2, Hu1. unfold the_load. rewrite Hl1. reflexivity.
  - rewrite Ht2, Ht1. reflexivity.
Defined.

(** C8 as stated fails: the record written by [save(0, outdir)] carries the
    time stamp 1, not the time index 0 that was passed. *)
Lemma save_time_stamp_is_shifted :
  exists w' c,
    save toy 0 "results" fresh = (w', inr tt) /\
    files w' !! ("results", "results.xdmf") = Some [c] /\
    name c = "u" /\ (time c == 1)%Q /\ ~ (time c == 0)%Q.
Proof.
  eexists. eexists. split; [vm_compute; reflexivity|].
  split; [vm_compute; reflexivity|].
  cbn [name time]. repeat split. discriminate.
Qed.

(** Without a terminal the debugger entered inside [save] is quit: the
    displacement record is written, the other two are not, and the step
    counter stays. *)
Example save_stops_at_breakpoint :
  exists w',
    save toy_batch 0 "results" fresh = (w', inl BdbQuit) /\
    files w' !! ("results", "results.xdmf") = Some [mkCheckpoint "u" 1%Q 0%Q] /\
    files w' !! ("results", "results_E.xdmf") = None /\
    files w' !! ("results", "activation.xdmf") = None /\
    t (self w') = 0%nat.
Proof. eexists. repeat split; vm_compute; reflexivity. Qed.

End HeartRuns.

(** ** Properties of pv_data.py *)

Section PVTheory.
Import PyNum PVData.

Lemma length_linspace (start stop : Q) (num : nat) :
  length (linspace start stop num) = num.
Proof.
  unfold linspace.
  assert (Hy : forall f : Q -> Q, length (map f (map Qnat (seq 0 num))) = num).
  { intros f. rewrite !length_map. apply length_seq. }
  destruct (Qle_bool (Qnat num - 1) 0); destruct (1 <? num)%nat eqn:Hnum;
    try apply Hy.
  - apply Nat.ltb_lt in Hnum.
    rewrite length_app, length_take, Hy. cbn [length]. lia.
  - apply Nat.ltb_lt in Hnum.
    rewrite length_app, length_take, Hy. cbn [length]. lia.
Qed.

Lemma interp1d_defined (x y : list Q) :
  length x = length y -> (2 <= length x)%nat -> interp1d x y = Some (call_linear x y).
Proof.
  intros Hlen Htwo. unfold interp1d.
  rewrite (proj2 (Nat.eqb_eq _ _) Hlen). cbn [negb].
  rewrite (proj2 (Nat.ltb_ge _ _) Htwo). reflexivity.
Qed.

(** A loop whose body never raises builds exactly the mapped list. *)
Lemma mapM_all_defined {A B} (f : A -> option B) (g : A -> B) (l : list A) :
  Forall (fun a => f a = Some (g a)) l -> mapM f l = Some (map g l).
Proof.
  induction 1 as [|a l Ha _ IH]; [reflexivity|].
  cbn. rewrite Ha. cbn. rewrite IH. reflexivity.
Qed.

Lemma clip_bounds (hi n : nat) :
  (1 <= hi)%nat -> (1 <= clip 1 hi n <= hi)%nat.
Proof. unfold clip. lia. Qed.

Lemma length_zip_sum (acc row : list Q) :
  length row = length acc -> length (zip_with Qplus acc row) = length acc.
Proof. intros H. rewrite length_zip_with. lia. Qed.

Lemma length_fold_sum (n : nat) (rest : list (list Q)) :
  forall acc,
  length acc = n -> Forall (fun row => length row = n) rest ->
  length (fold_left (fun acc row => zip_with Qplus acc row) rest acc) = n.
Proof.
  induction rest as [|row rest IH]; intros acc Hacc Hrows; [exact Hacc|].
  cbn [fold_left]. apply IH.
  - rewrite length_zip_sum; [exact Hacc|].
    rewrite Hacc. apply (Forall_inv Hrows).
  - apply (Forall_inv_tail Hrows).
Qed.

Lemma length_np_mean_axis0 (n : nat) (rows : list (list Q)) :
  rows <> [] -> Forall (fun row => length row = n) rows ->
  length (np_mean_axis0 rows) = n.
Proof.
  intros Hne Hrows. unfold np_mean_axis0. rewrite length_map.
  destruct rows as [|first rest]; [contradiction|].
  cbn [column_sums]. apply length_fold_sum.
  - apply (Forall_inv Hrows).
  - apply (Forall_inv_tail Hrows).
Qed.

(** Interpolating samples that all equal [c] gives [c], also outside the
    sampled range. *)
Lemma call_linear_constant (xs ys : list Q) (c x_new : Q) :
  (2 <= length xs)%nat -> length ys = length xs ->
  Forall (fun y => y == c)%Q ys ->
  (call_linear xs ys x_new == c)%Q.
Proof.
  intros Htwo Hlen Hc. unfold call_linear.
  pose proof (clip_bounds (length xs - 1) (searchsorted xs x_new)) as Hclip.
  set (i := clip 1 (length xs - 1) (searchsorted xs x_new)) in *.
  assert (Hi : (1 <= i <= length xs - 1)%nat) by (apply Hclip; lia).
  rewrite Forall_forall in Hc.
  assert (Hlo : (nth (i - 1) ys 0 == c)%Q).
  { apply Hc, list_elem_of_In, nth_In. lia. }
  assert (Hhi : (nth i ys 0 == c)%Q).
  { apply Hc, list_elem_of_In, nth_In. lia. }
  rewrite Hlo, Hhi. unfold Qdiv. ring.
Qed.

Lemma Qnat_succ (k : nat) : (Qnat (S k) == Qnat k + 1)%Q.
Proof.
  unfold Qnat. rewrite Nat2Z.inj_succ, <- Z.add_1_r, inject_Z_plus. reflexivity.
Qed.

Lemma Qnat_positive (k : nat) : (0 < k)%nat -> ~ (Qnat k == 0)%Q.
Proof.
  intros Hk E. unfold Qnat, Qeq, inject_Z in E. cbn [Qnum Qden] in E. lia.
Qed.

Lemma zip_sum_constant (acc row : list Q) (a b : Q) :
  Forall (fun y => y == a)%Q acc -> Forall (fun y => y == b)%Q row ->
  Forall (fun y => y == a + b)%Q (zip_with Qplus acc row).
Proof.
  intros Hacc. revert row.
  induction Hacc as [|x acc Hx _ IH]; intros row Hrow; [constructor|].
  destruct Hrow as [|y row Hy Hrow]; cbn; constructor.
  - rewrite Hx, Hy. reflexivity.
  - apply IH, Hrow.
Qed.

Lemma fold_sum_constant (c : Q) (rest : list (list Q)) :
  forall (acc : list Q) (k : nat),
  Forall (fun y => y == Qnat k * c)%Q acc ->
  Forall (Forall (fun y => y == c)%Q) rest ->
  Forall (fun y => y == Qnat (k + length rest) * c)%Q
         (fold_left (fun acc row => zip_with Qplus acc row) rest acc).
Proof.
  induction rest as [|row rest IH]; intros acc k Hacc Hrest; cbn [fold_left length].
  - rewrite Nat.add_0_r. exact Hacc.
  - replace (k + S (length rest))%nat with (S k + length rest)%nat by lia.
    apply IH; [|apply (Forall_inv_tail Hrest)].
    pose proof (zip_sum_constant acc row _ _ Hacc (Forall_inv Hrest)) as Hsum.
    eapply Forall_impl; [exact Hsum|].
    intros y Hy. cbn beta in Hy. rewrite Hy, Qnat_succ. ring.
Qed.

Lemma np_mean_axis0_constant (c : Q) (rows : list (list Q)) :
  Forall (Forall (fun y => y == c)%Q) rows ->
  Forall (fun y => y == c)%Q (np_mean_axis0 rows).
Proof.
  intros Hrows. unfold np_mean_axis0.
  destruct rows as [|first rest]; [constructor|].
  cbn [column_sums]. apply Forall_map.
  assert (Hfirst : Forall (fun y => y == Qnat 1 * c)%Q first).
  { eapply Forall_impl; [exact (Forall_inv Hrows)|].
    intros y Hy. cbn beta in Hy. rewrite Hy. unfold Qnat. cbn. ring. }
  pose proof (fold_sum_constant c rest first 1 Hfirst (Forall_inv_tail Hrows)) as Hsum.
  eapply Forall_impl; [exact Hsum|].
  intros y Hy. cbn beta in Hy. cbn [length Nat.add] in *.
  rewrite Hy. field. apply Qnat_positive. lia.
Qed.

(** C9 (amended): on a non-empty list of arrays that each hold at least two
    samples, [average_array] returns an array of the common length of 100
    samples, whatever the lengths of the inputs; and when every input is
    constant with the same value [c], every entry of the result equals
    [c]. *)
Theorem average_array_length_and_constant (arrays : list (list Q)) :
  arrays <> [] ->
  Forall (fun array => 2 <= length array)%nat arrays ->
  exists average_y,
    average_array arrays = Some average_y /\
    length average_y = num_samples /\
    num_samples = 100%nat /\
    forall c,
      Forall (Forall (fun y => y == c)%Q) arrays ->
      Forall (fun y => y == c)%Q average_y.
Proof.
  intros Hne Htwo.
  destruct arrays as [|first rest] eqn:Harrays; [contradiction|].
  rewrite <- Harrays in *. clear Hne.
  set (average_x :=
         linspace 0 (Qnat (list_max (map (@length Q) arrays)) - 1) num_samples).
  set (row := fun array : list Q =>
         map (call_linear (linspace 0 (Qnat (length array) - 1) (length array)) array)
             average_x).
  assert (Hrun : average_array arrays = Some (np_mean_axis0 (map row arrays))).
  { unfold average_array. rewrite Harrays at 1. fold average_x.
    rewrite (mapM_all_defined _ row); [reflexivity|].
    eapply Forall_impl; [exact Htwo|].
    intros array Ha. cbn beta in Ha |- *.
    rewrite interp1d_defined; [reflexivity| |]; rewrite length_linspace; auto. }
  exists (np_mean_axis0 (map row arrays)).
  split; [exact Hrun|]. split; [|split; [reflexivity|]].
  - apply length_np_mean_axis0.
    + rewrite Harrays. discriminate.
    + apply Forall_map, Forall_forall. intros array _.
      unfold row. rewrite length_map. apply length_linspace.
  - intros c Hc. apply np_mean_axis0_constant.
    apply Forall_map, Forall_forall. intros array Ha.
    unfold row. apply Forall_map, Forall_forall. intros x _.
    rewrite Forall_forall in Htwo, Hc.
    apply call_linear_constant.
    + rewrite length_linspace. apply Htwo, Ha.
    + rewrite length_linspace. reflexivity.
    + apply Hc, Ha.
Qed.

(** Two constant arrays of different lengths. *)
Lemma average_array_length_and_constant_witness :
  exists average_y,
    average_array [[5; 5; 5]; [5; 5]]%Q = Some average_y /\
    length average_y = 100%nat /\
    Forall (fun y => y == 5)%Q average_y.
Proof.
  assert (Hne : [[5; 5; 5]; [5; 5]]%Q <> []) by discriminate.
  assert (Htwo : Forall (fun array : list Q => 2 <= length array)%nat
                        [[5; 5; 5]; [5; 5]]%Q).
  { repeat constructor. }
  destruct (average_array_length_and_constant _ Hne Htwo)
    as (average_y & Hrun & Hlen & _ & Hconst).
  exists average_y. split; [exact Hrun|]. split; [exact Hlen|].
  apply Hconst. repeat constructor; reflexivity.
Defined.

Example average_array_ramp :
  option_map (fun average_y => map Qred (firstn 2 average_y ++ skipn 98 average_y))
             (average_array [[1; 2; 3]; [3; 4]]%Q)
  = Some [2; 200 # 99; 394 # 99; 4]%Q.
Proof. vm_compute. reflexivity. Qed.

(** C9 as stated fails: a non-empty list of arrays can hold an array with
    no sample, and then the interpolation raises and nothing is returned. *)
Lemma average_array_needs_samples :
  ([[]] : list (list Q)) <> [] /\
  average_array [[]] = None /\
  average_array [[1; 2; 3]; []]%Q = None.
Proof. split; [discriminate|]. split; vm_compute; reflexivity. Qed.

End PVTheory.

(** ** Further properties of create_geometry.py *)

Section FaceKeySets.
Import PyNum Geometry Examples.

Lemma np_take_cons {A} (a : list A) (i : nat) (idx : list nat) (c : list A) :
  np_take a (i :: idx) = Some c <->
  exists x c0, a !! i = Some x /\ np_take a idx = Some c0 /\ c = x :: c0.
Proof.
  unfold np_take. cbn [mapM]. split.
  - destruct (a !! i) as [x|]; [|discriminate]. cbn.
    destruct (mapM (fun i => a !! i) idx) as [c0|]; [|discriminate]. cbn.
    intros H. injection H as <-. eauto.
  - intros (x & c0 & -> & -> & ->). reflexivity.
Qed.

Lemma np_take_None {A} (a : list A) (idx : list nat) :
  np_take a idx = None <-> exists v, v ∈ idx /\ (length a <= v)%nat.
Proof.
  unfold np_take. rewrite mapM_None, Exists_exists. split.
  - intros (v & Hv & Hnone). exists v. split; [exact Hv|].
    apply lookup_ge_None. exact Hnone.
  - intros (v & Hv & Hge). exists v. split; [exact Hv|].
    apply lookup_ge_None. exact Hge.
Qed.

(** Reordering the index array reorders the rows taken. *)
Lemma np_take_perm {A} (a : list A) (idx idx' : list nat) :
  Permutation idx idx' ->
  forall c, np_take a idx = Some c ->
  exists c', np_take a idx' = Some c' /\ Permutation c c'.
Proof.
  induction 1 as [|i l l' _ IH|i j l|l l' l'' _ IH1 _ IH2]; intros c Hc.
  - exists c. split; [exact Hc | reflexivity].
  - apply np_take_cons in Hc as (x & c0 & Hx & Hc0 & ->).
    destruct (IH c0 Hc0) as (c1 & Hc1 & Hp).
    exists (x :: c1). split.
    + apply np_take_cons. eauto.
    + constructor. exact Hp.
  - apply np_take_cons in Hc as (x & c0 & Hx & Hc0 & ->).
    apply np_take_cons in Hc0 as (y & c1 & Hy & Hc1 & ->).
    exists (y :: x :: c1). split.
    + apply np_take_cons. exists y, (x :: c1). split; [exact Hy|].
      split; [|reflexivity]. apply np_take_cons. eauto.
    + apply perm_swap.
  - destruct (IH1 c Hc) as (c1 & Hc1 & Hp1).
    destruct (IH2 c1 Hc1) as (c2 & Hc2 & Hp2).
    exists c2. split; [exact Hc2|]. etransitivity; eassumption.
Qed.

(** The keys collected by the loop: those it started with and one per face. *)
Lemma build_face_keys_from_Some (vc : list point) (tol : Q) (faces : list (list nat)) :
  forall keys ks,
  build_face_keys_from keys faces vc tol = Some ks ->
  forall k, k ∈ ks <->
    k ∈ keys \/
    exists idx coords,
      idx ∈ faces /\ np_take vc idx = Some coords /\ k = triangle_key coords tol.
Proof.
  induction faces as [|idx rest IH]; intros keys ks Hrun k; cbn [build_face_keys_from] in Hrun.
  - injection Hrun as <-. split; [auto|].
    intros [H|(idx & coords & Hin & _)]; [exact H|].
    apply elem_of_nil in Hin. contradiction.
  - destruct (np_take vc idx) as [coords|] eqn:Hc; [|discriminate]. cbn in Hrun.
    rewrite (IH _ _ Hrun k), elem_of_union, elem_of_singleton. split.
    + intros [[H|H]|(idx' & coords' & Hin & Hc' & Hk)].
      * left. exact H.
      * right. exists idx, coords. split; [left|]. auto.
      * right. exists idx', coords'. split; [right; exact Hin|]. auto.
    + intros [H|(idx' & coords' & Hin & Hc' & Hk)].
      * left. left. exact H.
      * apply elem_of_cons in Hin as [->|Hin].
        -- left. right. rewrite Hc in Hc'. injection Hc' as <-. exact Hk.
        -- right. exists idx', coords'. auto.
Qed.

Lemma build_face_keys_from_None (vc : list point) (tol : Q) (faces : list (list nat)) :
  forall keys,
  build_face_keys_from keys faces vc tol = None <->
  exists idx, idx ∈ faces /\ np_take vc idx = None.
Proof.
  induction faces as [|idx rest IH]; intros keys; cbn [build_face_keys_from].
  - split; [discriminate|]. intros (idx & Hin & _).
    apply elem_of_nil in Hin. contradiction.
  - destruct (np_take vc idx) as [coords|] eqn:Hc; cbn.
    + rewrite IH. split.
      * intros (idx' & Hin & Hnone). exists idx'. split; [right; exact Hin | exact Hnone].
      * intros (idx' & Hin & Hnone). apply elem_of_cons in Hin as [->|Hin].
        -- rewrite Hc in Hnone. discriminate.
        -- exists idx'. auto.
    + split; [|reflexivity]. intros _. exists idx. split; [left | exact Hc].
Qed.

Lemma build_face_keys_None_iff
    (face_indices : list (list nat)) (vertex_coordinates : list point) (tol : Q) :
  build_face_keys face_indices vertex_coordinates tol = None <->
  exists indices v,
    indices ∈ face_indices /\ v ∈ indices /\ (length vertex_coordinates <= v)%nat.
Proof.
  unfold build_face_keys. rewrite build_face_keys_from_None. split.
  - intros (idx & Hin & Hnone). apply np_take_None in Hnone as (v & Hv & Hge).
    exists idx, v. auto.
  - intros (idx & v & Hin & Hv & Hge). exists idx. split; [exact Hin|].
    apply np_take_None. eauto.
Qed.

(** X1: [build_face_keys] raises exactly when some face refers to a vertex
    that does not exist; otherwise it returns a key set. *)
Theorem build_face_keys_raises_iff
    (face_indices : list (list nat)) (vertex_coordinates : list point) (tol : Q) :
  (build_face_keys face_indices vertex_coordinates tol = None <->
   exists indices v,
     indices ∈ face_indices /\ v ∈ indices /\ (length vertex_coordinates <= v)%nat) /\
  (is_Some (build_face_keys face_indices vertex_coordinates tol) <->
   forall indices v, indices ∈ face_indices -> v ∈ indices ->
                     (v < length vertex_coordinates)%nat).
Proof.
  split; [apply build_face_keys_None_iff|].
  split.
  - intros [keys Hrun] indices v Hin Hv.
    destruct (Nat.lt_ge_cases v (length vertex_coordinates)) as [Hlt|Hge]; [exact Hlt|].
    assert (Hnone : build_face_keys face_indices vertex_coordinates tol = None).
    { apply build_face_keys_None_iff. eauto. }
    rewrite Hrun in Hnone. discriminate.
  - intros Hrange.
    destruct (build_face_keys face_indices vertex_coordinates tol) eqn:Hrun; [eauto|].
    apply build_face_keys_None_iff in Hrun as (idx & v & Hin & Hv & Hge).
    specialize (Hrange idx v Hin Hv). lia.
Qed.

(** X2: when every face refers to existing vertices, [build_face_keys]
    returns the set that holds exactly the keys of the faces given: a key is
    in the set if and only if it is the [triangle_key] of the coordinates of
    one of the faces. *)
Theorem build_face_keys_members
    (face_indices : list (list nat)) (vertex_coordinates : list point) (tol : Q) :
  (forall indices v, indices ∈ face_indices -> v ∈ indices ->
                     (v < length vertex_coordinates)%nat) ->
  exists keys,
    build_face_keys face_indices vertex_coordinates tol = Some keys /\
    forall key, key ∈ keys <->
      exists indices coords,
        indices ∈ face_indices /\
        np_take vertex_coordinates indices = Some coords /\
        key = triangle_key coords tol.
Proof.
  intros Hrange.
  destruct (build_face_keys face_indices vertex_coordinates tol) as [keys|] eqn:Hrun.
  - exists keys. split; [reflexivity|]. intros key.
    unfold build_face_keys in Hrun.
    rewrite (build_face_keys_from_Some _ _ _ _ _ Hrun key). split.
    + intros [H|H]; [|exact H]. apply elem_of_empty in H. contradiction.
    + intros H. right. exact H.
  - apply build_face_keys_None_iff in Hrun as (idx & v & Hin & Hv & Hge).
    specialize (Hrange idx v Hin Hv). lia.
Qed.

Lemma build_face_keys_members_witness :
  exists keys,
    build_face_keys [[0; 1; 2]; [2; 1; 0]; [0; 1; 3]]%nat tet_points default_tol = Some keys /\
    triangle_key [ (0, 0, 0); (1, 0, 0); (0, 0, 1) ]%Q default_tol ∈ keys.
Proof.
  assert (Hrange : forall indices v,
             indices ∈ [[0; 1; 2]; [2; 1; 0]; [0; 1; 3]]%nat -> v ∈ indices ->
             (v < length tet_points)%nat).
  { intros indices v Hin Hv. cbn [length tet_points].
    repeat (apply elem_of_cons in Hin as [->|Hin];
            [repeat (apply elem_of_cons in Hv as [->|Hv]; [lia|]);
             apply elem_of_nil in Hv; contradiction|]).
    apply elem_of_nil in Hin. contradiction. }
  destruct (build_face_keys_members _ tet_points default_tol Hrange)
    as (keys & Hrun & Hmem).
  exists keys. split; [exact Hrun|].
  apply Hmem. exists [0; 1; 3]%nat, [ (0, 0, 0); (1, 0, 0); (0, 0, 1) ]%Q.
  split; [|split; reflexivity].
  right. right. left.
Defined.

Lemma np_take_None_perm {A} (a : list A) (idx idx' : list nat) :
  Permutation idx idx' -> np_take a idx = None -> np_take a idx' = None.
Proof.
  intros Hp Hnone. apply np_take_None in Hnone as (v & Hv & Hge).
  apply np_take_None. exists v. split; [|exact Hge]. rewrite <- Hp. exact Hv.
Qed.

(** One direction of the comparison of two face lists. *)
Lemma build_face_keys_covered
    (faces faces' : list (list nat)) (vc : list point) (tol : Q)
    (keys keys' : gset face_key) :
  (forall idx, idx ∈ faces -> exists idx', idx' ∈ faces' /\ Permutation idx idx') ->
  build_face_keys faces vc tol = Some keys ->
  build_face_keys faces' vc tol = Some keys' ->
  keys ⊆ keys'.
Proof.
  intros Hcov Hrun Hrun' k Hk. unfold build_face_keys in *.
  apply (build_face_keys_from_Some _ _ _ _ _ Hrun) in Hk
    as [Hk|(idx & coords & Hin & Hc & ->)].
  { apply elem_of_empty in Hk. contradiction. }
  destruct (Hcov idx Hin) as (idx' & Hin' & Hp).
  destruct (np_take_perm vc idx idx' Hp coords Hc) as (coords' & Hc' & Hpc).
  apply (build_face_keys_from_Some _ _ _ _ _ Hrun'). right.
  exists idx', coords'. split; [exact Hin'|]. split; [exact Hc'|].
  apply triangle_key_perm, Hpc.
Qed.

(** X3: the key set does not depend on the order of the faces, on repeated
    faces, or on the order of the vertices within a face: two face lists
    whose faces match up to the order of their vertex indices give the same
    result (the same set, or an error in both cases). *)
Theorem build_face_keys_order_independent
    (face_indices face_indices' : list (list nat))
    (vertex_coordinates : list point) (tol : Q) :
  (forall indices, indices ∈ face_indices ->
     exists indices', indices' ∈ face_indices' /\ Permutation indices indices') ->
  (forall indices', indices' ∈ face_indices' ->
     exists indices, indices ∈ face_indices /\ Permutation indices' indices) ->
  build_face_keys face_indices vertex_coordinates tol
  = build_face_keys face_indices' vertex_coordinates tol.
Proof.
  intros Hcov Hcov'.
  destruct (build_face_keys face_indices vertex_coordinates tol) as [keys|] eqn:Hrun;
    destruct (build_face_keys face_indices' vertex_coordinates tol) as [keys'|] eqn:Hrun'.
  - f_equal. apply set_eq. intros k. split.
    + apply (build_face_keys_covered _ _ _ _ _ _ Hcov Hrun Hrun').
    + apply (build_face_keys_covered _ _ _ _ _ _ Hcov' Hrun' Hrun).
  - exfalso. apply build_face_keys_None_iff in Hrun' as (idx' & v & Hin' & Hv & Hge).
    destruct (Hcov' idx' Hin') as (idx & Hin & Hp).
    assert (Hnone : build_face_keys face_indices vertex_coordinates tol = None).
    { apply build_face_keys_None_iff. exists idx, v.
      split; [exact Hin|]. split; [rewrite <- Hp; exact Hv | exact Hge]. }
    rewrite Hrun in Hnone. discriminate.
  - exfalso. apply build_face_keys_None_iff in Hrun as (idx & v & Hin & Hv & Hge).
    destruct (Hcov idx Hin) as (idx' & Hin' & Hp).
    assert (Hnone : build_face_keys face_indices' vertex_coordinates tol = None).
    { apply build_face_keys_None_iff. exists idx', v.
      split; [exact Hin'|]. split; [rewrite <- Hp; exact Hv | exact Hge]. }
    rewrite Hrun' in Hnone. discriminate.
  - reflexivity.
Qed.

Lemma build_face_keys_order_independent_witness :
  build_face_keys [[0; 1; 2]; [0; 1; 3]]%nat tet_points default_tol
  = build_face_keys [[3; 0; 1]; [2; 1; 0]; [1; 0; 3]]%nat tet_points default_tol.
Proof.
  apply build_face_keys_order_independent.
  - intros indices Hin.
    apply elem_of_cons in Hin as [->|Hin];
      [|apply elem_of_cons in Hin as [->|Hin]; [|apply elem_of_nil in Hin; contradiction]].
    + exists [2; 1; 0]%nat. split; [right; left|].
      change [2; 1; 0]%nat with (rev [0; 1; 2]%nat). apply Permutation_rev.
    + exists [3; 0; 1]%nat. split; [left|].
      change [0; 1; 3]%nat with ([0; 1] ++ [3])%nat. apply Permutation_app_comm.
  - intros indices' Hin.
    apply elem_of_cons in Hin as [->|Hin];
      [|apply elem_of_cons in Hin as [->|Hin];
        [|apply elem_of_cons in Hin as [->|Hin];
          [|apply elem_of_nil in Hin; contradiction]]].
    + exists [0; 1; 3]%nat. split; [right; left|].
      change [3; 0; 1]%nat with ([3] ++ [0; 1])%nat. apply Permutation_app_comm.
    + exists [0; 1; 2]%nat. split; [left|].
      change [2; 1; 0]%nat with (rev [0; 1; 2]%nat). symmetry. apply Permutation_rev.
    + exists [0; 1; 3]%nat. split; [right; left|].
      apply perm_swap.
Defined.

(** X4: a face of the first cell block is found again on the volumetric
    mesh whatever the order of its vertices there.  When the key sets were
    built on the coordinates of the mesh, an exterior facet whose vertices
    are those of a face of the Epi block, in any order, is tagged 7. *)
Theorem annotate_finds_reordered_face
    (mesh : DolfinMesh) (epi_faces : list (list nat))
    (epi_keys endo_keys base_keys : gset face_key)
    (i : nat) (fc : Facet) (indices : list nat) :
  facet_indices_valid mesh = true ->
  build_face_keys epi_faces (coordinates mesh) default_tol = Some epi_keys ->
  facets mesh !! i = Some fc ->
  exterior fc = true ->
  indices ∈ epi_faces ->
  Permutation (entities0 fc) indices ->
  exists ffun,
    annotate (coordinates mesh) epi_keys endo_keys base_keys (facets mesh) 0
      (new_ffun mesh) = Some ffun /\
    ffun !! i = Some EPI.
Proof.
  intros Hvalid Hkeys Hfc Hext Hin Hperm.
  destruct (annotate_inv (coordinates mesh) epi_keys endo_keys base_keys
              (facets mesh) 0 (new_ffun mesh)
              (facet_indices_valid_spec mesh Hvalid))
    as (ffun & Hrun & _ & _ & Hfacets).
  exists ffun. split; [exact Hrun|].
  destruct (Hfacets i fc Hfc) as [_ Hyes].
  destruct (Hyes Hext) as (coord & Hcoord & Hval). cbn [Nat.add] in Hval.
  rewrite Hval.
  destruct (mark_facet_at epi_keys endo_keys base_keys
              (triangle_key coord default_tol) i (new_ffun mesh) 0%nat
              (new_ffun_lookup mesh i fc Hfc)) as (Hepi & _).
  apply Hepi.
  destruct (np_take_perm (coordinates mesh) _ _ Hperm coord Hcoord)
    as (coords' & Hc' & Hpc).
  unfold build_face_keys in Hkeys.
  apply (build_face_keys_from_Some _ _ _ _ _ Hkeys). right.
  exists indices, coords'. split; [exact Hin|]. split; [exact Hc'|].
  apply triangle_key_perm, Hpc.
Qed.

Lemma annotate_finds_reordered_face_witness :
  exists ffun,
    annotate (coordinates tet_mesh)
      {[ triangle_key [ (0, 0, 1); (1, 0, 0); (0, 0, 0) ]%Q default_tol ]} ∅ ∅
      (facets tet_mesh) 0 (new_ffun tet_mesh) = Some ffun /\
    ffun !! 2%nat = Some EPI.
Proof.
  refine (annotate_finds_reordered_face tet_mesh [[3; 1; 0]%nat]
            {[ triangle_key [ (0, 0, 1); (1, 0, 0); (0, 0, 0) ]%Q default_tol ]} ∅ ∅
            2%nat (mkFacet true [0; 1; 3]%nat) [3; 1; 0]%nat
            eq_refl _ eq_refl eq_refl _ _).
  - vm_compute. reflexivity.
  - left.
  - change [3; 1; 0]%nat with (rev [0; 1; 3]%nat). apply Permutation_rev.
Defined.

(** X5: [create_geometry] raises before any tagging when one of the three
    named groups is missing from the group table or holds no triangles,
    when the input has no tetrahedron block, and when it has fewer than
    three cell blocks. *)
Theorem create_geometry_ffun_configuration_errors
    (read_mesh : list point -> list (list nat) -> DolfinMesh) (msh : MeshioMesh) :
  (forall name, name ∈ ["Epi"; "Endo"; "Base"] ->
     (cell_sets_dict msh !! name = None \/
      exists group, cell_sets_dict msh !! name = Some group /\
                    group !! "triangle" = None) ->
     create_geometry_ffun read_mesh msh = None) /\
  ((forall b, b ∈ cells msh -> cell_type b <> "tetra") ->
   create_geometry_ffun read_mesh msh = None) /\
  ((length (cells msh) < 3)%nat -> create_geometry_ffun read_mesh msh = None).
Proof.
  split; [|split].
  - intros name Hname Hmissing.
    assert (Hnone : named_triangles msh name = None).
    { unfold named_triangles.
      destruct Hmissing as [->|(group & -> & Hg)]; [reflexivity | exact Hg]. }
    unfold create_geometry_ffun.
    repeat (apply elem_of_cons in Hname as [->|Hname]);
      [| | |apply elem_of_nil in Hname; contradiction].
    + rewrite Hnone. reflexivity.
    + destruct (named_triangles msh "Epi"); [|reflexivity]. cbn.
      rewrite Hnone. reflexivity.
    + destruct (named_triangles msh "Epi"); [|reflexivity]. cbn.
      destruct (named_triangles msh "Endo"); [|reflexivity]. cbn.
      rewrite Hnone. reflexivity.
  - intros Hno.
    assert (Hnone : first_block_of_type "tetra" (cells msh) = None).
    { unfold first_block_of_type.
      destruct (list_find (fun b => cell_type b = "tetra") (cells msh))
        as [[j b]|] eqn:Hfind; [|reflexivity].
      apply list_find_Some in Hfind as (Hj & Hb & _).
      exfalso. apply (Hno b); [|exact Hb].
      apply list_elem_of_lookup. eauto. }
    unfold create_geometry_ffun.
    destruct (named_triangles msh "Epi"); [|reflexivity]. cbn.
    destruct (named_triangles msh "Endo"); [|reflexivity]. cbn.
    destruct (named_triangles msh "Base"); [|reflexivity]. cbn.
    rewrite Hnone. reflexivity.
  - intros Hshort.
    assert (Hnone : face_key_sets msh = None).
    { unfold face_key_sets.
      destruct (cells msh) as [|b0 [|b1 [|b2 rest]]]; cbn in Hshort |- *;
        try reflexivity. lia. }
    unfold create_geometry_ffun.
    destruct (named_triangles msh "Epi"); [|reflexivity]. cbn.
    destruct (named_triangles msh "Endo"); [|reflexivity]. cbn.
    destruct (named_triangles msh "Base"); [|reflexivity]. cbn.
    destruct (first_block_of_type "tetra" (cells msh)); [|reflexivity]. cbn.
    destruct (cells msh !! _); [|reflexivity]. cbn.
    destruct (first_block_of_type "triangle" (cells msh)); [|reflexivity]. cbn.
    destruct (cells msh !! _); [|reflexivity]. cbn.
    rewrite Hnone. reflexivity.
Qed.

End FaceKeySets.

(** ** Properties of the depth-first search of create_geometry.py *)

Section SearchTheory.
Import GraphSearch.

Variable graph : Graph.

Lemma expanded_mono (visited visited' : gset nat) (x : nat) :
  visited ⊆ visited' -> expanded graph visited x -> expanded graph visited' x.
Proof.
  intros Hsub (neighbours & Hkey & Hall). exists neighbours.
  split; [exact Hkey|]. intros y Hy. apply Hsub, Hall, Hy.
Qed.

Lemma reach_mono (visited visited' : gset nat) (a b : nat) :
  visited ⊆ visited' -> reach graph visited' a b -> reach graph visited a b.
Proof.
  intros Hsub. induction 1 as [a|a neighbours n b Hkey Hn Hnew _ IH].
  - apply reach_here.
  - eapply reach_step; [exact Hkey|exact Hn| |exact IH].
    intros Hin. apply Hnew, Hsub, Hin.
Qed.

Lemma unvisited_mono (visited visited' : gset nat) :
  visited ⊆ visited' -> (unvisited graph visited' <= unvisited graph visited)%nat.
Proof.
  intros Hsub. unfold unvisited. apply subseteq_size.
  intros x Hx. apply elem_of_difference in Hx as [Hdom Hnew].
  apply elem_of_difference. split; [exact Hdom|].
  intros Hin. apply Hnew, Hsub, Hin.
Qed.

Lemma unvisited_add (visited : gset nat) (node : nat) :
  is_Some (graph !! node) -> node ∉ visited ->
  (unvisited graph ({[node]} ∪ visited) < unvisited graph visited)%nat.
Proof.
  intros Hkey Hnew. unfold unvisited. apply subset_size.
  apply elem_of_dom in Hkey. split.
  - intros x Hx. apply elem_of_difference in Hx as [Hdom Hout].
    apply elem_of_difference. split; [exact Hdom|].
    intros Hin. apply Hout, elem_of_union. right. exact Hin.
  - intros Hsup.
    assert (Hnode : node ∈ dom graph ∖ visited)
      by (apply elem_of_difference; split; assumption).
    apply Hsup, elem_of_difference in Hnode. destruct Hnode as [_ Hout].
    apply Hout, elem_of_union. left. apply elem_of_singleton. reflexivity.
Qed.

Lemma visit_raised (search : nat -> gset nat -> outcome) (neighbours : list nat)
    (so_far : outcome) :
  (forall visited, so_far <> Returned visited) ->
  fold_left (visit search) neighbours so_far = so_far.
Proof.
  induction neighbours as [|n neighbours IH]; intros Hraised; [reflexivity|].
  cbn [fold_left].
  destruct so_far as [visited| |]; [exfalso; exact (Hraised visited eq_refl)| |];
    cbn [visit]; apply IH; exact Hraised.
Qed.

(** The loop over the neighbours of [node], entered with the visited set
    [middle], for a nested search that meets its specification. *)
Lemma visit_loop (fuel : nat) (before : gset nat) (node : nat)
    (all_neighbours : list nat) :
  graph !! node = Some all_neighbours ->
  (forall n visited,
     n ∉ visited ->
     match dfs fuel graph n visited with
     | Returned after => searched graph visited n after
     | KeyError _ => meets_missing_key graph visited n
     | OutOfFuel => (fuel < unvisited graph visited + 1)%nat
     end) ->
  forall neighbours middle,
  (forall n, n ∈ neighbours -> n ∈ all_neighbours) ->
  {[node]} ∪ before ⊆ middle ->
  (forall x, x ∈ middle -> x ∉ before -> reach graph before node x) ->
  (forall x, x ∈ middle -> x ∉ {[node]} ∪ before -> expanded graph middle x) ->
  match fold_left (visit (dfs fuel graph)) neighbours (Returned middle) with
  | Returned after =>
      middle ⊆ after /\
      (forall x, x ∈ after -> x ∉ before -> reach graph before node x) /\
      (forall x, x ∈ after -> x ∉ {[node]} ∪ before -> expanded graph after x) /\
      (forall n, n ∈ neighbours -> n ∈ after)
  | KeyError _ => meets_missing_key graph before node
  | OutOfFuel => (fuel < unvisited graph middle + 1)%nat
  end.
Proof.
  intros Hkey Hsearch.
  induction neighbours as [|n neighbours IH]; intros middle Hedges Hsub Hsound Hclosed.
  - cbn [fold_left]. split; [reflexivity|]. split; [exact Hsound|].
    split; [exact Hclosed|]. intros n Hn. apply elem_of_nil in Hn. contradiction.
  - cbn [fold_left visit].
    assert (Hrest : forall n', n' ∈ neighbours -> n' ∈ all_neighbours).
    { intros n' Hn'. apply Hedges. apply elem_of_cons. right. exact Hn'. }
    destruct (decide (n ∈ middle)) as [Hseen|Hnew].
    + specialize (IH middle Hrest Hsub Hsound Hclosed).
      destruct (fold_left _ neighbours (Returned middle)) as [after| |];
        [|exact IH|exact IH].
      destruct IH as (Hgrow & Hs & Hc & Hall).
      split; [exact Hgrow|]. split; [exact Hs|]. split; [exact Hc|].
      intros n' Hn'. apply elem_of_cons in Hn'.
      destruct Hn' as [->|Hn']; [apply Hgrow, Hseen|apply Hall, Hn'].
    + specialize (Hsearch n middle Hnew).
      assert (Hedge : forall b, reach graph middle n b -> reach graph before node b).
      { intros b Hb. eapply reach_step; [exact Hkey| | |].
        - apply Hedges. apply elem_of_cons. left. reflexivity.
        - intros Hin. apply Hnew, Hsub. set_solver.
        - eapply reach_mono; [|exact Hb]. set_solver. }
      destruct (dfs fuel graph n middle) as [middle'| |].
      * destruct Hsearch as (Hsub' & Hsound' & Hclosed').
        assert (Hgrow' : middle ⊆ middle') by set_solver.
        specialize (IH middle' Hrest).
        assert (H1 : {[node]} ∪ before ⊆ middle') by (etrans; [exact Hsub|exact Hgrow']).
        assert (H2 : forall x, x ∈ middle' -> x ∉ before -> reach graph before node x).
        { intros x Hx Hxb. destruct (decide (x ∈ middle)) as [Hxm|Hxm].
          - apply Hsound; assumption.
          - apply Hedge, Hsound'; assumption. }
        assert (H3 : forall x, x ∈ middle' -> x ∉ {[node]} ∪ before -> expanded graph middle' x).
        { intros x Hx Hxb. destruct (decide (x ∈ middle)) as [Hxm|Hxm].
          - eapply expanded_mono; [exact Hgrow'|]. apply Hclosed; assumption.
          - apply Hclosed'; [exact Hx|right; exact Hxm]. }
        specialize (IH H1 H2 H3).
        destruct (fold_left _ neighbours (Returned middle')) as [after| |].
        -- destruct IH as (Hgrow & Hs & Hc & Hall).
           split; [set_solver|]. split; [exact Hs|]. split; [exact Hc|].
           intros n' Hn'. apply elem_of_cons in Hn'.
           destruct Hn' as [->|Hn']; [|apply Hall, Hn'].
           apply Hgrow, Hsub'. set_solver.
        -- exact IH.
        -- pose proof (unvisited_mono middle middle' Hgrow'). lia.
      * rewrite visit_raised by discriminate.
        destruct Hsearch as (b & Hb & Hmissing).
        exists b. split; [apply Hedge, Hb|exact Hmissing].
      * rewrite visit_raised by discriminate. exact Hsearch.
Qed.

(** The specification of one call, whatever the fuel: the fuel only
    decides whether the model is cut short. *)
Lemma dfs_spec (fuel : nat) :
  forall node visited,
  match dfs fuel graph node visited with
  | Returned after => searched graph visited node after
  | KeyError _ => meets_missing_key graph visited node
  | OutOfFuel =>
      (fuel < unvisited graph visited + (if decide (node ∈ visited) then 2 else 1))%nat
  end.
Proof.
  induction fuel as [|fuel IH]; intros node visited.
  - cbn [dfs]. destruct (decide (node ∈ visited)); lia.
  - cbn [dfs]. destruct (graph !! node) as [all_neighbours|] eqn:Hkey.
    + assert (Hnested : forall n visited',
                n ∉ visited' ->
                match dfs fuel graph n visited' with
                | Returned after => searched graph visited' n after
                | KeyError _ => meets_missing_key graph visited' n
                | OutOfFuel => (fuel < unvisited graph visited' + 1)%nat
                end).
      { intros n visited' Hnew. specialize (IH n visited').
        destruct (dfs fuel graph n visited'); [exact IH|exact IH|].
        destruct (decide (n ∈ visited')); [contradiction|exact IH]. }
      pose proof (visit_loop fuel visited node all_neighbours Hkey Hnested
                    all_neighbours ({[node]} ∪ visited)) as Hloop.
      assert (H1 : forall n, n ∈ all_neighbours -> n ∈ all_neighbours) by auto.
      assert (H2 : {[node]} ∪ visited ⊆ {[node]} ∪ visited) by reflexivity.
      assert (H3 : forall x, x ∈ {[node]} ∪ visited -> x ∉ visited ->
                             reach graph visited node x).
      { intros x Hx Hxv. apply elem_of_union in Hx as [Hx|Hx]; [|contradiction].
        apply elem_of_singleton in Hx. subst x. apply reach_here. }
      assert (H4 : forall x, x ∈ {[node]} ∪ visited -> x ∉ {[node]} ∪ visited ->
                             expanded graph ({[node]} ∪ visited) x) by (intros; contradiction).
      specialize (Hloop H1 H2 H3 H4).
      destruct (fold_left _ all_neighbours _) as [after| |].
      * destruct Hloop as (Hgrow & Hs & Hc & Hall).
        split; [exact Hgrow|]. split; [exact Hs|].
        intros x Hx [->|Hxv].
        -- exists all_neighbours. split; [exact Hkey|exact Hall].
        -- destruct (decide (x = node)) as [->|Hxn].
           ++ exists all_neighbours. split; [exact Hkey|exact Hall].
           ++ apply Hc; [exact Hx|]. intros Hin.
              apply elem_of_union in Hin as [Hin|Hin]; [|contradiction].
              apply elem_of_singleton in Hin. contradiction.
      * exact Hloop.
      * destruct (decide (node ∈ visited)) as [Hseen|Hnew].
        -- pose proof (unvisited_mono visited ({[node]} ∪ visited)
                         ltac:(set_solver)). lia.
        -- pose proof (unvisited_add visited node ltac:(eauto) Hnew). lia.
    + exists node. split; [apply reach_here|exact Hkey].
Qed.

Lemma reach_stays_inside (before after : gset nat) :
  (forall x, x ∈ after -> x ∉ before -> expanded graph after x) ->
  forall a b, reach graph before a b ->
  a ∈ after /\ expanded graph after a -> b ∈ after /\ expanded graph after b.
Proof.
  intros Hclosed a b. induction 1 as [a|a neighbours n b Hkey Hn Hnew _ IH].
  - auto.
  - intros [_ (neighbours' & Hkey' & Hall)]. apply IH.
    rewrite Hkey in Hkey'. injection Hkey' as <-.
    assert (Hin : n ∈ after) by (apply Hall, Hn).
    split; [exact Hin|]. apply Hclosed; assumption.
Qed.

Lemma reach_in_searched (before after : gset nat) (node : nat) :
  searched graph before node after ->
  forall b, reach graph before node b -> b ∈ after /\ expanded graph after b.
Proof.
  intros (Hsub & _ & Hclosed) b Hreach.
  apply (reach_stays_inside before after) with (a := node).
  - intros x Hx Hxb. apply Hclosed; [exact Hx|right; exact Hxb].
  - exact Hreach.
  - assert (Hin : node ∈ after) by set_solver.
    split; [exact Hin|]. apply Hclosed; [exact Hin|left; reflexivity].
Qed.

Lemma unvisited_bound (visited : gset nat) :
  (unvisited graph visited <= size graph)%nat.
Proof.
  unfold unvisited. rewrite <- (size_dom (D := gset nat) graph).
  apply subseteq_size, subseteq_difference_l. reflexivity.
Qed.

(** X20: when [dfs] returns, the visited set has grown by exactly the nodes
    that can be reached from [node] along edges of the graph through nodes
    that were not visited before; nothing is ever removed from it.  With an
    empty set to start with, [dfs] collects the nodes reachable from
    [node]. *)
Theorem dfs_collects_reachable (fuel : nat) (node : nat) (visited after : gset nat) :
  dfs fuel graph node visited = Returned after ->
  forall b, b ∈ after <-> b ∈ visited \/ reach graph visited node b.
Proof.
  intros Hrun b. pose proof (dfs_spec fuel node visited) as Hspec.
  rewrite Hrun in Hspec. split.
  - intros Hb. destruct (decide (b ∈ visited)) as [Hseen|Hnew]; [left; exact Hseen|].
    right. destruct Hspec as (_ & Hsound & _). apply Hsound; assumption.
  - intros [Hseen|Hreach].
    + destruct Hspec as (Hsub & _). set_solver.
    + apply (reach_in_searched visited after node Hspec b Hreach).
Qed.

(** X21: [dfs] returns exactly when every node it can reach (through nodes
    not visited before) is a key of the graph, and raises a [KeyError]
    exactly when one of them is not; a recursion depth of two more than the
    number of keys is enough for either. *)
Theorem dfs_returns_iff (fuel : nat) (node : nat) (visited : gset nat) :
  (size graph + 2 <= fuel)%nat ->
  (exists after,
     dfs fuel graph node visited = Returned after /\
     forall b, reach graph visited node b -> is_Some (graph !! b)) \/
  (exists partial b,
     dfs fuel graph node visited = KeyError partial /\
     reach graph visited node b /\ graph !! b = None).
Proof.
  intros Hfuel. pose proof (dfs_spec fuel node visited) as Hspec.
  destruct (dfs fuel graph node visited) as [after|partial|].
  - left. exists after. split; [reflexivity|]. intros b Hreach.
    destruct (reach_in_searched visited after node Hspec b Hreach)
      as [_ (neighbours & Hkey & _)].
    rewrite Hkey. eauto.
  - right. destruct Hspec as (b & Hreach & Hmissing).
    exists partial, b. auto.
  - exfalso. pose proof (unvisited_bound visited).
    destruct (decide (node ∈ visited)); lia.
Qed.

End SearchTheory.

Section SearchRuns.
Import GraphSearch.

(** The component of node 0 in a graph of two components. *)
Lemma dfs_collects_reachable_witness :
  dfs 8 two_components 0 ∅ = Returned (list_to_set [0; 1; 2; 3]%nat) /\
  forall b,
    b ∈ (list_to_set [0; 1; 2; 3]%nat : gset nat) <->
    b ∈ (∅ : gset nat) \/ reach two_components ∅ 0%nat b.
Proof.
  assert (Hrun : dfs 8 two_components 0 ∅ = Returned (list_to_set [0; 1; 2; 3]%nat)).
  { vm_compute. reflexivity. }
  split; [exact Hrun|].
  exact (dfs_collects_reachable two_components 8 0%nat ∅ _ Hrun).
Defined.

(** Node 1 of the second graph has a neighbour that is no key. *)
Lemma dfs_returns_iff_witness :
  (exists after,
     dfs 5 dangling 0 ∅ = Returned after /\
     forall b, reach dangling ∅ 0%nat b -> is_Some (dangling !! b)) \/
  (exists partial b,
     dfs 5 dangling 0 ∅ = KeyError partial /\
     reach dangling ∅ 0%nat b /\ dangling !! b = None).
Proof.
  apply (dfs_returns_iff dangling 5 0%nat ∅). vm_compute. lia.
Defined.

Example dfs_skips_visited :
  dfs 8 two_components 2 {[0%nat]} = Returned (list_to_set [0; 2; 3]%nat).
Proof. vm_compute. reflexivity. Qed.

Example dfs_key_error_keeps_visited :
  dfs 5 dangling 0 ∅ = KeyError (list_to_set [0; 1; 2; 7]%nat).
Proof. vm_compute. reflexivity. Qed.

End SearchRuns.

(** ** Further properties of heart_model.py *)

Section BoundaryConditionTheory.
Import PyNum BoundaryConditions.

Lemma lookup_get_bc_params (bc_params : option (gmap string Q)) (key : string) :
  _get_bc_params bc_params !! key =
  (fun dv => default dv (default ∅ bc_params !! key)) <$> (get_default_bc_params !! key).
Proof.
  assert (Hdef : forall o : option Q,
             o = (fun dv => default dv ((∅ : gmap string Q) !! key)) <$> o).
  { intros [dv|]; cbn; [rewrite lookup_empty|]; reflexivity. }
  destruct bc_params as [d|]; unfold _get_bc_params; cbn [default from_option id].
  - destruct (Nat.eqb (size d) 0) eqn:Hsz; cbn [negb].
    + apply Nat.eqb_eq, map_size_empty_iff in Hsz. subst d. apply Hdef.
    + rewrite map_lookup_imap.
      destruct (get_default_bc_params !! key); reflexivity.
  - apply Hdef.
Qed.

(** The run of [_robin_bc] on a dictionary that holds both springs. *)
Lemma robin_bc_run (bc : gmap string Q) (markers : gmap string (list nat)) (peri bs : Q) :
  bc !! "pericardium_spring" = Some peri ->
  bc !! "base_spring" = Some bs ->
  _robin_bc bc markers =
  (robin_bc ← (if positive peri
               then m ← marker_of markers "EPI"; Some [mkRobinBC peri m]
               else Some []);
   if positive bs
   then m ← marker_of markers "BASE"; Some (robin_bc ++ [mkRobinBC bs m])
   else Some robin_bc).
Proof.
  intros Hp Hb. unfold _robin_bc. rewrite Hp. cbn [mbind option_bind].
  destruct (if positive peri then _ else _) as [robin|]; [|reflexivity].
  cbn [mbind option_bind]. rewrite Hb. reflexivity.
Qed.

(** X6: whatever dictionary the caller passes to the constructor ([None],
    empty, with keys missing or with extra keys), [_robin_bc] on the
    parameters merged by [_get_bc_params] finds both springs, and on a
    geometry with an EPI and a BASE marker it returns the epicardial spring
    and then the basal spring, each present exactly when its stiffness (the
    caller's value, 0 when the caller gave none) is positive.  When neither
    is positive (the defaults in particular) the result is empty and no
    marker is looked up, so it is empty on any marker table. *)
Theorem robin_bc_after_get_bc_params
    (bc_params : option (gmap string Q)) (markers : gmap string (list nat)) :
  let given := default ∅ bc_params in
  let peri := default 0%Q (given !! "pericardium_spring") in
  let bs := default 0%Q (given !! "base_spring") in
  (forall epi base,
     marker_of markers "EPI" = Some epi ->
     marker_of markers "BASE" = Some base ->
     _robin_bc (_get_bc_params bc_params) markers
     = Some ((if positive peri then [mkRobinBC peri epi] else [])
             ++ (if positive bs then [mkRobinBC bs base] else []))) /\
  (positive peri = false -> positive bs = false ->
   _robin_bc (_get_bc_params bc_params) markers = Some []) /\
  _robin_bc (_get_bc_params None) markers = Some [] /\
  _robin_bc (_get_bc_params (Some ∅)) markers = Some [].
Proof.
  intros given peri bs.
  assert (Hp : _get_bc_params bc_params !! "pericardium_spring" = Some peri).
  { rewrite lookup_get_bc_params. reflexivity. }
  assert (Hb : _get_bc_params bc_params !! "base_spring" = Some bs).
  { rewrite lookup_get_bc_params. reflexivity. }
  split; [|split; [|split]].
  - intros epi base He Hba. rewrite (robin_bc_run _ _ _ _ Hp Hb), He, Hba.
    destruct (positive peri), (positive bs); reflexivity.
  - intros Hnp Hnb. rewrite (robin_bc_run _ _ _ _ Hp Hb), Hnp, Hnb. reflexivity.
  - reflexivity.
  - reflexivity.
Qed.

(** A caller who gives only the epicardial spring, and a negative basal
    spring, on the geometry [create_geometry] builds. *)
Lemma robin_bc_after_get_bc_params_witness :
  _robin_bc (_get_bc_params (Some {[ "pericardium_spring" := (1 # 2)%Q ]}))
            geometry_markers
  = Some [mkRobinBC (1 # 2) 7] /\
  _robin_bc (_get_bc_params (Some {[ "base_spring" := (- (1))%Q ]})) ∅ = Some [].
Proof.
  destruct (robin_bc_after_get_bc_params
              (Some {[ "pericardium_spring" := (1 # 2)%Q ]}) geometry_markers)
    as (Hboth & _).
  destruct (robin_bc_after_get_bc_params
              (Some {[ "base_spring" := (- (1))%Q ]}) ∅)
    as (_ & Hnone & _).
  split.
  - apply (Hboth 7%nat 5%nat); reflexivity.
  - apply Hnone; reflexivity.
Defined.

End BoundaryConditionTheory.

Section SegmentTheory.
Import PyNum HeartModel Segments DriverExamples.

Lemma vector_take_cons (vector : list Q) (i : nat) (indices : list nat) (v : Q)
    (vs : list Q) :
  vector !! i = Some v -> vector_take vector indices = Some vs ->
  vector_take vector (i :: indices) = Some (v :: vs).
Proof.
  unfold vector_take. cbn [mapM]. intros -> ->. reflexivity.
Qed.

(** Taking the vector at the positions of a marker gives the values of the
    cells that carry it. *)
Lemma vector_take_where (m : nat) (cfun : list nat) :
  forall (pre vs : list Q),
  (length cfun <= length vs)%nat ->
  vector_take (pre ++ vs) (np_where_eq cfun m (length pre))
  = Some (cells_marked m cfun vs).
Proof.
  induction cfun as [|c cs IH]; intros pre vs Hlen; [reflexivity|].
  destruct vs as [|v vs]; [cbn in Hlen; lia|].
  cbn [length] in Hlen.
  assert (Hrest : vector_take (pre ++ v :: vs) (np_where_eq cs m (S (length pre)))
                  = Some (cells_marked m cs vs)).
  { replace (pre ++ v :: vs) with ((pre ++ [v]) ++ vs) by (rewrite <- app_assoc; reflexivity).
    replace (S (length pre)) with (length (pre ++ [v]))
      by (rewrite length_app; cbn; lia).
    apply IH. lia. }
  unfold cells_marked. cbn [np_where_eq zip zip_with].
  rewrite filter_cons. cbn [fst].
  destruct (Nat.eqb c m) eqn:Hc.
  - apply Nat.eqb_eq in Hc. rewrite decide_True by exact Hc. cbn [map snd].
    apply vector_take_cons; [|exact Hrest].
    rewrite lookup_app_r by lia. rewrite Nat.sub_diag. reflexivity.
  - apply Nat.eqb_neq in Hc. rewrite decide_False by exact Hc. exact Hrest.
Qed.

(** The run of the loop when the vector has a value for every cell. *)
Lemma segment_values_run (cfun : list nat) (vector : list Q) :
  (length cfun <= length vector)%nat ->
  segment_values cfun vector
  = Some (map (fun n => cells_marked (n + 1) cfun vector) (seq 0 (num_segments cfun))).
Proof.
  intros Hlen. unfold segment_values.
  apply mapM_all_defined. apply Forall_forall. intros n _.
  apply (vector_take_where (n + 1) cfun [] vector Hlen).
Qed.

Lemma length_cells_marked (m : nat) (cfun : list nat) :
  forall vector : list Q,
  (length cfun <= length vector)%nat ->
  length (cells_marked m cfun vector) = length (filter (fun c => c = m) cfun).
Proof.
  unfold cells_marked.
  induction cfun as [|c cs IH]; intros [|v vs] Hlen; cbn in Hlen; try lia;
    [reflexivity|reflexivity|].
  cbn [zip zip_with]. rewrite !filter_cons. cbn [fst].
  destruct (decide (c = m)); cbn [map length]; rewrite IH by lia; reflexivity.
Qed.

Lemma count_next_bucket (k : nat) (cfun : list nat) :
  (length (filter (fun c => 1 <= c <= k)%nat cfun)
   + length (filter (fun c => c = k + 1)%nat cfun))%nat
  = length (filter (fun c => 1 <= c <= S k)%nat cfun).
Proof.
  induction cfun as [|c cs IHc]; [reflexivity|].
  rewrite !filter_cons.
  destruct (decide (1 <= c <= k)%nat), (decide (c = k + 1)%nat),
    (decide (1 <= c <= S k)%nat); cbn [length]; lia.
Qed.

(** Over the markers 1..k a cell is counted once when its marker lies in
    1..k and never otherwise. *)
Lemma count_over_buckets (k : nat) (cfun : list nat) :
  length (concat (map (fun n => filter (fun c => c = n + 1)%nat cfun) (seq 0 k)))
  = length (filter (fun c => 1 <= c <= k)%nat cfun).
Proof.
  induction k as [|k IH].
  - cbn [seq map concat length].
    induction cfun as [|c cs IHc]; [reflexivity|].
    rewrite filter_cons. rewrite decide_False by lia. exact IHc.
  - rewrite seq_S, map_app, concat_app, length_app, IH. cbn [map concat Nat.add].
    rewrite app_nil_r. apply count_next_bucket.
Qed.

Lemma length_concat_map {A B C} (f : A -> list B) (g : A -> list C) (l : list A) :
  (forall a, length (f a) = length (g a)) ->
  length (concat (map f l)) = length (concat (map g l)).
Proof.
  intros Hfg. induction l as [|a l IH]; [reflexivity|].
  cbn [map concat]. rewrite !length_app, IH, Hfg. reflexivity.
Qed.

Lemma length_filter_all {A} (P : A -> Prop) `{forall a, Decision (P a)} (l : list A) :
  length (filter P l) = length l <-> Forall P l.
Proof.
  induction l as [|a l IH]; [split; constructor|].
  rewrite filter_cons. pose proof (length_filter P l) as Hle.
  destruct (decide (P a)) as [Ha|Ha]; cbn [length].
  - split.
    + intros Hl. constructor; [exact Ha|]. apply IH. lia.
    + intros Hall. f_equal. apply IH. apply (Forall_inv_tail Hall).
  - split; [lia|]. intros Hall. exfalso. apply Ha, (Forall_inv Hall).
Qed.

(** X7: with one value per cell, the segment loop returns one bucket per
    distinct cell marker; bucket [n] holds, in cell order, the values of the
    cells marked [n + 1].  A cell whose marker is 0 or exceeds the number of
    distinct markers lands in no bucket: the record holds every cell's value
    exactly when all markers lie between 1 and the number of distinct
    markers. *)
Theorem segment_values_buckets (cfun : list nat) (vector : list Q) :
  length vector = length cfun ->
  exists buckets,
    segment_values cfun vector = Some buckets /\
    length buckets = num_segments cfun /\
    (forall n, (n < num_segments cfun)%nat ->
               buckets !! n = Some (cells_marked (n + 1) cfun vector)) /\
    length (concat buckets) = length (filter (bucketed cfun) cfun) /\
    (length (concat buckets) = length cfun <-> Forall (bucketed cfun) cfun).
Proof.
  intros Hlen.
  assert (Hle : (length cfun <= length vector)%nat) by lia.
  exists (map (fun n => cells_marked (n + 1) cfun vector) (seq 0 (num_segments cfun))).
  split; [apply segment_values_run, Hle|].
  split; [rewrite length_map; apply length_seq|].
  assert (Hcount :
    length (concat (map (fun n => cells_marked (n + 1) cfun vector)
                        (seq 0 (num_segments cfun))))
    = length (filter (bucketed cfun) cfun)).
  { rewrite (length_concat_map _ (fun n => filter (fun c => c = n + 1)%nat cfun)).
    - apply count_over_buckets.
    - intros n. apply length_cells_marked, Hle. }
  split; [|split].
  - intros n Hn. rewrite list_lookup_fmap, lookup_seq_lt by exact Hn. reflexivity.
  - exact Hcount.
  - rewrite Hcount. apply length_filter_all.
Qed.

(** Markers 0, 1, 1, 3: three distinct markers, so buckets for 1, 2 and 3;
    the cell marked 0 is dropped. *)
Lemma segment_values_buckets_witness :
  exists buckets,
    segment_values [0; 1; 1; 3]%nat [10; 11; 12; 13]%Q = Some buckets /\
    buckets !! 0%nat = Some [11; 12]%Q /\
    buckets !! 1%nat = Some [] /\
    buckets !! 2%nat = Some [13]%Q /\
    length (concat buckets) <> 4%nat.
Proof.
  destruct (segment_values_buckets [0; 1; 1; 3]%nat [10; 11; 12; 13]%Q eq_refl)
    as (buckets & Hrun & _ & Hn & _ & Hall).
  exists buckets. split; [exact Hrun|].
  assert (Hk : num_segments [0; 1; 1; 3]%nat = 3%nat) by (vm_compute; reflexivity).
  split; [|split; [|split]].
  - rewrite Hn by (rewrite Hk; lia). reflexivity.
  - rewrite Hn by (rewrite Hk; lia). reflexivity.
  - rewrite Hn by (rewrite Hk; lia). reflexivity.
  - intros Hfull. apply Hall in Hfull.
    apply Forall_inv in Hfull. unfold bucketed in Hfull. lia.
Defined.

(** X8: a call of [_compute_fiber_strain] or [_compute_myocardial_work]
    whose projection has one value per cell appends exactly one record, the
    buckets of the segment loop, to [self.E_ff] or [self.myocardial_work];
    the records of earlier calls stay in front of it, the other record list
    and every other attribute are left alone, and the projected strain (the
    work expression) is returned. *)
Theorem segment_records_append_only
    {State Field Tensor Expr : Type} (cfun : list nat)
    (fiber_strain : Tensor -> Field -> list Q)
    (work_expression : Tensor -> Field -> Expr) (work_values : Expr -> list Q)
    (u : Field) (w : @World State Field Tensor) :
  (length (fiber_strain (F0 (self w)) u) = length cfun ->
   exists record w',
     _compute_fiber_strain cfun fiber_strain u w
     = (w', inr (fiber_strain (F0 (self w)) u)) /\
     segment_values cfun (fiber_strain (F0 (self w)) u) = Some record /\
     E_ff (self w') = E_ff (self w) ++ [record] /\
     myocardial_work (self w') = myocardial_work (self w) /\
     load (self w') = load (self w) /\ F0 (self w') = F0 (self w) /\
     t (self w') = t (self w) /\ files w' = files w) /\
  (length (work_values (work_expression (F0 (self w)) u)) = length cfun ->
   exists record w',
     _compute_myocardial_work cfun work_expression work_values u w
     = (w', inr (work_expression (F0 (self w)) u)) /\
     segment_values cfun (work_values (work_expression (F0 (self w)) u))
     = Some record /\
     myocardial_work (self w') = myocardial_work (self w) ++ [record] /\
     E_ff (self w') = E_ff (self w) /\
     load (self w') = load (self w) /\ F0 (self w') = F0 (self w) /\
     t (self w') = t (self w) /\ files w' = files w).
Proof.
  split; intros Hlen.
  - assert (Hle : (length cfun <= length (fiber_strain (F0 (self w)) u))%nat) by lia.
    pose proof (segment_values_run cfun _ Hle) as Hrun.
    eexists. eexists. unfold _compute_fiber_strain. rewrite Hrun.
    split; [reflexivity|]. cbn [self E_ff myocardial_work load F0 t files].
    repeat split.
  - assert (Hle : (length cfun
                   <= length (work_values (work_expression (F0 (self w)) u)))%nat) by lia.
    pose proof (segment_values_run cfun _ Hle) as Hrun.
    eexists. eexists. unfold _compute_myocardial_work. rewrite Hrun.
    split; [reflexivity|]. cbn [self E_ff myocardial_work load F0 t files].
    repeat split.
Qed.

(** Two strain records in a row on the example driver, two cells marked 1
    and 2. *)
Lemma segment_records_append_only_witness :
  exists w1 w2,
    _compute_fiber_strain [1; 2]%nat (fun F0 u => [F0; u]) 5%Q fresh = (w1, inr [1; 5]%Q) /\
    _compute_fiber_strain [1; 2]%nat (fun F0 u => [F0; u]) 6%Q w1 = (w2, inr [1; 6]%Q) /\
    E_ff (self w2) = [[[1]; [5]]; [[1]; [6]]]%Q.
Proof.
  destruct (segment_records_append_only (Expr := Q) [1; 2]%nat
              (fun F0 u : Q => [F0; u]) (fun F0 u : Q => u) (fun e : Q => [e])
              5%Q fresh) as (Hstrain1 & _).
  destruct (Hstrain1 eq_refl)
    as (r1 & w1 & Hrun1 & Hrec1 & Heff1 & _ & _ & HF1 & _).
  destruct (segment_records_append_only (Expr := Q) [1; 2]%nat
              (fun F0 u : Q => [F0; u]) (fun F0 u : Q => u) (fun e : Q => [e])
              6%Q w1) as (Hstrain2 & _).
  rewrite HF1 in Hstrain2.
  destruct (Hstrain2 eq_refl)
    as (r2 & w2 & Hrun2 & Hrec2 & Heff2 & _).
  exists w1, w2. split; [exact Hrun1|]. split; [exact Hrun2|].
  rewrite Heff2, Heff1.
  vm_compute in Hrec1. vm_compute in Hrec2.
  injection Hrec1 as <-. injection Hrec2 as <-. reflexivity.
Defined.

End SegmentTheory.

Section LoadingAndSaving.
Import PyNum HeartModel DriverExamples.

Context {State Field Tensor : Type}.
Implicit Types pulse : @Backend State Field Tensor.

(** X9: [initial_loading] changes the strain reference only on success.
    When the two continuations of [compute_volume(0, EDP)] converge, the
    call returns the cavity volume of the loaded state and sets [F0] to the
    deformation gradient of the displacement of that state, leaving the
    records, the step counter and the files alone; when [compute_volume]
    raises, the exception propagates and [F0] is the one from before the
    call. *)
Theorem initial_loading_sets_reference pulse (EDP : Q) (w : World) :
  (forall l1 l2,
     iterate pulse Activation 0 (the_load w) = Converged l1 ->
     iterate pulse Pressure EDP l1 = Converged l2 ->
     exists w',
       initial_loading pulse EDP w = (w', inr (cavity_volume pulse (state l2))) /\
       load (self w') = l2 /\
       F0 (self w') = deformation_gradient pulse (split_u pulse (state l2)) /\
       E_ff (self w') = E_ff (self w) /\
       myocardial_work (self w') = myocardial_work (self w) /\
       t (self w') = t (self w) /\ files w' = files w) /\
  (forall w' e,
     compute_volume pulse 0 EDP w = (w', inl e) ->
     initial_loading pulse EDP w = (w', inl e) /\ F0 (self w') = F0 (self w)).
Proof.
  split.
  - destruct w as [[l f e m n] fs]. intros l1 l2 H1 H2. eexists.
    unfold initial_loading, bind, gets, modify, ret.
    rewrite compute_volume_run, H1, H2.
    cbn. split; [reflexivity|]. repeat split.
  - intros w' e Hfail. unfold initial_loading, bind. rewrite Hfail.
    split; [reflexivity|].
    rewrite compute_volume_run in Hfail.
    destruct (iterate pulse Activation 0 (the_load w)) as [l1|l1].
    + destruct (iterate pulse Pressure EDP l1) as [l2|l2]; [discriminate|].
      injection Hfail as <- _. destruct w as [[l f e' m n] fs]. reflexivity.
    + injection Hfail as <- _. destruct w as [[l f e' m n] fs]. reflexivity.
Qed.

End LoadingAndSaving.

Section LoadingRuns.
Import PyNum HeartModel DriverExamples.

(** Loading the example driver to a pressure of 8, and a loading that
    fails. *)
Lemma initial_loading_sets_reference_witness :
  (exists w',
     initial_loading toy 8 fresh = (w', inr 108%Q) /\
     F0 (self w') = (1 + (8 - 0))%Q) /\
  (exists w',
     initial_loading toy_fails 8 fresh = (w', inl SolverDidNotConverge) /\
     F0 (self w') = 1%Q).
Proof.
  destruct (initial_loading_sets_reference toy 8 fresh) as (Hok & _).
  destruct (initial_loading_sets_reference toy_fails 8 fresh) as (_ & Hfail).
  split.
  - destruct (Hok (mkLoad 0 0 (0 - 0))%Q (mkLoad 0 8 (8 - 0))%Q) as (w' & Hrun & _ & HF & _).
    + vm_compute. reflexivity.
    + vm_compute. reflexivity.
    + exists w'. split; [|exact HF]. rewrite Hrun. vm_compute. reflexivity.
  - destruct (Hfail (fst (compute_volume toy_fails 0 8 fresh)) SolverDidNotConverge)
      as (Hrun & HF).
    + vm_compute. reflexivity.
    + eexists. split; [exact Hrun | exact HF].
Defined.

End LoadingRuns.

Section SavingTheory.
Import PyNum HeartModel TimeLoop DriverExamples.

Context {State Field Tensor : Type}.
Implicit Types pulse : @Backend State Field Tensor.

(** What one call of [save] does when the debugger hands control back. *)
Lemma save_effect pulse (time_index : Q) (outdir : string) (w : World) :
  debugger_continues pulse = true ->
  exists w',
    save pulse time_index outdir w = (w', inr tt) /\
    files w' !! (outdir, "results.xdmf")
    = Some (default [] (files w !! (outdir, "results.xdmf"))
            ++ [mkCheckpoint "u" (time_index + 1)%Q
                  (split_u pulse (state (the_load w)))]) /\
    files w' !! (outdir, "results_E.xdmf")
    = Some (default [] (files w !! (outdir, "results_E.xdmf"))
            ++ [mkCheckpoint "E" (time_index + 1)%Q
                  (project_green_strain pulse (F0 (self w))
                     (split_u pulse (state (the_load w))))]) /\
    files w' !! (outdir, "activation.xdmf")
    = Some (default [] (files w !! (outdir, "activation.xdmf"))
            ++ [mkCheckpoint "activation" (time_index + 1)%Q
                  (activation_function pulse (activation (the_load w)))]) /\
    t (self w') = S (t (self w)) /\
    load (self w') = load (self w) /\ F0 (self w') = F0 (self w).
Proof.
  intros Hdbg. destruct w as [[l f e m n] fs].
  eexists. split.
  - unfold save, write_checkpoint, breakpoint, bind, gets, modify, the_load.
    rewrite Hdbg.
    cbn [self load files F0 E_ff myocardial_work t fst snd ret]. reflexivity.
  - cbn [self load files F0 E_ff myocardial_work t fst snd the_load].
    repeat split.
    + rewrite lookup_insert_ne by (intros [=]).
      rewrite lookup_insert_ne by (intros [=]).
      rewrite lookup_insert_eq. reflexivity.
    + rewrite lookup_insert_ne by (intros [=]).
      rewrite lookup_insert_eq.
      rewrite lookup_insert_ne by (intros [=]). reflexivity.
    + rewrite lookup_insert_eq.
      rewrite lookup_insert_ne by (intros [=]).
      rewrite lookup_insert_ne by (intros [=]). reflexivity.
Qed.

(** X10: saving once per time index, with the debugger handing control
    back each time, writes the records in call order: the contents of each
    of the three files (nothing, for a file that does not exist yet) are
    followed by one record per time index [t], keyed [t + 1]; the step
    counter grows by the number of calls; the load and the strain reference
    are untouched, so every record of the run holds the same displacement,
    strain and activation. *)
Theorem save_each_appends_in_order pulse (time_indices : list Q) (outdir : string) :
  debugger_continues pulse = true ->
  forall w : World,
  exists w',
    save_each pulse time_indices outdir w = (w', inr tt) /\
    default [] (files w' !! (outdir, "results.xdmf"))
    = default [] (files w !! (outdir, "results.xdmf"))
      ++ map (fun time_index =>
                mkCheckpoint "u" (time_index + 1)%Q
                  (split_u pulse (state (the_load w))))
             time_indices /\
    default [] (files w' !! (outdir, "results_E.xdmf"))
    = default [] (files w !! (outdir, "results_E.xdmf"))
      ++ map (fun time_index =>
                mkCheckpoint "E" (time_index + 1)%Q
                  (project_green_strain pulse (F0 (self w))
                     (split_u pulse (state (the_load w)))))
             time_indices /\
    default [] (files w' !! (outdir, "activation.xdmf"))
    = default [] (files w !! (outdir, "activation.xdmf"))
      ++ map (fun time_index =>
                mkCheckpoint "activation" (time_index + 1)%Q
                  (activation_function pulse (activation (the_load w))))
             time_indices /\
    t (self w') = (t (self w) + length time_indices)%nat /\
    load (self w') = load (self w) /\ F0 (self w') = F0 (self w).
Proof.
  intros Hdbg.
  induction time_indices as [|time_index rest IH]; intros w.
  - exists w. cbn [save_each fold_right map length]. unfold ret.
    rewrite !app_nil_r, Nat.add_0_r. repeat split.
  - destruct (save_effect pulse time_index outdir w Hdbg)
      as (w1 & Hrun1 & Hu1 & HE1 & Ha1 & Ht1 & Hl1 & HF1).
    destruct (IH w1) as (w' & Hrun & Hu & HE & Ha & Ht & Hl & HF).
    exists w'. split.
    + cbn [save_each fold_right]. unfold bind at 1. rewrite Hrun1. exact Hrun.
    + unfold the_load in *. rewrite Hl1, HF1 in *.
      rewrite Hu1 in Hu. rewrite HE1 in HE. rewrite Ha1 in Ha.
      cbn [default from_option id] in Hu, HE, Ha.
      rewrite Hu, HE, Ha, Ht, Ht1, Hl, HF. cbn [map length].
      rewrite <- !app_assoc. cbn [app].
      repeat split. lia.
Qed.

End SavingTheory.

Section SavingRuns.
Import PyNum HeartModel TimeLoop DriverExamples.

(** Three time steps saved on the example driver. *)
Lemma save_each_appends_in_order_witness :
  exists w',
    save_each toy [0; 1; 2]%Q "results" fresh = (w', inr tt) /\
    map time (default [] (files w' !! ("results", "results_E.xdmf")))
    = [0 + 1; 1 + 1; 2 + 1]%Q /\
    t (self w') = 3%nat.
Proof.
  destruct (save_each_appends_in_order toy [0; 1; 2]%Q "results" eq_refl fresh)
    as (w' & Hrun & _ & HE & _ & Ht & _).
  exists w'. split; [exact Hrun|]. split.
  - rewrite HE. reflexivity.
  - rewrite Ht. reflexivity.
Defined.

End SavingRuns.

(** ** Properties of the cycles, the slicing and the script of pv_data.py *)

Section CycleTheory.
Import PyNum PVData PVPipeline.

Variable find_peaks : list Q -> list nat.

Lemma slice_app {A} (l : list A) (a b c : nat) :
  (a <= b)%nat -> (b <= c)%nat -> slice l a b ++ slice l b c = slice l a c.
Proof.
  intros Hab Hbc. unfold slice.
  replace (drop b l) with (drop (b - a) (drop a l)).
  - rewrite take_take_drop. f_equal. lia.
  - rewrite drop_drop. f_equal. lia.
Qed.

Lemma length_slice {A} (l : list A) (a b : nat) :
  (b <= length l)%nat -> length (slice l a b) = (b - a)%nat.
Proof. intros Hb. unfold slice. rewrite length_take, length_drop. lia. Qed.

Lemma divide_loop (peaks : list nat) (pres vols : list Q) (indices : list nat) :
  forall pres_divided vols_divided,
  Forall (fun i => S i < length peaks)%nat indices ->
  fold_left
    (fun divided i =>
       '(pres_divided, vols_divided) ← divided;
       lo ← peaks !! i;
       hi ← peaks !! (i + 1)%nat;
       Some (pres_divided ++ [slice pres lo hi],
             vols_divided ++ [slice vols lo hi]))
    indices (Some (pres_divided, vols_divided))
  = Some (pres_divided ++ map (cycle peaks pres) indices,
          vols_divided ++ map (cycle peaks vols) indices).
Proof.
  induction indices as [|i indices IH]; intros pd vd Hin.
  - cbn. rewrite !app_nil_r. reflexivity.
  - cbn [fold_left map].
    pose proof (Forall_inv Hin) as Hi. cbn beta in Hi.
    destruct (lookup_lt_is_Some_2 peaks i ltac:(lia)) as [lo Hlo].
    destruct (lookup_lt_is_Some_2 peaks (i + 1) ltac:(lia)) as [hi Hhi].
    cbn [mbind option_bind]. rewrite Hlo, Hhi. cbn [mbind option_bind].
    rewrite IH by apply (Forall_inv_tail Hin).
    unfold cycle.
    rewrite (nth_lookup_Some _ _ _ _ Hlo).
    replace (S i) with (i + 1)%nat by lia.
    rewrite (nth_lookup_Some _ _ _ _ Hhi).
    rewrite <- !app_assoc. reflexivity.
Qed.

Lemma divide_pv_data_run (pres vols : list Q) :
  let peaks := find_peaks pres in
  divide_pv_data find_peaks pres vols
  = Some (map (cycle peaks pres) (seq 0 (length peaks - 1)),
          map (cycle peaks vols) (seq 0 (length peaks - 1))).
Proof.
  intros peaks. unfold divide_pv_data. fold peaks.
  rewrite divide_loop; [reflexivity|].
  apply Forall_forall. intros i Hi. apply elem_of_seq in Hi. lia.
Qed.

Lemma sorted_nth_lt (peaks : list nat) (step : nat) :
  Sorted (fun a b => a + step <= b)%nat peaks ->
  forall i, (S i < length peaks)%nat ->
  (nth i peaks 0 + step <= nth (S i) peaks 0)%nat.
Proof.
  induction 1 as [|a peaks Hs IH Hhd]; intros i Hi; cbn [length] in Hi; [lia|].
  destruct i as [|i].
  - destruct Hhd as [|b peaks Hab]; cbn [length] in Hi; [lia|]. exact Hab.
  - cbn [nth]. apply IH. lia.
Qed.

Lemma concat_cycles (peaks : list nat) (l : list Q) (k : nat) :
  Sorted (fun a b => a + 0 <= b)%nat peaks ->
  (k < length peaks)%nat ->
  concat (map (cycle peaks l) (seq 0 k)) = slice l (nth 0 peaks 0%nat) (nth k peaks 0%nat).
Proof.
  intros Hsorted. induction k as [|k IH]; intros Hk.
  - cbn. unfold slice. rewrite Nat.sub_diag. reflexivity.
  - rewrite seq_S, map_app, concat_app. cbn [Nat.add map concat].
    rewrite app_nil_r, IH by lia. unfold cycle.
    apply slice_app.
    + clear IH. induction k as [|k IHk]; [lia|].
      pose proof (sorted_nth_lt peaks 0 Hsorted k ltac:(lia)). 
      specialize (IHk ltac:(lia)). lia.
    + pose proof (sorted_nth_lt peaks 0 Hsorted k ltac:(lia)). lia.
Qed.

Lemma sorted_weaken (peaks : list nat) (step step' : nat) :
  (step' <= step)%nat ->
  Sorted (fun a b => a + step <= b)%nat peaks ->
  Sorted (fun a b => a + step' <= b)%nat peaks.
Proof.
  intros Hle. induction 1 as [|a peaks Hs IH Hhd]; constructor; [exact IH|].
  destruct Hhd; constructor. lia.
Qed.

(** X11: [divide_pv_data] never raises, whatever the peak finder returns:
    the two lists it returns hold one cycle for each pair of consecutive
    peaks, [len(peaks) - 1] cycles each, and none at all when fewer than two
    peaks are found. *)
Theorem divide_pv_data_never_raises (pres vols : list Q) :
  exists pres_divided vols_divided,
    divide_pv_data find_peaks pres vols = Some (pres_divided, vols_divided) /\
    length pres_divided = (length (find_peaks pres) - 1)%nat /\
    length vols_divided = (length (find_peaks pres) - 1)%nat /\
    ((length (find_peaks pres) < 2)%nat <->
     pres_divided = [] /\ vols_divided = []).
Proof.
  eexists _, _. split; [apply divide_pv_data_run|].
  rewrite !length_map, !length_seq. split; [reflexivity|]. split; [reflexivity|].
  split.
  - intros Hfew. replace (length (find_peaks pres) - 1)%nat with 0%nat by lia.
    split; reflexivity.
  - intros [Hnone _]. apply (f_equal length) in Hnone.
    rewrite length_map, length_seq in Hnone. cbn in Hnone. lia.
Qed.

(** X12: when the peaks are ascending indices of the pressure trace, the
    cycles are consecutive pieces of the traces: put end to end they are
    the trace from the first peak up to (not including) the last one, so
    no sample in between is lost or repeated, cycle [i] has
    [peaks[i+1] - peaks[i]] samples, and the pressure and volume cycles of
    traces of the same length have the same lengths. *)
Theorem divide_pv_data_contiguous (pres vols : list Q) :
  Sorted lt (find_peaks pres) ->
  Forall (fun p => p < length pres)%nat (find_peaks pres) ->
  length vols = length pres ->
  exists pres_divided vols_divided,
    divide_pv_data find_peaks pres vols = Some (pres_divided, vols_divided) /\
    concat pres_divided
      = slice pres (hd 0%nat (find_peaks pres)) (List.last (find_peaks pres) 0%nat) /\
    concat vols_divided
      = slice vols (hd 0%nat (find_peaks pres)) (List.last (find_peaks pres) 0%nat) /\
    map (@length Q) pres_divided
      = zip_with Nat.sub (tail (find_peaks pres)) (find_peaks pres) /\
    map (@length Q) vols_divided = map (@length Q) pres_divided.
Proof.
  intros Hlt Hrange Hlen.
  set (peaks := find_peaks pres) in *.
  assert (Hsorted : Sorted (fun a b => a + 0 <= b)%nat peaks).
  { eapply Sorted_ind with (P := fun l => Sorted (fun a b => a + 0 <= b)%nat l);
      [constructor| |exact Hlt].
    intros a l _ IH Hhd. constructor; [exact IH|].
    destruct Hhd; constructor. lia. }
  assert (Hin : forall i, (i < length peaks)%nat -> (nth i peaks 0 < length pres)%nat).
  { intros i Hi. rewrite Forall_forall in Hrange.
    apply Hrange, list_elem_of_In, nth_In, Hi. }
  assert (Hlengths : forall l : list Q, length l = length pres ->
            map (@length Q) (map (cycle peaks l) (seq 0 (length peaks - 1)))
            = zip_with Nat.sub (tail peaks) peaks).
  { intros l Hl. apply list_eq. intros i.
    rewrite !list_lookup_fmap, lookup_zip_with.
    destruct (decide (S i < length peaks)%nat) as [Hi|Hi].
    - rewrite lookup_seq_lt by lia.
      destruct (lookup_lt_is_Some_2 peaks i ltac:(lia)) as [lo Hlo].
      destruct (lookup_lt_is_Some_2 peaks (S i) Hi) as [hi Hhi].
      rewrite lookup_tail, Hlo, Hhi. cbn. f_equal.
      unfold cycle.
      rewrite (nth_lookup_Some _ _ _ _ Hlo), (nth_lookup_Some _ _ _ _ Hhi).
      apply length_slice. rewrite Hl.
      specialize (Hin (S i) Hi). rewrite (nth_lookup_Some _ _ _ _ Hhi) in Hin. lia.
    - rewrite lookup_seq_ge by lia.
      rewrite lookup_tail, (lookup_ge_None_2 peaks (S i)) by lia. reflexivity. }
  exists (map (cycle peaks pres) (seq 0 (length peaks - 1))),
         (map (cycle peaks vols) (seq 0 (length peaks - 1))).
  split; [apply divide_pv_data_run|].
  destruct peaks as [|first rest] eqn:Hpeaks.
  { cbn. repeat split; reflexivity. }
  rewrite <- Hpeaks in *.
  assert (Hends : hd 0%nat peaks = nth 0 peaks 0%nat /\
                  List.last peaks 0%nat = nth (length peaks - 1) peaks 0%nat).
  { split; [rewrite Hpeaks; reflexivity|].
    rewrite Hpeaks. cbn [length]. rewrite Nat.sub_succ, Nat.sub_0_r.
    clear. revert first. induction rest as [|b rest IH]; intros first; [reflexivity|].
    change (List.last (first :: b :: rest) 0%nat) with (List.last (b :: rest) 0%nat).
    rewrite IH. reflexivity. }
  destruct Hends as [-> ->].
  rewrite !concat_cycles by (try exact Hsorted; rewrite Hpeaks; cbn [length]; lia).
  split; [reflexivity|]. split; [reflexivity|].
  rewrite (Hlengths pres eq_refl), (Hlengths vols Hlen). split; reflexivity.
Qed.

End CycleTheory.

Section CycleRuns.
Import PyNum PVData PVPipeline PVExamples.

(** Three peaks in a trace of eight samples: two cycles. *)
Lemma divide_pv_data_contiguous_witness :
  exists pres_divided vols_divided,
    divide_pv_data toy_find_peaks toy_pres toy_vols = Some (pres_divided, vols_divided) /\
    concat pres_divided = [3; 2; 1; 4; 2]%Q /\
    concat vols_divided = [6; 7; 9; 5; 7]%Q /\
    map (@length Q) pres_divided = [3; 2]%nat /\
    map (@length Q) vols_divided = map (@length Q) pres_divided.
Proof.
  assert (Hsorted : Sorted lt (toy_find_peaks toy_pres)).
  { vm_compute. repeat constructor. }
  assert (Hrange : Forall (fun p => p < length toy_pres)%nat (toy_find_peaks toy_pres)).
  { vm_compute. repeat constructor. }
  exact (divide_pv_data_contiguous toy_find_peaks toy_pres toy_vols
           Hsorted Hrange eq_refl).
Defined.

End CycleRuns.

Section SliceTheory.
Import PyNum PVData PVPipeline.

Variable sqrt : Q -> Q.

Lemma fold_min_spec (rest : list Q) :
  forall x,
  In (fold_left (fun m y => if Qle_bool m y then m else y) rest x) (x :: rest) /\
  Forall (fun y => fold_left (fun m y => if Qle_bool m y then m else y) rest x <= y)%Q
         (x :: rest).
Proof.
  induction rest as [|y rest IH]; intros x.
  - cbn. split; [left; reflexivity|]. constructor; [apply Qle_refl|constructor].
  - cbn [fold_left].
    destruct (IH (if Qle_bool x y then x else y)) as [Hin Hle].
    set (m := fold_left _ rest _) in *.
    pose proof (Forall_inv Hle) as Hm. cbn beta in Hm.
    pose proof (Forall_inv_tail Hle) as Hrest.
    destruct (Qle_bool x y) eqn:Hxy.
    + apply Qle_bool_iff in Hxy. split.
      * destruct Hin as [Hin|Hin]; [left; exact Hin|right; right; exact Hin].
      * constructor; [exact Hm|]. constructor; [|exact Hrest].
        eapply Qle_trans; [exact Hm|exact Hxy].
    + assert (Hyx : (y <= x)%Q).
      { apply Qlt_le_weak, Qnot_le_lt. intros H. apply Qle_bool_iff in H. congruence. }
      split.
      * destruct Hin as [Hin|Hin]; [right; left; exact Hin|right; right; exact Hin].
      * constructor; [eapply Qle_trans; [exact Hm|exact Hyx]|].
        constructor; [exact Hm|exact Hrest].
Qed.

Lemma fold_max_spec (rest : list Q) :
  forall x,
  In (fold_left (fun m y => if Qle_bool y m then m else y) rest x) (x :: rest) /\
  Forall (fun y => y <= fold_left (fun m y => if Qle_bool y m then m else y) rest x)%Q
         (x :: rest).
Proof.
  induction rest as [|y rest IH]; intros x.
  - cbn. split; [left; reflexivity|]. constructor; [apply Qle_refl|constructor].
  - cbn [fold_left].
    destruct (IH (if Qle_bool y x then x else y)) as [Hin Hle].
    set (m := fold_left _ rest _) in *.
    pose proof (Forall_inv Hle) as Hm. cbn beta in Hm.
    pose proof (Forall_inv_tail Hle) as Hrest.
    destruct (Qle_bool y x) eqn:Hyx.
    + apply Qle_bool_iff in Hyx. split.
      * destruct Hin as [Hin|Hin]; [left; exact Hin|right; right; exact Hin].
      * constructor; [exact Hm|]. constructor; [|exact Hrest].
        eapply Qle_trans; [exact Hyx|exact Hm].
    + assert (Hxy : (x <= y)%Q).
      { apply Qlt_le_weak, Qnot_le_lt. intros H. apply Qle_bool_iff in H. congruence. }
      split.
      * destruct Hin as [Hin|Hin]; [right; left; exact Hin|right; right; exact Hin].
      * constructor; [eapply Qle_trans; [exact Hxy|exact Hm]|].
        constructor; [exact Hm|exact Hrest].
Qed.

Lemma np_min_spec (l : list Q) (m : Q) :
  np_min l = Some m -> In m l /\ Forall (fun y => m <= y)%Q l.
Proof.
  destruct l as [|x rest]; [discriminate|].
  intros [= <-]. apply fold_min_spec.
Qed.

Lemma np_max_spec (l : list Q) (m : Q) :
  np_max l = Some m -> In m l /\ Forall (fun y => y <= m)%Q l.
Proof.
  destruct l as [|x rest]; [discriminate|].
  intros [= <-]. apply fold_max_spec.
Qed.

Lemma np_min_is_Some (l : list Q) : l <> [] -> is_Some (np_min l).
Proof. destruct l; [contradiction|]. intros _. eexists. reflexivity. Qed.

Lemma np_max_is_Some (l : list Q) : l <> [] -> is_Some (np_max l).
Proof. destruct l; [contradiction|]. intros _. eexists. reflexivity. Qed.

Lemma first_index_eq_Some (m : Q) (a : list Q) :
  forall i, first_index_eq m a = Some i ->
  (i < length a)%nat /\ (nth i a 0 == m)%Q /\
  forall j, (j < i)%nat -> ~ (nth j a 0 == m)%Q.
Proof.
  induction a as [|x rest IH]; intros i; [discriminate|].
  cbn [first_index_eq]. destruct (Qeq_bool x m) eqn:Hx.
  - intros [= <-]. apply Qeq_bool_iff in Hx. cbn [length nth].
    split; [lia|]. split; [exact Hx|]. intros j Hj. lia.
  - destruct (first_index_eq m rest) as [k|]; [|discriminate].
    intros [= <-]. destruct (IH k eq_refl) as (Hk & Hnth & Hfirst).
    cbn [length nth]. split; [lia|]. split; [exact Hnth|].
    intros [|j] Hj.
    + intros H. apply Qeq_bool_iff in H. congruence.
    + apply Hfirst. lia.
Qed.

Lemma first_index_eq_is_Some (m : Q) (a : list Q) :
  In m a -> is_Some (first_index_eq m a).
Proof.
  induction a as [|x rest IH]; [contradiction|].
  intros Hin. cbn [first_index_eq]. destruct (Qeq_bool x m) eqn:Hx; [eexists; reflexivity|].
  destruct Hin as [->|Hin].
  - rewrite (proj2 (Qeq_bool_iff m m) (Qeq_refl m)) in Hx. discriminate.
  - destruct (IH Hin) as [k ->]. eexists. reflexivity.
Qed.

(** The entries of an array from [offset] on, by index. *)
Lemma drop_by_index (l : list Q) (offset : nat) :
  drop offset l = map (fun j => nth j l 0%Q) (seq offset (length l - offset)).
Proof.
  apply list_eq. intros i. rewrite lookup_drop, list_lookup_fmap.
  destruct (decide (i < length l - offset)%nat) as [Hi|Hi].
  - rewrite lookup_seq_lt by exact Hi. cbn.
    destruct (lookup_lt_is_Some_2 l (offset + i) ltac:(lia)) as [x Hx].
    rewrite Hx, (nth_lookup_Some _ _ _ _ Hx). reflexivity.
  - rewrite lookup_seq_ge by lia. cbn. apply lookup_ge_None_2. lia.
Qed.

Lemma zip_with_map_same {A} (h : Q -> Q -> Q) (a b : A -> Q) (s : list A) :
  zip_with h (map a s) (map b s) = map (fun j => h (a j) (b j)) s.
Proof. induction s as [|j s IH]; [reflexivity|]. cbn. rewrite IH. reflexivity. Qed.

Lemma nth_map_total (f : Q -> Q) (l : list Q) (j : nat) :
  (j < length l)%nat -> nth j (map f l) 0%Q = f (nth j l 0%Q).
Proof.
  intros Hj. rewrite (nth_indep _ 0%Q (f 0%Q)) by (rewrite length_map; exact Hj).
  apply map_nth.
Qed.

(** What [slice_data] computes on two traces of the same length whose
    largest entries are not zero: the index of the first sample, from
    [offset] on, that is nearest to the first one. *)
Lemma slice_data_run (pres vols : list Q) (offset : nat) (pres_scale vols_scale : Q) :
  length vols = length pres ->
  np_max pres = Some pres_scale -> np_max vols = Some vols_scale ->
  ~ (pres_scale == 0)%Q -> ~ (vols_scale == 0)%Q ->
  slice_data sqrt pres vols offset
  = (let dist := map (dist_to_start sqrt pres vols pres_scale vols_scale)
                     (seq offset (length pres - offset)) in
     dist_min ← np_min dist;
     ind ← first_index_eq dist_min dist;
     Some (map (fun p => p / pres_scale * pres_scale)%Q (take (ind + offset) pres),
           map (fun v => v / vols_scale * vols_scale)%Q (take (ind + offset) vols))).
Proof.
  intros Hlen Hps Hvs Hps0 Hvs0. unfold slice_data. rewrite Hps, Hvs.
  cbn [mbind option_bind].
  assert (Hp : Qeq_bool pres_scale 0 = false).
  { destruct (Qeq_bool pres_scale 0) eqn:E; [|reflexivity].
    apply Qeq_bool_iff in E. contradiction. }
  assert (Hv : Qeq_bool vols_scale 0 = false).
  { destruct (Qeq_bool vols_scale 0) eqn:E; [|reflexivity].
    apply Qeq_bool_iff in E. contradiction. }
  rewrite Hp, Hv. cbn [orb].
  destruct pres as [|p0 pres']; [discriminate|].
  destruct vols as [|v0 vols']; [discriminate|].
  set (pres := p0 :: pres') in *. set (vols := v0 :: vols') in *.
  change (map (fun p => p / pres_scale)%Q pres !! 0%nat) with (Some (p0 / pres_scale)%Q).
  change (map (fun v => v / vols_scale)%Q vols !! 0%nat) with (Some (v0 / vols_scale)%Q).
  cbn [mbind option_bind].
  unfold broadcast. rewrite !length_map, !length_drop, !length_map, Hlen, Nat.eqb_refl.
  cbn [mbind option_bind].
  assert (Hdist :
    map sqrt
      (zip_with Qplus
         (map (fun d => d ^ 2)%Q
            (drop offset (map (fun p => p - p0 / pres_scale)%Q
                            (map (fun p => p / pres_scale)%Q pres))))
         (map (fun d => d ^ 2)%Q
            (drop offset (map (fun v => v - v0 / vols_scale)%Q
                            (map (fun v => v / vols_scale)%Q vols)))))
    = map (dist_to_start sqrt pres vols pres_scale vols_scale)
          (seq offset (length pres - offset))).
  { rewrite (drop_by_index (map _ (map _ pres)) offset).
    rewrite (drop_by_index (map _ (map _ vols)) offset).
    rewrite !length_map, Hlen.
    rewrite !map_map, zip_with_map_same, map_map.
    apply map_ext_in. intros j Hj. apply in_seq in Hj.
    rewrite !nth_map_total by (rewrite ?length_map; lia).
    reflexivity. }
  rewrite Hdist. cbn zeta.
  destruct (np_min _) as [dist_min|]; [|reflexivity]. cbn [mbind option_bind].
  destruct (first_index_eq _ _) as [ind|]; [|reflexivity]. cbn [mbind option_bind].
  rewrite !firstn_map, !map_map. reflexivity.
Qed.

Lemma nearest_index (dist : list Q) :
  dist <> [] ->
  exists dist_min ind,
    np_min dist = Some dist_min /\
    first_index_eq dist_min dist = Some ind /\
    (ind < length dist)%nat /\
    (nth ind dist 0 == dist_min)%Q /\
    In dist_min dist /\
    Forall (fun d => dist_min <= d)%Q dist /\
    forall j, (j < ind)%nat -> ~ (nth j dist 0 == dist_min)%Q.
Proof.
  intros Hne. destruct (np_min_is_Some dist Hne) as [dist_min Hmin].
  destruct (np_min_spec dist dist_min Hmin) as [Hin Hle].
  destruct (first_index_eq_is_Some dist_min dist Hin) as [ind Hind].
  destruct (first_index_eq_Some dist_min dist ind Hind) as (Hlt & Hnth & Hfirst).
  exists dist_min, ind. repeat split; assumption.
Qed.

Lemma nth_map_seq (f : nat -> Q) (start len i : nat) :
  (i < len)%nat -> nth i (map f (seq start len)) 0%Q = f (start + i)%nat.
Proof.
  intros Hi. apply nth_lookup_Some.
  rewrite list_lookup_fmap, lookup_seq_lt by exact Hi. reflexivity.
Qed.

Lemma rescale_back (scale : Q) (l : list Q) :
  ~ (scale == 0)%Q -> Forall2 Qeq (map (fun x => x / scale * scale)%Q l) l.
Proof.
  intros Hs. induction l as [|x l IH]; cbn; constructor; [|exact IH].
  field. exact Hs.
Qed.

Lemma broadcast_None (f : Q -> Q -> Q) (xs ys : list Q) :
  length xs <> length ys -> (2 <= length xs)%nat -> (2 <= length ys)%nat ->
  broadcast f xs ys = None.
Proof.
  intros Hne Hx Hy. unfold broadcast.
  rewrite (proj2 (Nat.eqb_neq _ _) Hne).
  destruct xs as [|x [|x' xs]]; cbn [length] in Hx; try lia.
  destruct ys as [|y [|y' ys]]; cbn [length] in Hy; try lia.
  reflexivity.
Qed.

(** X13: on two traces of the same length, longer than [offset], whose
    largest entries are not zero, [slice_data] cuts both traces at the same
    index [ind]: the first sample, from [offset] on, that is nearest to the
    first sample in the plane scaled by the two maxima.  The two arrays
    returned are the first [ind] samples of the inputs (up to the rounding
    of dividing and multiplying by the scale); sample [ind] itself is left
    out. *)
Theorem slice_data_cuts_at_nearest (pres vols : list Q) (offset : nat)
    (pres_scale vols_scale : Q) :
  length vols = length pres -> (offset < length pres)%nat ->
  np_max pres = Some pres_scale -> np_max vols = Some vols_scale ->
  ~ (pres_scale == 0)%Q -> ~ (vols_scale == 0)%Q ->
  let dist := dist_to_start sqrt pres vols pres_scale vols_scale in
  exists ind pres_sliced vols_sliced,
    slice_data sqrt pres vols offset = Some (pres_sliced, vols_sliced) /\
    (offset <= ind < length pres)%nat /\
    length pres_sliced = ind /\ length vols_sliced = ind /\
    Forall2 Qeq pres_sliced (take ind pres) /\
    Forall2 Qeq vols_sliced (take ind vols) /\
    (forall j, (offset <= j < length pres)%nat -> (dist ind <= dist j)%Q) /\
    (forall j, (offset <= j < ind)%nat -> ~ (dist j == dist ind)%Q).
Proof.
  intros Hlen Hoff Hps Hvs Hps0 Hvs0 dist.
  rewrite (slice_data_run pres vols offset pres_scale vols_scale Hlen Hps Hvs Hps0 Hvs0).
  cbn zeta. fold dist.
  set (dists := map dist (seq offset (length pres - offset))).
  assert (Hdists : length dists = (length pres - offset)%nat).
  { unfold dists. rewrite length_map, length_seq. reflexivity. }
  assert (Hne : dists <> []).
  { intros E. rewrite E in Hdists. cbn in Hdists. lia. }
  destruct (nearest_index dists Hne)
    as (dist_min & i & Hmin & Hind & Hi & Hnth & _ & Hle & Hfirst).
  rewrite Hmin. cbn [mbind option_bind]. rewrite Hind. cbn [mbind option_bind].
  assert (Hat : forall j, (j < length pres - offset)%nat ->
                nth j dists 0%Q = dist (offset + j)%nat).
  { intros j Hj. apply nth_map_seq, Hj. }
  exists (i + offset)%nat. eexists _, _. split; [reflexivity|].
  split; [lia|].
  split; [rewrite length_map, length_take; lia|].
  split; [rewrite length_map, length_take; lia|].
  split; [apply rescale_back, Hps0|].
  split; [apply rescale_back, Hvs0|].
  rewrite Hat in Hnth by lia.
  replace (i + offset)%nat with (offset + i)%nat by lia.
  split.
  - intros j Hj. rewrite Hnth.
    replace j with (offset + (j - offset))%nat by lia.
    rewrite <- Hat by lia. rewrite Forall_forall in Hle.
    apply Hle, list_elem_of_In, nth_In. lia.
  - intros j Hj. rewrite Hnth.
    replace j with (offset + (j - offset))%nat by lia.
    rewrite <- Hat by lia. apply Hfirst. lia.
Qed.

(** X14: on two traces of the same length, [slice_data] raises exactly when
    the traces have no sample past [offset] (which includes empty traces)
    or the largest pressure or the largest volume is zero. *)
Theorem slice_data_raises_iff (pres vols : list Q) (offset : nat) :
  length vols = length pres ->
  slice_data sqrt pres vols offset = None <->
  (length pres <= offset)%nat \/
  (exists scale, np_max pres = Some scale /\ (scale == 0)%Q) \/
  (exists scale, np_max vols = Some scale /\ (scale == 0)%Q).
Proof.
  intros Hlen.
  destruct pres as [|p0 pres'].
  { split; [intros _; left; cbn; lia|reflexivity]. }
  destruct vols as [|v0 vols']; [discriminate|].
  set (pres := p0 :: pres') in *. set (vols := v0 :: vols') in *.
  destruct (np_max_is_Some pres ltac:(discriminate)) as [pres_scale Hps].
  destruct (np_max_is_Some vols ltac:(discriminate)) as [vols_scale Hvs].
  destruct (Qeq_bool pres_scale 0) eqn:Hp.
  { split.
    - intros _. right. left. exists pres_scale.
      split; [exact Hps|apply Qeq_bool_iff, Hp].
    - intros _. unfold slice_data. rewrite Hps, Hvs. cbn [mbind option_bind].
      rewrite Hp. reflexivity. }
  destruct (Qeq_bool vols_scale 0) eqn:Hv.
  { split.
    - intros _. right. right. exists vols_scale.
      split; [exact Hvs|apply Qeq_bool_iff, Hv].
    - intros _. unfold slice_data. rewrite Hps, Hvs. cbn [mbind option_bind].
      rewrite Hp, Hv. reflexivity. }
  assert (Hps0 : ~ (pres_scale == 0)%Q).
  { intros E. apply Qeq_bool_iff in E. congruence. }
  assert (Hvs0 : ~ (vols_scale == 0)%Q).
  { intros E. apply Qeq_bool_iff in E. congruence. }
  rewrite (slice_data_run pres vols offset pres_scale vols_scale Hlen Hps Hvs Hps0 Hvs0).
  cbn zeta.
  set (dists := map _ (seq offset (length pres - offset))).
  assert (Hdists : length dists = (length pres - offset)%nat).
  { unfold dists. rewrite length_map, length_seq. reflexivity. }
  destruct (decide (length pres <= offset)%nat) as [Hshort|Hlong].
  - split; [intros _; left; exact Hshort|]. intros _.
    destruct dists; [reflexivity|]. cbn [length] in Hdists. lia.
  - assert (Hne : dists <> []).
    { assert (Hpos : length dists <> 0%nat) by lia.
      intros E. apply Hpos. rewrite E. reflexivity. }
    destruct (nearest_index dists Hne) as (dist_min & i & Hmin & Hind & _).
    rewrite Hmin. cbn [mbind option_bind]. rewrite Hind. cbn [mbind option_bind].
    split; [discriminate|].
    intros [Hshort|[(scale & Hscale & Hzero)|(scale & Hscale & Hzero)]].
    + contradiction.
    + rewrite Hps in Hscale. injection Hscale as <-. contradiction.
    + rewrite Hvs in Hscale. injection Hscale as <-. contradiction.
Qed.

(** X15: two traces of different lengths, each with at least two samples
    past [offset], make [slice_data] raise: the squared differences cannot
    be added entry by entry. *)
Theorem slice_data_needs_equal_lengths (pres vols : list Q) (offset : nat) :
  length pres <> length vols ->
  (offset + 2 <= length pres)%nat -> (offset + 2 <= length vols)%nat ->
  slice_data sqrt pres vols offset = None.
Proof.
  intros Hne Hp Hv. unfold slice_data.
  destruct (np_max pres) as [pres_scale|]; [|reflexivity].
  destruct (np_max vols) as [vols_scale|]; [|reflexivity].
  cbn [mbind option_bind].
  destruct (Qeq_bool pres_scale 0 || Qeq_bool vols_scale 0); [reflexivity|].
  destruct (map _ pres !! 0%nat) as [pres_0|]; [|reflexivity].
  destruct (map _ vols !! 0%nat) as [vols_0|]; [|reflexivity].
  cbn [mbind option_bind].
  rewrite broadcast_None; [reflexivity| | |];
    rewrite !length_map, !length_drop, !length_map; lia.
Qed.

(** X16: with [offset = 0] the nearest sample to the first one is the first
    one itself, so [slice_data] returns two empty arrays: the offset is
    what keeps the start of the loop out of the search. *)
Theorem slice_data_offset_zero (pres vols : list Q) (pres_scale vols_scale : Q) :
  (forall x y, x == y -> sqrt x == sqrt y)%Q ->
  (sqrt 0 == 0)%Q -> (forall x, 0 <= sqrt x)%Q ->
  length vols = length pres ->
  np_max pres = Some pres_scale -> np_max vols = Some vols_scale ->
  ~ (pres_scale == 0)%Q -> ~ (vols_scale == 0)%Q ->
  slice_data sqrt pres vols 0 = Some ([], []).
Proof.
  intros Hproper Hzero Hnonneg Hlen Hps Hvs Hps0 Hvs0.
  rewrite (slice_data_run pres vols 0 pres_scale vols_scale Hlen Hps Hvs Hps0 Hvs0).
  cbn zeta. rewrite Nat.sub_0_r.
  destruct pres as [|p0 pres']; [discriminate|].
  set (pres := p0 :: pres') in *.
  set (dist := dist_to_start sqrt pres vols pres_scale vols_scale).
  change (length pres) with (S (length pres')). cbn [seq map].
  set (rest := map dist (seq 1 (length pres'))).
  assert (Hstart : (dist 0%nat == 0)%Q).
  { unfold dist, dist_to_start. eapply Qeq_trans; [|exact Hzero]. apply Hproper.
    generalize (nth 0 pres 0%Q), (nth 0 vols 0%Q). intros p v.
    field. split; assumption. }
  destruct (nearest_index (dist 0%nat :: rest) ltac:(discriminate))
    as (dist_min & i & Hmin & Hind & _ & _ & Hin & Hle & _).
  rewrite Hmin. cbn [mbind option_bind].
  assert (Hmin0 : (dist_min == 0)%Q).
  { apply Qle_antisym.
    - rewrite <- Hstart. apply (Forall_inv Hle).
    - destruct Hin as [<-|Hin]; [apply Hnonneg|].
      unfold rest in Hin. apply in_map_iff in Hin. destruct Hin as (j & <- & _).
      apply Hnonneg. }
  cbn [first_index_eq].
  assert (Hfirst : Qeq_bool (dist 0%nat) dist_min = true).
  { apply Qeq_bool_iff. rewrite Hstart, Hmin0. reflexivity. }
  rewrite Hfirst. reflexivity.
Qed.

End SliceTheory.

Section SliceRuns.
Import PyNum PVData PVPipeline PVExamples.

Lemma toy_sqrt_proper (x y : Q) : (x == y -> toy_sqrt x == toy_sqrt y)%Q.
Proof.
  intros Hxy. unfold toy_sqrt. rewrite (Qred_complete x y Hxy). reflexivity.
Qed.

Lemma toy_sqrt_nonneg (x : Q) : (0 <= toy_sqrt x)%Q.
Proof.
  unfold toy_sqrt, Qle. cbn [Qnum Qden]. rewrite Z.mul_1_r. cbn.
  apply Z.sqrt_nonneg.
Qed.

Lemma six_not_zero : ~ (6 == 0)%Q.
Proof. intros E. discriminate E. Qed.

Lemma five_not_zero : ~ (5 == 0)%Q.
Proof. intros E. discriminate E. Qed.

(** Five samples, the search starting at the third: the fourth sample is
    the nearest to the first, and the three before it are returned. *)
Lemma slice_data_cuts_at_nearest_witness :
  exists ind pres_sliced vols_sliced,
    slice_data toy_sqrt [3; 4; 5; 3; 6]%Q [1; 0; 1; 5; 4]%Q 2
    = Some (pres_sliced, vols_sliced) /\
    (2 <= ind < 5)%nat /\
    length pres_sliced = ind /\ length vols_sliced = ind /\
    Forall2 Qeq pres_sliced (take ind [3; 4; 5; 3; 6]%Q) /\
    Forall2 Qeq vols_sliced (take ind [1; 0; 1; 5; 4]%Q) /\
    (forall j, (2 <= j < 5)%nat ->
       (dist_to_start toy_sqrt [3; 4; 5; 3; 6] [1; 0; 1; 5; 4] 6 5 ind
        <= dist_to_start toy_sqrt [3; 4; 5; 3; 6] [1; 0; 1; 5; 4] 6 5 j)%Q) /\
    (forall j, (2 <= j < ind)%nat ->
       ~ (dist_to_start toy_sqrt [3; 4; 5; 3; 6] [1; 0; 1; 5; 4] 6 5 j
          == dist_to_start toy_sqrt [3; 4; 5; 3; 6] [1; 0; 1; 5; 4] 6 5 ind)%Q).
Proof.
  apply (slice_data_cuts_at_nearest toy_sqrt [3; 4; 5; 3; 6]%Q [1; 0; 1; 5; 4]%Q 2 6 5).
  - reflexivity.
  - cbn. lia.
  - reflexivity.
  - reflexivity.
  - exact six_not_zero.
  - exact five_not_zero.
Defined.

(** A trace of two samples searched from the third on. *)
Lemma slice_data_raises_iff_witness :
  slice_data toy_sqrt [3; 4]%Q [1; 2]%Q 2 = None <->
  (2 <= 2)%nat \/
  (exists scale, np_max [3; 4]%Q = Some scale /\ (scale == 0)%Q) \/
  (exists scale, np_max [1; 2]%Q = Some scale /\ (scale == 0)%Q).
Proof.
  apply (slice_data_raises_iff toy_sqrt [3; 4]%Q [1; 2]%Q 2). reflexivity.
Defined.

Lemma slice_data_needs_equal_lengths_witness :
  slice_data toy_sqrt [3; 4; 5; 3; 6]%Q [1; 0; 1; 5]%Q 2 = None.
Proof.
  apply (slice_data_needs_equal_lengths toy_sqrt); cbn; lia.
Defined.

Lemma slice_data_offset_zero_witness :
  slice_data toy_sqrt [3; 4; 5; 3; 6]%Q [1; 0; 1; 5; 4]%Q 0 = Some ([], []).
Proof.
  apply (slice_data_offset_zero toy_sqrt _ _ 6 5).
  - exact toy_sqrt_proper.
  - reflexivity.
  - exact toy_sqrt_nonneg.
  - reflexivity.
  - reflexivity.
  - reflexivity.
  - exact six_not_zero.
  - exact five_not_zero.
Defined.

End SliceRuns.

Section RotationTheory.
Import PyNum PVData PVPipeline.

(** The index the loop is rotated to: the first sample that holds the
    largest volume. *)
Lemma ind_ED_run (v : list Q) :
  v <> [] ->
  exists k first,
    ind_ED v = Some k /\ v !! k = Some first /\
    Forall (fun x => x <= first)%Q v /\
    forall j, (j < k)%nat -> (nth j v 0 < first)%Q.
Proof.
  intros Hne. unfold ind_ED.
  destruct (np_max_is_Some v Hne) as [v_max Hmax].
  destruct (np_max_spec v v_max Hmax) as [Hin Hle].
  destruct (first_index_eq_is_Some v_max v Hin) as [k Hk].
  destruct (first_index_eq_Some v_max v k Hk) as (Hlt & Hnth & Hfirst).
  destruct (lookup_lt_is_Some_2 v k Hlt) as [first Hlookup].
  rewrite (nth_lookup_Some _ _ _ _ Hlookup) in Hnth.
  exists k, first. rewrite Hmax. cbn [mbind option_bind].
  split; [exact Hk|]. split; [exact Hlookup|]. split.
  - eapply Forall_impl; [exact Hle|]. intros x Hx. cbn beta in Hx.
    rewrite Hnth. exact Hx.
  - intros j Hj. rewrite Hnth.
    assert (Hjle : (nth j v 0 <= v_max)%Q).
    { rewrite Forall_forall in Hle. apply Hle, list_elem_of_In, nth_In. lia. }
    destruct (Qle_lt_or_eq _ _ Hjle) as [Hless|Heq]; [exact Hless|].
    exfalso. exact (Hfirst j Hj Heq).
Qed.

(** X17: the rotation at the end of the script, on a pressure and a volume
    array of the same non-zero length.  Both arrays are rotated by the same
    index [k], that of the first sample with the largest volume: the saved
    volumes start with their maximum, each array keeps its samples and
    their cyclic order, and every pressure stays paired with the volume it
    was paired with. *)
Theorem rotate_to_ED_starts_at_max (p v : list Q) :
  length p = length v -> v <> [] ->
  exists k pressures volumes first,
    rotate_to_ED p v = Some (pressures, volumes) /\
    (k < length v)%nat /\
    volumes = drop k v ++ take k v /\
    pressures = drop k p ++ take k p /\
    zip pressures volumes = drop k (zip p v) ++ take k (zip p v) /\
    volumes ≡ₚ v /\ pressures ≡ₚ p /\
    head volumes = Some first /\
    Forall (fun x => x <= first)%Q volumes /\
    forall j, (j < k)%nat -> (nth j v 0 < first)%Q.
Proof.
  intros Hlen Hne.
  destruct (ind_ED_run v Hne) as (k & first & Hk & Hlookup & Hle & Hfirst).
  assert (Hperm : forall l : list Q, drop k l ++ take k l ≡ₚ l).
  { intros l. rewrite (Permutation_app_comm (drop k l) (take k l)), take_drop.
    reflexivity. }
  exists k, (drop k p ++ take k p), (drop k v ++ take k v), first.
  split; [unfold rotate_to_ED; rewrite Hk; reflexivity|].
  split; [eapply lookup_lt_Some; exact Hlookup|].
  split; [reflexivity|]. split; [reflexivity|].
  split.
  { rewrite zip_with_drop, zip_with_take. apply zip_with_app.
    rewrite !length_drop. lia. }
  split; [apply Hperm|]. split; [apply Hperm|].
  split; [rewrite (drop_S _ _ _ Hlookup); reflexivity|].
  split; [|exact Hfirst].
  rewrite Forall_forall in Hle |- *. intros x Hx. apply Hle.
  rewrite <- (Hperm v). exact Hx.
Qed.

(** A loop of four samples whose largest volume occurs twice. *)
Lemma rotate_to_ED_starts_at_max_witness :
  exists k pressures volumes first,
    rotate_to_ED [1; 2; 3; 4]%Q [3; 5; 9; 9]%Q = Some (pressures, volumes) /\
    (k < 4)%nat /\
    volumes = drop k [3; 5; 9; 9]%Q ++ take k [3; 5; 9; 9]%Q /\
    pressures = drop k [1; 2; 3; 4]%Q ++ take k [1; 2; 3; 4]%Q /\
    zip pressures volumes
    = drop k (zip [1; 2; 3; 4]%Q [3; 5; 9; 9]%Q)
      ++ take k (zip [1; 2; 3; 4]%Q [3; 5; 9; 9]%Q) /\
    volumes ≡ₚ [3; 5; 9; 9]%Q /\ pressures ≡ₚ [1; 2; 3; 4]%Q /\
    head volumes = Some first /\
    Forall (fun x => x <= first)%Q volumes /\
    forall j, (j < k)%nat -> (nth j [3; 5; 9; 9]%Q 0 < first)%Q.
Proof.
  apply (rotate_to_ED_starts_at_max [1; 2; 3; 4]%Q [3; 5; 9; 9]%Q).
  - reflexivity.
  - discriminate.
Defined.

End RotationTheory.

Section ScriptTheory.
Import PyNum PVData PVPipeline.

Variable sqrt : Q -> Q.
Variable find_peaks : list Q -> list nat.

Lemma average_array_defined (arrays : list (list Q)) :
  arrays <> [] ->
  Forall (fun array => 2 <= length array)%nat arrays ->
  exists average_y,
    average_array arrays = Some average_y /\ length average_y = 100%nat.
Proof.
  intros Hne Htwo.
  destruct arrays as [|first rest] eqn:Harrays; [contradiction|].
  rewrite <- Harrays in *. clear Hne.
  set (average_x :=
         linspace 0 (Qnat (list_max (map (@length Q) arrays)) - 1) num_samples).
  set (row := fun array : list Q =>
         map (call_linear (linspace 0 (Qnat (length array) - 1) (length array)) array)
             average_x).
  exists (np_mean_axis0 (map row arrays)). split.
  - unfold average_array. rewrite Harrays at 1. fold average_x.
    rewrite (mapM_all_defined _ row); [reflexivity|].
    eapply Forall_impl; [exact Htwo|].
    intros array Ha. cbn beta in Ha |- *.
    rewrite interp1d_defined; [reflexivity| |]; rewrite length_linspace; auto.
  - apply length_np_mean_axis0.
    + rewrite Harrays. discriminate.
    + apply Forall_map, Forall_forall. intros array _.
      unfold row. rewrite length_map. apply length_linspace.
Qed.

Lemma cycles_have_two_samples (peaks : list nat) (l : list Q) :
  Sorted (fun a b => a + 2 <= b)%nat peaks ->
  Forall (fun p => p < length l)%nat peaks ->
  Forall (fun c => 2 <= length c)%nat
         (map (cycle peaks l) (seq 0 (length peaks - 1))).
Proof.
  intros Hsorted Hrange. apply Forall_map, Forall_forall. intros i Hi.
  apply elem_of_seq in Hi. cbn beta. unfold cycle.
  pose proof (sorted_nth_lt peaks 2 Hsorted i ltac:(lia)) as Hstep.
  rewrite length_slice; [lia|].
  rewrite Forall_forall in Hrange.
  assert (nth (S i) peaks 0 < length l)%nat; [|lia].
  apply Hrange, list_elem_of_In, nth_In. lia.
Qed.

Lemma slice_data_zero_scale (pres vols : list Q) (offset : nat)
    (pres_scale vols_scale : Q) :
  np_max pres = Some pres_scale -> np_max vols = Some vols_scale ->
  (pres_scale == 0 \/ vols_scale == 0)%Q ->
  slice_data sqrt pres vols offset = None.
Proof.
  intros Hps Hvs Hzero. unfold slice_data. rewrite Hps, Hvs.
  cbn [mbind option_bind].
  destruct Hzero as [Hzero|Hzero]; apply Qeq_bool_iff in Hzero; rewrite Hzero;
    [reflexivity|apply orb_true_r || (rewrite orb_true_r; reflexivity)].
Qed.

Lemma slice_data_shape (pres vols : list Q) (offset : nat)
    (pres_scale vols_scale : Q) :
  length vols = length pres -> (offset < length pres)%nat ->
  np_max pres = Some pres_scale -> np_max vols = Some vols_scale ->
  ~ (pres_scale == 0)%Q -> ~ (vols_scale == 0)%Q ->
  exists ind,
    (offset <= ind < length pres)%nat /\
    slice_data sqrt pres vols offset
    = Some (map (fun p => p / pres_scale * pres_scale)%Q (take ind pres),
            map (fun v => v / vols_scale * vols_scale)%Q (take ind vols)).
Proof.
  intros Hlen Hoff Hps Hvs Hps0 Hvs0.
  rewrite (slice_data_run sqrt pres vols offset pres_scale vols_scale
             Hlen Hps Hvs Hps0 Hvs0).
  cbn zeta.
  set (dists := map _ (seq offset (length pres - offset))).
  assert (Hdists : length dists = (length pres - offset)%nat).
  { unfold dists. rewrite length_map, length_seq. reflexivity. }
  assert (Hne : dists <> []).
  { assert (Hpos : length dists <> 0%nat) by lia.
    intros E. apply Hpos. rewrite E. reflexivity. }
  destruct (nearest_index dists Hne) as (dist_min & i & Hmin & Hind & Hi & _).
  rewrite Hmin. cbn [mbind option_bind]. rewrite Hind. cbn [mbind option_bind].
  exists (i + offset)%nat. split; [lia|reflexivity].
Qed.

Lemma length_rotation (k : nat) (l : list Q) :
  length (hstack (drop k l) (take k l)) = length l.
Proof. unfold hstack. rewrite length_app, length_drop, length_take. lia. Qed.

(** X18: a pressure trace in which fewer than two peaks are found stops
    the script: there is no cycle, and [average_array] raises on the empty
    list of cycles. *)
Theorem script_needs_two_peaks (pres vols : list Q) :
  (length (find_peaks pres) < 2)%nat ->
  script sqrt find_peaks pres vols = None.
Proof.
  intros Hfew. unfold script. rewrite divide_pv_data_run.
  replace (length (find_peaks pres) - 1)%nat with 0%nat by lia.
  reflexivity.
Qed.

(** X19: the script from the traces to the saved loop.  When the peaks are
    at least two indices of the pressure trace, each at least two samples
    after the one before (with [distance=150] they are 150 apart), and the
    traces have the same length, both averages exist and hold 100 samples;
    the script then raises exactly when the largest averaged pressure or
    the largest averaged volume is zero, and in every other case the saved
    pressures and volumes have the same number of samples, between 50 and
    99, and the volumes start with their largest value. *)
Theorem script_returns_loop (pres vols : list Q) :
  (2 <= length (find_peaks pres))%nat ->
  Sorted (fun a b => a + 2 <= b)%nat (find_peaks pres) ->
  Forall (fun p => p < length pres)%nat (find_peaks pres) ->
  length vols = length pres ->
  exists pres_average vols_average,
    (exists pres_divided vols_divided,
       divide_pv_data find_peaks pres vols = Some (pres_divided, vols_divided) /\
       average_array pres_divided = Some pres_average /\
       average_array vols_divided = Some vols_average) /\
    length pres_average = 100%nat /\ length vols_average = 100%nat /\
    (script sqrt find_peaks pres vols = None <->
     (exists scale, np_max pres_average = Some scale /\ (scale == 0)%Q) \/
     (exists scale, np_max vols_average = Some scale /\ (scale == 0)%Q)) /\
    forall pressures volumes,
      script sqrt find_peaks pres vols = Some (pressures, volumes) ->
      length pressures = length volumes /\
      (50 <= length pressures <= 99)%nat /\
      exists first,
        head volumes = Some first /\ Forall (fun x => x <= first)%Q volumes.
Proof.
  intros Htwo Hsorted Hrange Hlen.
  set (peaks := find_peaks pres) in *.
  set (pres_divided := map (cycle peaks pres) (seq 0 (length peaks - 1))).
  set (vols_divided := map (cycle peaks vols) (seq 0 (length peaks - 1))).
  assert (Hdivide : divide_pv_data find_peaks pres vols
                    = Some (pres_divided, vols_divided))
    by apply divide_pv_data_run.
  assert (Hcycles : forall l : list Q,
            map (cycle peaks l) (seq 0 (length peaks - 1)) <> []).
  { intros l E. apply (f_equal length) in E.
    rewrite length_map, length_seq in E. cbn [length] in E. lia. }
  destruct (average_array_defined pres_divided (Hcycles pres)
              (cycles_have_two_samples peaks pres Hsorted Hrange))
    as (pres_average & Hpa & Hpl).
  assert (Hrange' : Forall (fun p => p < length vols)%nat peaks)
    by (rewrite Hlen; exact Hrange).
  destruct (average_array_defined vols_divided (Hcycles vols)
              (cycles_have_two_samples peaks vols Hsorted Hrange'))
    as (vols_average & Hva & Hvl).
  exists pres_average, vols_average.
  split; [exists pres_divided, vols_divided; auto|].
  split; [exact Hpl|]. split; [exact Hvl|].
  assert (Hscript : script sqrt find_peaks pres vols
                    = '(p_average_sliced, v_average_sliced) ←
                        slice_data sqrt pres_average vols_average 50;
                      rotate_to_ED p_average_sliced v_average_sliced).
  { unfold script. rewrite Hdivide. cbn [mbind option_bind].
    rewrite Hpa. cbn [mbind option_bind]. rewrite Hva. reflexivity. }
  rewrite Hscript. clear Hscript.
  destruct (np_max_is_Some pres_average) as [pres_scale Hps].
  { intros E. rewrite E in Hpl. discriminate Hpl. }
  destruct (np_max_is_Some vols_average) as [vols_scale Hvs].
  { intros E. rewrite E in Hvl. discriminate Hvl. }
  destruct (Qeq_bool pres_scale 0) eqn:Hp.
  { rewrite (slice_data_zero_scale _ _ _ _ _ Hps Hvs)
      by (left; apply Qeq_bool_iff, Hp).
    split; [|discriminate]. split; [|reflexivity].
    intros _. left. exists pres_scale. split; [exact Hps|apply Qeq_bool_iff, Hp]. }
  destruct (Qeq_bool vols_scale 0) eqn:Hv.
  { rewrite (slice_data_zero_scale _ _ _ _ _ Hps Hvs)
      by (right; apply Qeq_bool_iff, Hv).
    split; [|discriminate]. split; [|reflexivity].
    intros _. right. exists vols_scale. split; [exact Hvs|apply Qeq_bool_iff, Hv]. }
  assert (Hps0 : ~ (pres_scale == 0)%Q).
  { intros E. apply Qeq_bool_iff in E. congruence. }
  assert (Hvs0 : ~ (vols_scale == 0)%Q).
  { intros E. apply Qeq_bool_iff in E. congruence. }
  destruct (slice_data_shape pres_average vols_average 50 pres_scale vols_scale)
    as (ind & Hind & Hslice); try assumption; try lia.
  rewrite Hslice. cbn [mbind option_bind].
  set (p := map _ (take ind pres_average)).
  set (v := map _ (take ind vols_average)).
  assert (Hplen : length p = ind).
  { unfold p. rewrite length_map, length_take. lia. }
  assert (Hvlen : length v = ind).
  { unfold v. rewrite length_map, length_take. lia. }
  assert (Hne : v <> []).
  { intros E. rewrite E in Hvlen. cbn [length] in Hvlen. lia. }
  destruct (ind_ED_run v Hne) as (k & first & Hk & Hlookup & Hle & _).
  unfold rotate_to_ED. rewrite Hk. cbn [mbind option_bind].
  split.
  { split; [discriminate|].
    intros [(scale & Hscale & Hzero)|(scale & Hscale & Hzero)].
    - rewrite Hps in Hscale. injection Hscale as <-. contradiction.
    - rewrite Hvs in Hscale. injection Hscale as <-. contradiction. }
  intros pressures volumes [= <- <-].
  rewrite !length_rotation, Hplen, Hvlen.
  split; [reflexivity|]. split; [lia|].
  exists first. unfold hstack. split.
  - rewrite (drop_S _ _ _ Hlookup). reflexivity.
  - rewrite Forall_forall in Hle |- *. intros x Hx. apply Hle.
    rewrite <- (take_drop k v). apply elem_of_app.
    apply elem_of_app in Hx. tauto.
Qed.

End ScriptTheory.

Section ScriptRuns.
Import PyNum PVData PVPipeline PVExamples.

Lemma script_needs_two_peaks_witness :
  script toy_sqrt toy_find_peaks [1; 3; 2; 1]%Q [8; 6; 7; 9]%Q = None.
Proof.
  apply (script_needs_two_peaks toy_sqrt toy_find_peaks). vm_compute. lia.
Defined.

(** Eight samples with peaks at 1, 4 and 6: two cycles, of three and of two
    samples. *)
Lemma script_returns_loop_witness :
  exists pres_average vols_average,
    (exists pres_divided vols_divided,
       divide_pv_data toy_find_peaks toy_pres toy_vols
       = Some (pres_divided, vols_divided) /\
       average_array pres_divided = Some pres_average /\
       average_array vols_divided = Some vols_average) /\
    length pres_average = 100%nat /\ length vols_average = 100%nat /\
    (script toy_sqrt toy_find_peaks toy_pres toy_vols = None <->
     (exists scale, np_max pres_average = Some scale /\ (scale == 0)%Q) \/
     (exists scale, np_max vols_average = Some scale /\ (scale == 0)%Q)) /\
    forall pressures volumes,
      script toy_sqrt toy_find_peaks toy_pres toy_vols = Some (pressures, volumes) ->
      length pressures = length volumes /\
      (50 <= length pressures <= 99)%nat /\
      exists first,
        head volumes = Some first /\ Forall (fun x => x <= first)%Q volumes.
Proof.
  apply (script_returns_loop toy_sqrt toy_find_peaks toy_pres toy_vols).
  - vm_compute. lia.
  - vm_compute. repeat constructor.
  - vm_compute. repeat constructor.
  - reflexivity.
Defined.

Example script_on_toy_traces :
  option_map (fun '(pressures, volumes) =>
                (length pressures, length volumes, map Qred (take 3 volumes)))
             (script toy_sqrt toy_find_peaks toy_pres toy_vols)
  = Some (50%nat, 50%nat, [461 # 66; 11 # 2; 365 # 66]%Q).
Proof. vm_compute. reflexivity. Qed.

End ScriptRuns.
(** ** Properties of organize_data.py *)

Section OrganizeTheory.
Import OrganizeData.

Lemma rfind_lower (sub : Ascii.ascii) (s : str) : -1 <= rfind sub s.
Proof.
  induction s as [|c rest IH]; cbn [rfind]; [lia|].
  destruct (rfind sub rest =? -1) eqn:E; [destruct (Ascii.eqb c sub); lia|lia].
Qed.

Lemma rfind_missing (sub : Ascii.ascii) (s : str) :
  rfind sub s = -1 <-> sub ∉ s.
Proof.
  induction s as [|c rest IH]; cbn [rfind].
  - split; [intros _; apply not_elem_of_nil|reflexivity].
  - pose proof (rfind_lower sub rest) as Hlow.
    rewrite not_elem_of_cons, <- IH.
    destruct (rfind sub rest =? -1) eqn:E.
    + apply Z.eqb_eq in E.
      destruct (Ascii.eqb c sub) eqn:Hc.
      * apply Ascii.eqb_eq in Hc. split; [discriminate|]. intros [Hne _].
        congruence.
      * apply Ascii.eqb_neq in Hc. split; [|reflexivity].
        intros _. split; [congruence|exact E].
    + apply Z.eqb_neq in E. split; [lia|]. intros [_ Hrest]. contradiction.
Qed.

Lemma rfind_last (sub : Ascii.ascii) (before after : str) :
  sub ∉ after -> rfind sub (before ++ sub :: after) = Z.of_nat (length before).
Proof.
  intros Hafter. induction before as [|c before IH].
  - cbn [app rfind length]. rewrite (proj2 (rfind_missing sub after) Hafter).
    cbn. rewrite (proj2 (Ascii.eqb_eq sub sub) eq_refl). reflexivity.
  - cbn [app rfind length]. rewrite IH.
    destruct (Z.of_nat (length before) =? -1) eqn:E; [apply Z.eqb_eq in E; lia|].
    lia.
Qed.

(** X22: [get_PV_fname] returns [None] exactly when the path holds no
    backslash.  Otherwise it returns what follows the last backslash
    without its last seven characters, and the empty string when fewer than
    eight characters follow the last backslash. *)
Theorem get_PV_fname_basename (PV_data : str) :
  (get_PV_fname PV_data = None <-> backslash ∉ PV_data) /\
  forall directory fname : str,
    PV_data = directory ++ backslash :: fname -> backslash ∉ fname ->
    get_PV_fname PV_data = Some (take (length fname - 7) fname) /\
    ((length fname < 8)%nat -> get_PV_fname PV_data = Some []).
Proof.
  split.
  - unfold get_PV_fname. rewrite <- rfind_missing.
    destruct (rfind backslash PV_data =? -1) eqn:E; cbn [negb].
    + apply Z.eqb_eq in E. split; [intros _; exact E|reflexivity].
    + apply Z.eqb_neq in E. split; [discriminate|contradiction].
  - intros directory fname -> Hlast.
    assert (Hrun : get_PV_fname (directory ++ backslash :: fname)
                   = Some (take (length fname - 7) fname)).
    { unfold get_PV_fname. rewrite (rfind_last _ _ _ Hlast).
      destruct (Z.of_nat (length directory) =? -1) eqn:E; [apply Z.eqb_eq in E; lia|].
      cbn [negb]. f_equal. unfold str_slice, bound.
      rewrite length_app. cbn [length].
      destruct (Z.of_nat (length directory) + 1 <? 0) eqn:Hneg;
        [apply Z.ltb_lt in Hneg; lia|].
      change (-7 <? 0) with true. cbv iota.
      replace (Z.to_nat (Z.min (Z.of_nat (length directory) + 1)
                               (Z.of_nat (length directory + S (length fname)))))
        with (length (directory ++ [backslash])) by (rewrite length_app; cbn [length]; lia).
      replace (directory ++ backslash :: fname)
        with ((directory ++ [backslash]) ++ fname) by (rewrite <- app_assoc; reflexivity).
      rewrite drop_app_length. f_equal.
      rewrite length_app. cbn [length]. lia. }
    split; [exact Hrun|]. intros Hshort. rewrite Hrun.
    replace (length fname - 7)%nat with 0%nat by lia. reflexivity.
Qed.

End OrganizeTheory.

Section OrganizeRuns.
Import OrganizeData.

Local Open Scope string_scope.

(** A Windows path whose file name ends in seven characters to drop. *)
Lemma get_PV_fname_basename_witness :
  get_PV_fname (String.list_ascii_of_string "D:\PV\156_1_PV.adicht")
  = Some (take (15 - 7) (String.list_ascii_of_string "156_1_PV.adicht")) /\
  get_PV_fname (String.list_ascii_of_string "D:\PV\a.mat") = Some [].
Proof.
  split.
  - refine (proj1 (proj2 (get_PV_fname_basename _)
                     (String.list_ascii_of_string "D:\PV")
                     (String.list_ascii_of_string "156_1_PV.adicht") eq_refl _)).
    vm_compute. intros H. repeat (apply elem_of_cons in H as [H|H]; [discriminate H|]).
    apply elem_of_nil in H. exact H.
  - refine (proj2 (proj2 (get_PV_fname_basename _)
                     (String.list_ascii_of_string "D:\PV")
                     (String.list_ascii_of_string "a.mat") eq_refl _) _).
    + vm_compute. intros H. repeat (apply elem_of_cons in H as [H|H]; [discriminate H|]).
      apply elem_of_nil in H. exact H.
    + cbn. lia.
Defined.

Example get_PV_fname_on_a_path :
  option_map String.string_of_list_ascii
    (get_PV_fname (String.list_ascii_of_string "D:\PV\156_1_PV.adicht"))
  = Some "156_1_PV" /\
  get_PV_fname (String.list_ascii_of_string "156_1_PV.adicht") = None.
Proof. vm_compute. split; reflexivity. Qed.

End OrganizeRuns.

